(** * regex.py: tokenizer, recursive-descent parser and serializer

    A shallow embedding of [src/regex.py] and the properties of its
    pipeline  pattern -> Tokenizer -> Parser -> compile.

    Conventions of the embedding
    - a Python [str] is a list of code points ([char] is [N]); the literal
      strings of the source are written [py "..."] and its literal
      characters [ord "c"];
    - the type tags of tokens and nodes ('CHAR', 'STAR', ...) are Python
      strings compared with [==]; they are kept as strings;
    - a Python exception is a value of [exn]; a function that can raise
      returns an [outcome];
    - [while] loops and the mutual recursion of the parser are driven by a
      fuel counter; [Timeout] is the answer of an exhausted counter, and the
      entry points [Tokenizer.tokenize] and [Parser.parse] are shown never to
      give it;
    - the program is run twice: first on a call stack without bound (the
      modules [Tokenizer] and [Parser], and [compile]), then under the
      interpreter's recursion limit (the module [Limit]), where a call
      that has no frame left raises [RecursionError]. The statements that
      depend on how deep the calls nest are made of [Limit]. *)

From Stdlib Require Import String Ascii NArith Bool Arith Lia List.
Import ListNotations.

Local Open Scope string_scope.
Local Open Scope list_scope.

(** ** Python values *)

Definition char := N.
Definition str := list char.

Definition ord (a : ascii) : char := N_of_ascii a.

Fixpoint py (s : string) : str :=
  match s with
  | EmptyString => []
  | String a s' => ord a :: py s'
  end.

(** [x in {...}] for a set display of characters or of type tags. *)
Definition char_in (c : char) (s : list char) : bool := existsb (N.eqb c) s.
Definition tag_in (t : string) (s : list string) : bool := existsb (String.eqb t) s.

(** class Token: [Token(type, value)]. *)
Record Token := mkToken { type : string; value : str }.

(** The objects that reach [compile]: a [Token] used as a leaf, a [Node]
    (whose children default to [None]), or [None] itself. *)
Inductive tree :=
| PyNone
| Tok (t : Token)
| Node (ty : string) (left right : tree).

(** The exceptions of the program, one constructor per [raise] site, the
    [AttributeError] of an attribute access that the object does not have
    ([None.type], a Token's [left], a Node's [value]), and the
    [RecursionError] of a call that the recursion limit refuses. *)
Inductive exn :=
| Backslash_at_end_of_regex        (* ValueError("Backslash at end of regex") *)
| Unclosed_character_class         (* ValueError("Unclosed character class")  *)
| Unclosed_quantifier              (* ValueError("Unclosed quantifier")       *)
| Unknown_character (c : char)     (* ValueError(f"Unknown character: {c}")   *)
| Unclosed_parenthesis             (* ValueError("Unclosed parenthesis")      *)
| Unexpected_token (t : Token)     (* ValueError(f"Unexpected token: {t}")    *)
| Unknown_node_type (ty : string)  (* ValueError(f"Unknown node type: {ty}")  *)
| AttributeError
| RecursionError.                  (* maximum recursion depth exceeded        *)

Inductive outcome (A : Type) :=
| Ret (a : A)
| Raise (e : exn)
| Timeout.
Arguments Ret {A} a.
Arguments Raise {A} e.
Arguments Timeout {A}.

Definition bind {A B} (m : outcome A) (k : A -> outcome B) : outcome B :=
  match m with
  | Ret a => k a
  | Raise e => Raise e
  | Timeout => Timeout
  end.

Notation "x <- m ;; k" := (bind m (fun x => k))
  (at level 61, m at next level, right associativity).
Notation "' p <- m ;; k" := (bind m (fun x => let p := x in k))
  (at level 61, p pattern, m at next level, right associativity).

(** ** class Tokenizer *)

Module Tokenizer.

Record obj := mk { regex : str; pos : nat }.

Definition set_pos (self : obj) (p : nat) : obj :=
  {| regex := regex self; pos := p |}.

Section Unicode.

(** [str.isalnum] outside ASCII follows the Unicode database, which is not
    part of the program: it is a parameter. *)
Variable isalnum_non_ascii : char -> bool.

Definition isalnum (c : char) : bool :=
  if (c <? 128)%N
  then ((48 <=? c) && (c <=? 57) || (65 <=? c) && (c <=? 90)
        || (97 <=? c) && (c <=? 122))%N
  else isalnum_non_ascii c.

(** The scanning loops of the '[' and '{' branches,
      while self.pos < len(self.regex) and self.regex[self.pos] != stop:
          acc += self.regex[self.pos]; self.pos += 1
    ([nth_error] is [Some] exactly when [self.pos < len(self.regex)]). *)
Fixpoint scan_until (stop : char) (fuel : nat) (self : obj) (acc : str)
  : outcome (str * obj) :=
  match fuel with
  | O => Timeout
  | S fuel' =>
      match nth_error (regex self) (pos self) with
      | Some c =>
          if negb (c =? stop)%N
          then scan_until stop fuel' (set_pos self (pos self + 1)) (acc ++ [c])
          else Ret (acc, self)
      | None => Ret (acc, self)
      end
  end.

(** The test after a scanning loop:
      if self.pos >= len(self.regex) or self.regex[self.pos] != stop: raise *)
Definition stopped_at (stop : char) (self : obj) : bool :=
  match nth_error (regex self) (pos self) with
  | Some c => (c =? stop)%N
  | None => false
  end.

Definition get_next_token (self : obj) : outcome (option Token * obj) :=
  match nth_error (regex self) (pos self) with
  | None => Ret (None, self)
  | Some current_char =>
      '(token, self) <-
        (if isalnum current_char
            || char_in current_char
                 [ord "@"; ord "-"; ord "_"; ord "%"; ord "+"; ord "."]
         then Ret (mkToken "CHAR" [current_char], self)
         else if (current_char =? ord "\")%N then
           let self := set_pos self (pos self + 1) in
           match nth_error (regex self) (pos self) with
           | Some next_char => Ret (mkToken "ESCAPED_CHAR" [next_char], self)
           | None => Raise Backslash_at_end_of_regex
           end
         else if (current_char =? ord "*")%N then
           Ret (mkToken "STAR" [current_char], self)
         else if (current_char =? ord "|")%N then
           Ret (mkToken "ALT" [current_char], self)
         else if (current_char =? ord ".")%N then
           Ret (mkToken "DOT" [current_char], self)
         else if (current_char =? ord "^")%N then
           Ret (mkToken "START" [current_char], self)
         else if (current_char =? ord "$")%N then
           Ret (mkToken "END" [current_char], self)
         else if (current_char =? ord "[")%N then
           let self := set_pos self (pos self + 1) in
           '(char_class, self) <-
             scan_until (ord "]") (S (length (regex self))) self [] ;;
           if stopped_at (ord "]") self
           then Ret (mkToken "CLASS" char_class, self)
           else Raise Unclosed_character_class
         else if (current_char =? ord "{")%N then
           let quantifier := [ord "{"] in
           let self := set_pos self (pos self + 1) in
           '(quantifier, self) <-
             scan_until (ord "}") (S (length (regex self))) self quantifier ;;
           if stopped_at (ord "}") self
           then Ret (mkToken "QUANT" (quantifier ++ [ord "}"]), self)
           else Raise Unclosed_quantifier
         else if (current_char =? ord "(")%N then
           Ret (mkToken "LPAREN" [current_char], self)
         else if (current_char =? ord ")")%N then
           Ret (mkToken "RPAREN" [current_char], self)
         else Raise (Unknown_character current_char)) ;;
      Ret (Some token, set_pos self (pos self + 1))
  end.

(** The loop of [tokenize]; a [Token] object is always truthy, [None] is
    not. *)
Fixpoint tokenize_loop (fuel : nat) (self : obj) (tokens : list Token)
  : outcome (list Token) :=
  match fuel with
  | O => Timeout
  | S fuel' =>
      if (pos self <? length (regex self))%nat then
        '(token, self) <- get_next_token self ;;
        tokenize_loop fuel' self
          (match token with
           | Some tok => tokens ++ [tok]
           | None => tokens
           end)
      else Ret tokens
  end.

(** [Tokenizer(regex).tokenize()] *)
Definition tokenize (regex : str) : outcome (list Token) :=
  tokenize_loop (S (length regex)) (mk regex 0) [].

End Unicode.

End Tokenizer.

(** ** class Parser *)

Module Parser.

Record obj := mk { tokens : list Token; pos : nat; current_token : option Token }.

(** [Parser.__init__] *)
Definition init (tokens : list Token) : obj :=
  {| tokens := tokens;
     pos := 0;
     current_token := match tokens with
                      | [] => None
                      | _ :: _ => nth_error tokens 0
                      end |}.

Definition advance (self : obj) : obj :=
  let pos := pos self + 1 in
  {| tokens := tokens self;
     pos := pos;
     current_token := if (pos <? length (tokens self))%nat
                      then nth_error (tokens self) pos
                      else None |}.

(** [self.current_token is not None and self.current_token.type in tags] *)
Definition current_in (self : obj) (tags : list string) : bool :=
  match current_token self with
  | Some tok => tag_in (type tok) tags
  | None => false
  end.

Definition atom_start : list string :=
  ["CHAR"; "CLASS"; "DOT"; "START"; "END"; "ESCAPED_CHAR"; "LPAREN"].

Definition leaf_tags : list string :=
  ["CHAR"; "CLASS"; "DOT"; "START"; "END"; "ESCAPED_CHAR"].

(** The four methods of the grammar and the three [while] loops; each loop
    carries the variable it rebuilds ([term], [factor], [atom] in the
    source). The calls nest without bound here; [Limit.regex] and the
    methods with it are the same code under the recursion limit. *)
Fixpoint regex (fuel : nat) (self : obj) : outcome (tree * obj) :=
  match fuel with
  | O => Timeout
  | S fuel' =>
      '(term, self) <- term fuel' self ;;
      regex_while fuel' term self
  end
with regex_while (fuel : nat) (term0 : tree) (self : obj) : outcome (tree * obj) :=
  match fuel with
  | O => Timeout
  | S fuel' =>
      if current_in self ["ALT"] then
        let self := advance self in
        '(right_, self) <- term fuel' self ;;
        regex_while fuel' (Node "ALT" term0 right_) self
      else Ret (term0, self)
  end
with term (fuel : nat) (self : obj) : outcome (tree * obj) :=
  match fuel with
  | O => Timeout
  | S fuel' =>
      '(factor, self) <- factor fuel' self ;;
      term_while fuel' factor self
  end
with term_while (fuel : nat) (factor0 : tree) (self : obj) : outcome (tree * obj) :=
  match fuel with
  | O => Timeout
  | S fuel' =>
      if current_in self atom_start then
        '(right_, self) <- factor fuel' self ;;
        term_while fuel' (Node "CONCAT" factor0 right_) self
      else Ret (factor0, self)
  end
with factor (fuel : nat) (self : obj) : outcome (tree * obj) :=
  match fuel with
  | O => Timeout
  | S fuel' =>
      '(atom, self) <- atom fuel' self ;;
      factor_while fuel' atom self
  end
with factor_while (fuel : nat) (atom0 : tree) (self : obj) : outcome (tree * obj) :=
  match fuel with
  | O => Timeout
  | S fuel' =>
      match current_token self with
      | Some quant =>
          if tag_in (type quant) ["STAR"; "QUANT"] then
            if type quant =? "STAR" then
              let self := advance self in
              factor_while fuel' (Node "STAR" atom0 PyNone) self
            else if type quant =? "QUANT" then
              let self := advance self in
              factor_while fuel' (Node "QUANT" atom0 (Tok quant)) self
            else factor_while fuel' atom0 self
          else Ret (atom0, self)
      | None => Ret (atom0, self)
      end
  end
with atom (fuel : nat) (self : obj) : outcome (tree * obj) :=
  match fuel with
  | O => Timeout
  | S fuel' =>
      match current_token self with
      | None => Raise AttributeError          (* None.type *)
      | Some tok =>
          if tag_in (type tok) leaf_tags then
            let node := Tok tok in
            let self := advance self in
            Ret (node, self)
          else if type tok =? "LPAREN" then
            let self := advance self in
            '(node, self) <- regex fuel' self ;;
            match current_token self with
            | None => Raise Unclosed_parenthesis
            | Some tok' =>
                if negb (type tok' =? "RPAREN") then Raise Unclosed_parenthesis
                else
                  let self := advance self in
                  Ret (Node "GROUP" node PyNone, self)
            end
          else Raise (Unexpected_token tok)
      end
  end.

(** [Parser(tokens).parse()]: the tree, the final cursor dropped. *)
Definition parse_from (fuel : nat) (self : obj) : outcome tree :=
  '(tree, _) <- regex fuel self ;; Ret tree.

Definition parse (tokens : list Token) : outcome tree :=
  parse_from (4 * length tokens + 4) (init tokens).

End Parser.

(** ** compile *)

(** Attribute access on the objects that can reach [compile]. *)
Definition get_type (t : tree) : outcome string :=
  match t with
  | PyNone => Raise AttributeError
  | Tok tok => Ret (type tok)
  | Node ty _ _ => Ret ty
  end.

Definition get_value (t : tree) : outcome str :=
  match t with
  | Tok tok => Ret (value tok)
  | _ => Raise AttributeError
  end.

(** [compile] on a stack without bound; [Limit.compile] is the same code
    under the recursion limit. *)
Fixpoint compile (tree : tree) : outcome str :=
  ty <- get_type tree ;;
  if ty =? "CHAR" then get_value tree
  else if ty =? "STAR" then
    match tree with
    | Node _ left_ _ => l <- compile left_ ;; Ret (py "(" ++ l ++ py ")*")
    | _ => Raise AttributeError
    end
  else if ty =? "CONCAT" then
    match tree with
    | Node _ left_ right_ =>
        l <- compile left_ ;; r <- compile right_ ;; Ret (l ++ r)
    | _ => Raise AttributeError
    end
  else if ty =? "ALT" then
    match tree with
    | Node _ left_ right_ =>
        l <- compile left_ ;; r <- compile right_ ;;
        Ret (py "(" ++ l ++ py "|" ++ r ++ py ")")
    | _ => Raise AttributeError
    end
  else if ty =? "CLASS" then
    v <- get_value tree ;; Ret (py "[" ++ v ++ py "]")
  else if ty =? "DOT" then Ret (py ".")
  else if ty =? "START" then Ret (py "^")
  else if ty =? "END" then Ret (py "$")
  else if ty =? "ESCAPED_CHAR" then
    v <- get_value tree ;; Ret (py "\" ++ v)
  else if ty =? "QUANT" then
    match tree with
    | Node _ left_ right_ =>
        l <- compile left_ ;; q <- get_value right_ ;; Ret (l ++ q)
    | _ => Raise AttributeError
    end
  else if ty =? "GROUP" then
    match tree with
    | Node _ left_ _ => l <- compile left_ ;; Ret (py "(" ++ l ++ py ")")
    | _ => Raise AttributeError
    end
  else Raise (Unknown_node_type ty).

(** The pipeline of the script: tokenize, parse, compile. *)
Definition pipeline (isalnum_non_ascii : char -> bool) (p : str) : outcome str :=
  tokens <- Tokenizer.tokenize isalnum_non_ascii p ;;
  tree <- Parser.parse tokens ;;
  compile tree.

(** ** The recursion limit *)

(** The interpreter counts the frames of the functions of the program that
    are running, and a call that would exceed its limit raises
    [RecursionError] in the caller. [invoke frames body] is such a call
    when [frames] more frames may be pushed: the body runs with one frame
    fewer for its own calls. The functions that take a frame are the
    Python functions of the program: the methods of [Tokenizer] and
    [Parser], [compile], and [Token.__init__], [Node.__init__] and
    [Token.__repr__]. The built-ins the program calls ([len],
    [str.isalnum], [list.append], [repr] of a string, the constructor of
    [ValueError]) are not Python code and take none: this is the count of
    CPython since 3.12; earlier versions also charge a built-in while it
    runs, and a run then needs a few frames more than stated below. *)
Definition invoke {A : Type} (frames : nat) (body : nat -> outcome A)
  : outcome A :=
  match frames with
  | O => Raise RecursionError
  | S frames' => body frames'
  end.

(** The program under the limit. Each function below is the body of the
    function of the same name above, run when [frames] more frames may be
    pushed, with every call the body makes written as an [invoke]. *)
Module Limit.

(** [Token(type, value)] and [Node(type, left, right)] call [__init__]. *)
Definition new_Token (frames : nat) (type : string) (value : str)
  : outcome Token :=
  invoke frames (fun _ => Ret (mkToken type value)).

Definition new_Node (frames : nat) (type : string) (left_ right_ : tree)
  : outcome tree :=
  invoke frames (fun _ => Ret (Node type left_ right_)).

(** A token formatted in an f-string: [Token.__repr__] writes it; the
    exception that is made of the text carries the token itself. *)
Definition repr (frames : nat) (tok : Token) : outcome Token :=
  invoke frames (fun _ => Ret tok).

(** [self.advance()] *)
Definition advance (frames : nat) (self : Parser.obj) : outcome Parser.obj :=
  invoke frames (fun _ => Ret (Parser.advance self)).

Section Unicode.

Variable isalnum_non_ascii : char -> bool.

Definition get_next_token (frames : nat) (self : Tokenizer.obj)
  : outcome (option Token * Tokenizer.obj) :=
  match nth_error (Tokenizer.regex self) (Tokenizer.pos self) with
  | None => Ret (None, self)
  | Some current_char =>
      '(token, self) <-
        (if Tokenizer.isalnum isalnum_non_ascii current_char
            || char_in current_char
                 [ord "@"; ord "-"; ord "_"; ord "%"; ord "+"; ord "."]
         then
           token <- new_Token frames "CHAR" [current_char] ;;
           Ret (token, self)
         else if (current_char =? ord "\")%N then
           let self := Tokenizer.set_pos self (Tokenizer.pos self + 1) in
           match nth_error (Tokenizer.regex self) (Tokenizer.pos self) with
           | Some next_char =>
               token <- new_Token frames "ESCAPED_CHAR" [next_char] ;;
               Ret (token, self)
           | None => Raise Backslash_at_end_of_regex
           end
         else if (current_char =? ord "*")%N then
           token <- new_Token frames "STAR" [current_char] ;;
           Ret (token, self)
         else if (current_char =? ord "|")%N then
           token <- new_Token frames "ALT" [current_char] ;;
           Ret (token, self)
         else if (current_char =? ord ".")%N then
           token <- new_Token frames "DOT" [current_char] ;;
           Ret (token, self)
         else if (current_char =? ord "^")%N then
           token <- new_Token frames "START" [current_char] ;;
           Ret (token, self)
         else if (current_char =? ord "$")%N then
           token <- new_Token frames "END" [current_char] ;;
           Ret (token, self)
         else if (current_char =? ord "[")%N then
           let self := Tokenizer.set_pos self (Tokenizer.pos self + 1) in
           '(char_class, self) <-
             Tokenizer.scan_until (ord "]")
               (S (length (Tokenizer.regex self))) self [] ;;
           if Tokenizer.stopped_at (ord "]") self
           then
             token <- new_Token frames "CLASS" char_class ;;
             Ret (token, self)
           else Raise Unclosed_character_class
         else if (current_char =? ord "{")%N then
           let quantifier := [ord "{"] in
           let self := Tokenizer.set_pos self (Tokenizer.pos self + 1) in
           '(quantifier, self) <-
             Tokenizer.scan_until (ord "}")
               (S (length (Tokenizer.regex self))) self quantifier ;;
           if Tokenizer.stopped_at (ord "}") self
           then
             token <- new_Token frames "QUANT" (quantifier ++ [ord "}"]) ;;
             Ret (token, self)
           else Raise Unclosed_quantifier
         else if (current_char =? ord "(")%N then
           token <- new_Token frames "LPAREN" [current_char] ;;
           Ret (token, self)
         else if (current_char =? ord ")")%N then
           token <- new_Token frames "RPAREN" [current_char] ;;
           Ret (token, self)
         else Raise (Unknown_character current_char)) ;;
      Ret (Some token, Tokenizer.set_pos self (Tokenizer.pos self + 1))
  end.

Fixpoint tokenize_loop (fuel frames : nat) (self : Tokenizer.obj)
  (tokens : list Token) : outcome (list Token) :=
  match fuel with
  | O => Timeout
  | S fuel' =>
      if (Tokenizer.pos self <? length (Tokenizer.regex self))%nat then
        '(token, self) <- invoke frames (fun d => get_next_token d self) ;;
        tokenize_loop fuel' frames self
          (match token with
           | Some tok => tokens ++ [tok]
           | None => tokens
           end)
      else Ret tokens
  end.

(** [Tokenizer(regex).tokenize()]: a call of [__init__], then one of
    [tokenize]. *)
Definition tokenize (frames : nat) (regex : str) : outcome (list Token) :=
  self <- invoke frames (fun _ => Ret (Tokenizer.mk regex 0)) ;;
  invoke frames (fun d => tokenize_loop (S (length regex)) d self []).

End Unicode.

Fixpoint regex (fuel frames : nat) (self : Parser.obj)
  : outcome (tree * Parser.obj) :=
  match fuel with
  | O => Timeout
  | S fuel' =>
      '(term_, self) <- invoke frames (fun d => term fuel' d self) ;;
      regex_while fuel' frames term_ self
  end
with regex_while (fuel frames : nat) (term0 : tree) (self : Parser.obj)
  : outcome (tree * Parser.obj) :=
  match fuel with
  | O => Timeout
  | S fuel' =>
      if Parser.current_in self ["ALT"] then
        self <- advance frames self ;;
        '(right_, self) <- invoke frames (fun d => term fuel' d self) ;;
        node <- new_Node frames "ALT" term0 right_ ;;
        regex_while fuel' frames node self
      else Ret (term0, self)
  end
with term (fuel frames : nat) (self : Parser.obj)
  : outcome (tree * Parser.obj) :=
  match fuel with
  | O => Timeout
  | S fuel' =>
      '(factor_, self) <- invoke frames (fun d => factor fuel' d self) ;;
      term_while fuel' frames factor_ self
  end
with term_while (fuel frames : nat) (factor0 : tree) (self : Parser.obj)
  : outcome (tree * Parser.obj) :=
  match fuel with
  | O => Timeout
  | S fuel' =>
      if Parser.current_in self Parser.atom_start then
        '(right_, self) <- invoke frames (fun d => factor fuel' d self) ;;
        node <- new_Node frames "CONCAT" factor0 right_ ;;
        term_while fuel' frames node self
      else Ret (factor0, self)
  end
with factor (fuel frames : nat) (self : Parser.obj)
  : outcome (tree * Parser.obj) :=
  match fuel with
  | O => Timeout
  | S fuel' =>
      '(atom_, self) <- invoke frames (fun d => atom fuel' d self) ;;
      factor_while fuel' frames atom_ self
  end
with factor_while (fuel frames : nat) (atom0 : tree) (self : Parser.obj)
  : outcome (tree * Parser.obj) :=
  match fuel with
  | O => Timeout
  | S fuel' =>
      match Parser.current_token self with
      | Some quant =>
          if tag_in (type quant) ["STAR"; "QUANT"] then
            if type quant =? "STAR" then
              self <- advance frames self ;;
              node <- new_Node frames "STAR" atom0 PyNone ;;
              factor_while fuel' frames node self
            else if type quant =? "QUANT" then
              self <- advance frames self ;;
              node <- new_Node frames "QUANT" atom0 (Tok quant) ;;
              factor_while fuel' frames node self
            else factor_while fuel' frames atom0 self
          else Ret (atom0, self)
      | None => Ret (atom0, self)
      end
  end
with atom (fuel frames : nat) (self : Parser.obj)
  : outcome (tree * Parser.obj) :=
  match fuel with
  | O => Timeout
  | S fuel' =>
      match Parser.current_token self with
      | None => Raise AttributeError          (* None.type *)
      | Some tok =>
          if tag_in (type tok) Parser.leaf_tags then
            let node := Tok tok in
            self <- advance frames self ;;
            Ret (node, self)
          else if type tok =? "LPAREN" then
            self <- advance frames self ;;
            '(node, self) <- invoke frames (fun d => regex fuel' d self) ;;
            match Parser.current_token self with
            | None => Raise Unclosed_parenthesis
            | Some tok' =>
                if negb (type tok' =? "RPAREN") then Raise Unclosed_parenthesis
                else
                  self <- advance frames self ;;
                  group <- new_Node frames "GROUP" node PyNone ;;
                  Ret (group, self)
            end
          else
            shown <- repr frames tok ;;
            Raise (Unexpected_token shown)
      end
  end.

(** The body of [parse], and [Parser(tokens).parse()]: a call of
    [__init__], then one of [parse]. *)
Definition parse_from (fuel frames : nat) (self : Parser.obj) : outcome tree :=
  '(tree, _) <- invoke frames (fun d => regex fuel d self) ;; Ret tree.

Definition parse (frames : nat) (tokens : list Token) : outcome tree :=
  self <- invoke frames (fun _ => Ret (Parser.init tokens)) ;;
  invoke frames (fun d => parse_from (4 * length tokens + 4) d self).

(** [compile(tree)]: the call, and in it the body of [compile]. *)
Fixpoint compile (frames : nat) (tree : tree) {struct tree} : outcome str :=
  invoke frames (fun d =>
    ty <- get_type tree ;;
    if ty =? "CHAR" then get_value tree
    else if ty =? "STAR" then
      match tree with
      | Node _ left_ _ => l <- compile d left_ ;; Ret (py "(" ++ l ++ py ")*")
      | _ => Raise AttributeError
      end
    else if ty =? "CONCAT" then
      match tree with
      | Node _ left_ right_ =>
          l <- compile d left_ ;; r <- compile d right_ ;; Ret (l ++ r)
      | _ => Raise AttributeError
      end
    else if ty =? "ALT" then
      match tree with
      | Node _ left_ right_ =>
          l <- compile d left_ ;; r <- compile d right_ ;;
          Ret (py "(" ++ l ++ py "|" ++ r ++ py ")")
      | _ => Raise AttributeError
      end
    else if ty =? "CLASS" then
      v <- get_value tree ;; Ret (py "[" ++ v ++ py "]")
    else if ty =? "DOT" then Ret (py ".")
    else if ty =? "START" then Ret (py "^")
    else if ty =? "END" then Ret (py "$")
    else if ty =? "ESCAPED_CHAR" then
      v <- get_value tree ;; Ret (py "\" ++ v)
    else if ty =? "QUANT" then
      match tree with
      | Node _ left_ right_ =>
          l <- compile d left_ ;; q <- get_value right_ ;; Ret (l ++ q)
      | _ => Raise AttributeError
      end
    else if ty =? "GROUP" then
      match tree with
      | Node _ left_ _ => l <- compile d left_ ;; Ret (py "(" ++ l ++ py ")")
      | _ => Raise AttributeError
      end
    else Raise (Unknown_node_type ty)).

(** The pipeline of the script: its three calls are made from the same
    depth. *)
Definition pipeline (frames : nat) (isalnum_non_ascii : char -> bool)
  (p : str) : outcome str :=
  tokens <- tokenize isalnum_non_ascii frames p ;;
  tree <- parse frames tokens ;;
  compile frames tree.

End Limit.

(** * Specification vocabulary *)

(** ** Lexemes *)

(** The part of a string before the first [stop], and the part from it on. *)
Fixpoint before (stop : char) (l : str) : str :=
  match l with
  | [] => []
  | c :: r => if (c =? stop)%N then [] else c :: before stop r
  end.

Fixpoint from (stop : char) (l : str) : str :=
  match l with
  | [] => []
  | c :: r => if (c =? stop)%N then l else from stop r
  end.

(** The text a token stands for in the pattern. *)
Definition lexeme (tok : Token) : str :=
  if type tok =? "CLASS" then py "[" ++ value tok ++ py "]"
  else if type tok =? "ESCAPED_CHAR" then py "\" ++ value tok
  else value tok.

Section Lexemes.

Variable isalnum_non_ascii : char -> bool.

(** The test of the first branch of [get_next_token]. *)
Definition char_branch (c : char) : bool :=
  Tokenizer.isalnum isalnum_non_ascii c
  || char_in c [ord "@"; ord "-"; ord "_"; ord "%"; ord "+"; ord "."].

(** [lexeme_of tok lx]: the tokenizer reads the characters [lx] as the one
    token [tok]. There is no rule for 'DOT'. *)
Inductive lexeme_of : Token -> str -> Prop :=
| lx_CHAR c : char_branch c = true -> lexeme_of (mkToken "CHAR" [c]) [c]
| lx_ESCAPED_CHAR c : lexeme_of (mkToken "ESCAPED_CHAR" [c]) (py "\" ++ [c])
| lx_STAR : lexeme_of (mkToken "STAR" (py "*")) (py "*")
| lx_ALT : lexeme_of (mkToken "ALT" (py "|")) (py "|")
| lx_START : lexeme_of (mkToken "START" (py "^")) (py "^")
| lx_END : lexeme_of (mkToken "END" (py "$")) (py "$")
| lx_CLASS body :
    ~ In (ord "]") body ->
    lexeme_of (mkToken "CLASS" body) (py "[" ++ body ++ py "]")
| lx_QUANT body :
    ~ In (ord "}") body ->
    lexeme_of (mkToken "QUANT" (py "{" ++ body ++ py "}"))
              (py "{" ++ body ++ py "}")
| lx_LPAREN : lexeme_of (mkToken "LPAREN" (py "(")) (py "(")
| lx_RPAREN : lexeme_of (mkToken "RPAREN" (py ")")) (py ")").

(** [lexes s toks]: [s] is the concatenation of the lexemes of [toks]. *)
Inductive lexes : str -> list Token -> Prop :=
| lexes_nil : lexes [] []
| lexes_cons tok lx r toks :
    lexeme_of tok lx -> lexes r toks -> lexes (lx ++ r) (tok :: toks).

Definition good_token (tok : Token) : Prop := exists lx, lexeme_of tok lx.

End Lexemes.

(** ** Trees and token sequences of the grammar *)

(** The trees the parser builds, over leaf and quantifier tokens that
    satisfy [P]. *)
Inductive ast (P : Token -> Prop) : tree -> Prop :=
| ast_leaf tok :
    tag_in (type tok) Parser.leaf_tags = true -> P tok -> ast P (Tok tok)
| ast_GROUP x : ast P x -> ast P (Node "GROUP" x PyNone)
| ast_STAR x : ast P x -> ast P (Node "STAR" x PyNone)
| ast_QUANT x q :
    ast P x -> type q = "QUANT" -> P q -> ast P (Node "QUANT" x (Tok q))
| ast_CONCAT l r : ast P l -> ast P r -> ast P (Node "CONCAT" l r)
| ast_ALT l r : ast P l -> ast P r -> ast P (Node "ALT" l r).

(** The type tags of all the objects of a tree. *)
Fixpoint tags (t : tree) : list string :=
  match t with
  | PyNone => []
  | Tok tok => [type tok]
  | Node ty l r => ty :: tags l ++ tags r
  end.

(** The tokens of the text [compile] writes for a tree. *)
Definition LPAREN_token := mkToken "LPAREN" (py "(").
Definition RPAREN_token := mkToken "RPAREN" (py ")").
Definition STAR_token := mkToken "STAR" (py "*").
Definition ALT_token := mkToken "ALT" (py "|").

Fixpoint tokens_of (t : tree) : list Token :=
  match t with
  | PyNone => []
  | Tok tok => [tok]
  | Node ty l r =>
      if ty =? "STAR" then LPAREN_token :: tokens_of l ++ [RPAREN_token; STAR_token]
      else if ty =? "CONCAT" then tokens_of l ++ tokens_of r
      else if ty =? "ALT" then
        LPAREN_token :: tokens_of l ++ ALT_token :: tokens_of r ++ [RPAREN_token]
      else if ty =? "QUANT" then tokens_of l ++ tokens_of r
      else if ty =? "GROUP" then LPAREN_token :: tokens_of l ++ [RPAREN_token]
      else []
  end.

(** Token sequences that each level of the grammar reads completely. *)
Inductive level := Atom | Factor | Term | Regex.

Definition is_postfix (tok : Token) : Prop :=
  tag_in (type tok) ["STAR"; "QUANT"] = true
  /\ (type tok = "STAR" \/ type tok = "QUANT").

Inductive accepts : level -> list Token -> Prop :=
| acc_leaf tok :
    tag_in (type tok) Parser.leaf_tags = true -> accepts Atom [tok]
| acc_group lp r rp :
    type lp = "LPAREN" -> type rp = "RPAREN" -> accepts Regex r ->
    accepts Atom (lp :: r ++ [rp])
| acc_factor a ps :
    accepts Atom a -> Forall is_postfix ps -> accepts Factor (a ++ ps)
| acc_term_one f : accepts Factor f -> accepts Term f
| acc_term_more f t :
    accepts Factor f -> accepts Term t -> accepts Term (f ++ t)
| acc_regex_one t : accepts Term t -> accepts Regex t
| acc_regex_more t alt r :
    accepts Term t -> type alt = "ALT" -> accepts Regex r ->
    accepts Regex (t ++ alt :: r).

(** The lookahead after a complete phrase: nothing, or a token whose tag is
    outside [tags]. *)
Definition follows (tags : list string) (rest : list Token) : Prop :=
  match rest with
  | [] => True
  | tok :: _ => tag_in (type tok) tags = false
  end.

(** ** Cursors *)

(** What a tokenizer has not read yet. *)
Definition chars_left (self : Tokenizer.obj) : str :=
  skipn (Tokenizer.pos self) (Tokenizer.regex self).

(** What a parser has not read yet, and the invariant that ties its
    [current_token] to its [pos]. *)
Definition tokens_left (self : Parser.obj) : list Token :=
  skipn (Parser.pos self) (Parser.tokens self).

Definition cursor_ok (self : Parser.obj) : Prop :=
  Parser.current_token self = nth_error (Parser.tokens self) (Parser.pos self).

(** [lands res t rest]: the call returned the tree [t], with a consistent
    cursor in front of [rest]. *)
Definition lands (res : outcome (tree * Parser.obj)) (t : tree)
  (rest : list Token) : Prop :=
  exists self',
    res = Ret (t, self') /\ cursor_ok self' /\ tokens_left self' = rest.

(** The lookahead that ends a term, and the one that ends a regex. *)
Definition ends_term (rest : list Token) : Prop :=
  follows ["STAR"; "QUANT"] rest /\ follows Parser.atom_start rest.

Definition ends_regex (rest : list Token) : Prop :=
  ends_term rest /\ follows ["ALT"] rest.

(** One postfix token applied to the tree built so far, as in the loop of
    [factor]. *)
Definition wrap (t : tree) (q : Token) : tree :=
  if type q =? "STAR" then Node "STAR" t PyNone else Node "QUANT" t (Tok q).

(** What it means for the parser to read the sequences of each level: the
    method of the level, started in front of [l ++ rest] with the stated
    fuel, returns in front of [rest], with a tree that [l] alone determines;
    the loops of [term] and [regex] do the same when they are entered in
    front of [l], respectively in front of an 'ALT' token and [l], and what
    they make of the tree they start from is determined by [l]. *)
Definition completes (lv : level) (l : list Token) : Prop :=
  match lv with
  | Atom =>
      exists t,
      forall fuel self rest,
        cursor_ok self -> tokens_left self = l ++ rest ->
        4 * length l <= fuel ->
        lands (Parser.atom fuel self) t rest
  | Factor =>
      exists t,
      forall fuel self rest,
        cursor_ok self -> tokens_left self = l ++ rest ->
        follows ["STAR"; "QUANT"] rest ->
        4 * length l + 1 <= fuel ->
        lands (Parser.factor fuel self) t rest
  | Term =>
      exists t (k : tree -> tree),
      (forall fuel self rest,
         cursor_ok self -> tokens_left self = l ++ rest ->
         ends_term rest ->
         4 * length l + 2 <= fuel ->
         lands (Parser.term fuel self) t rest)
      /\ (forall fuel t0 self rest,
            cursor_ok self -> tokens_left self = l ++ rest ->
            ends_term rest ->
            4 * length l + 2 <= fuel ->
            lands (Parser.term_while fuel t0 self) (k t0) rest)
  | Regex =>
      exists t (k : tree -> tree),
      (forall fuel self rest,
         cursor_ok self -> tokens_left self = l ++ rest ->
         ends_regex rest ->
         4 * length l + 3 <= fuel ->
         lands (Parser.regex fuel self) t rest)
      /\ (forall fuel t0 self alt rest,
            cursor_ok self -> tokens_left self = alt :: l ++ rest ->
            type alt = "ALT" ->
            ends_regex rest ->
            4 * length l + 3 <= fuel ->
            lands (Parser.regex_while fuel t0 self) (k t0) rest)
  end.

(** ** What a successful call has done

    [post self pre n res]: if [res] is a result [(t, self')], then the cursor
    of [self'] is consistent, [self'] has read at least [n] tokens more than
    [self], and [t] is a tree of the parser over the tokens that were left,
    provided the tree the call started from was one ([pre]). *)
Definition post (self : Parser.obj) (pre : (Token -> Prop) -> Prop) (n : nat)
  (res : outcome (tree * Parser.obj)) : Prop :=
  match res with
  | Ret (t, self') =>
      cursor_ok self'
      /\ (exists used,
            tokens_left self = used ++ tokens_left self' /\ n <= length used)
      /\ (forall P : Token -> Prop,
            Forall P (tokens_left self) -> pre P -> ast P t)
  | _ => True
  end.

(** ** Statements about token texts *)

(** What holds of the text of every token [tokenize] returns. *)
Definition token_text_ok (tok : Token) : Prop :=
  (type tok = "CLASS" -> ~ In (ord "]") (value tok))
  /\ (type tok = "QUANT" ->
      exists body,
        value tok = py "{" ++ body ++ py "}" /\ ~ In (ord "}") body)
  /\ (type tok <> "CLASS" -> value tok <> []).

(** Every token of every successful [tokenize] has a non-empty text. *)
Definition all_texts_nonempty (isalnum_non_ascii : char -> bool) (s : str)
  : Prop :=
  forall toks,
    Tokenizer.tokenize isalnum_non_ascii s = Ret toks ->
    Forall (fun tok => value tok <> []) toks.

(** ** Characters the tokenizer has a branch for *)

Section Supported.

Variable isalnum_non_ascii : char -> bool.

(** The characters on which [get_next_token] does not reach its last
    [else]. *)
Definition supported (c : char) : bool :=
  char_branch isalnum_non_ascii c
  || char_in c [ord "\"; ord "*"; ord "|"; ord "^"; ord "$"; ord "[";
                ord "{"; ord "("; ord ")"].

(** The four ways [get_next_token] fails, read on what is left of the
    string. *)
Inductive fails_on : str -> exn -> Prop :=
| fails_backslash : fails_on (py "\") Backslash_at_end_of_regex
| fails_class body :
    ~ In (ord "]") body -> fails_on (py "[" ++ body) Unclosed_character_class
| fails_quant body :
    ~ In (ord "}") body -> fails_on (py "{" ++ body) Unclosed_quantifier
| fails_unknown c r :
    supported c = false -> fails_on (c :: r) (Unknown_character c).

End Supported.

(** ** The trees of the grammar *)

(** The phrases of the grammar: the four methods of the parser, and the
    loops of [term] and [regex] entered with the tree built so far. *)
Inductive phrase :=
| P_atom
| P_factor
| P_term
| P_term_loop (t0 : tree)
| P_regex
| P_regex_loop (t0 : tree).

(** [yields ph l t]: the tokens [l], read as the phrase [ph], make the tree
    [t]. *)
Inductive yields : phrase -> list Token -> tree -> Prop :=
| y_leaf tok :
    tag_in (type tok) Parser.leaf_tags = true ->
    yields P_atom [tok] (Tok tok)
| y_group lp r rp t :
    type lp = "LPAREN" -> type rp = "RPAREN" -> yields P_regex r t ->
    yields P_atom (lp :: r ++ [rp]) (Node "GROUP" t PyNone)
| y_factor a ps t :
    yields P_atom a t -> Forall is_postfix ps ->
    yields P_factor (a ++ ps) (fold_left wrap ps t)
| y_term f l tf t :
    yields P_factor f tf -> yields (P_term_loop tf) l t ->
    yields P_term (f ++ l) t
| y_term_stop t0 : yields (P_term_loop t0) [] t0
| y_term_more t0 f l tf t :
    yields P_factor f tf ->
    yields (P_term_loop (Node "CONCAT" t0 tf)) l t ->
    yields (P_term_loop t0) (f ++ l) t
| y_regex tm l tt t :
    yields P_term tm tt -> yields (P_regex_loop tt) l t ->
    yields P_regex (tm ++ l) t
| y_regex_stop t0 : yields (P_regex_loop t0) [] t0
| y_regex_more t0 alt tm l tt t :
    type alt = "ALT" -> yields P_term tm tt ->
    yields (P_regex_loop (Node "ALT" t0 tt)) l t ->
    yields (P_regex_loop t0) (alt :: tm ++ l) t.

(** The lookahead on which a phrase ends. *)
Definition follow (ph : phrase) (rest : list Token) : Prop :=
  match ph with
  | P_atom => True
  | P_factor => follows ["STAR"; "QUANT"] rest
  | P_term | P_term_loop _ => ends_term rest
  | P_regex | P_regex_loop _ => ends_regex rest
  end.

(** The call of the parser that reads a phrase, and the fuel that is enough
    for it on [n] tokens. *)
Definition call (ph : phrase) (fuel : nat) (self : Parser.obj)
  : outcome (tree * Parser.obj) :=
  match ph with
  | P_atom => Parser.atom fuel self
  | P_factor => Parser.factor fuel self
  | P_term => Parser.term fuel self
  | P_term_loop t0 => Parser.term_while fuel t0 self
  | P_regex => Parser.regex fuel self
  | P_regex_loop t0 => Parser.regex_while fuel t0 self
  end.

Definition enough (ph : phrase) (n : nat) : nat :=
  match ph with
  | P_atom => 4 * n
  | P_factor => 4 * n + 1
  | P_term | P_term_loop _ => 4 * n + 2
  | P_regex | P_regex_loop _ => 4 * n + 3
  end.

(** [derived ph self res]: a result of the call for [ph] is the tree of a
    phrase [ph] that starts at the cursor, and the cursor is left on a
    lookahead that ends the phrase. *)
Definition derived (ph : phrase) (self : Parser.obj)
  (res : outcome (tree * Parser.obj)) : Prop :=
  match res with
  | Ret (t, self') =>
      cursor_ok self'
      /\ exists used,
           tokens_left self = used ++ tokens_left self'
           /\ yields ph used t
           /\ follow ph (tokens_left self')
  | _ => True
  end.

(** The exceptions [parse] can raise on the tokens [l]. *)
Definition parser_raises (l : list Token) (e : exn) : Prop :=
  e = AttributeError
  \/ e = Unclosed_parenthesis
  \/ exists tok,
       e = Unexpected_token tok /\ In tok l
       /\ tag_in (type tok) Parser.atom_start = false.

(** The left-nested concatenation of leaves, and a token sequence without
    its parentheses. *)
Definition chain (x : Token) (xs : list Token) : tree :=
  fold_left (fun acc tok => Node "CONCAT" acc (Tok tok)) xs (Tok x).

Definition no_parens (l : list Token) : list Token :=
  filter (fun tok => negb (tag_in (type tok) ["LPAREN"; "RPAREN"])) l.

(** The type tags [compile] has a case for. *)
Definition compile_tags : list string :=
  ["CHAR"; "STAR"; "CONCAT"; "ALT"; "CLASS"; "DOT"; "START"; "END";
   "ESCAPED_CHAR"; "QUANT"; "GROUP"].

(** ** Depth of the calls *)

(** How deep the groups of a tree nest, and how high a tree is. *)
Fixpoint group_depth (t : tree) : nat :=
  match t with
  | Node ty l r =>
      (if ty =? "GROUP" then 1 else 0)
      + Nat.max (group_depth l) (group_depth r)
  | _ => 0
  end.

Fixpoint height (t : tree) : nat :=
  match t with
  | Node _ l r => S (Nat.max (height l) (height r))
  | _ => 1
  end.

(** The tree of the text [compile] writes for a tree: the parentheses it
    puts around the operand of a 'STAR' and around an 'ALT' are read back
    as groups. *)
Fixpoint reparsed (t : tree) : tree :=
  match t with
  | Node ty l r =>
      if ty =? "STAR" then
        Node "STAR" (Node "GROUP" (reparsed l) PyNone) PyNone
      else if ty =? "ALT" then
        Node "GROUP" (Node "ALT" (reparsed l) (reparsed r)) PyNone
      else if ty =? "CONCAT" then Node "CONCAT" (reparsed l) (reparsed r)
      else if ty =? "GROUP" then Node "GROUP" (reparsed l) PyNone
      else if ty =? "QUANT" then Node "QUANT" (reparsed l) r
      else t
  | _ => t
  end.

(** The frames the method of a phrase needs for its own calls, apart from
    four for each level of groups in its tree: [atom] calls [advance],
    [factor] calls [atom], [term] calls [factor], [regex] calls [term]. *)
Definition frames_of (ph : phrase) : nat :=
  match ph with
  | P_atom => 1
  | P_factor => 2
  | P_term | P_term_loop _ => 3
  | P_regex | P_regex_loop _ => 4
  end.

Definition limit_call (ph : phrase) (fuel frames : nat) (self : Parser.obj)
  : outcome (tree * Parser.obj) :=
  match ph with
  | P_atom => Limit.atom fuel frames self
  | P_factor => Limit.factor fuel frames self
  | P_term => Limit.term fuel frames self
  | P_term_loop t0 => Limit.term_while fuel frames t0 self
  | P_regex => Limit.regex fuel frames self
  | P_regex_loop t0 => Limit.regex_while fuel frames t0 self
  end.

(** [simulates Q b u]: the run [b] under the limit follows the run [u] on
    the unbounded stack until the limit stops it: its result is the result
    of [u] and satisfies [Q], its exception is [RecursionError] or the
    exception of [u]. *)
Definition simulates {A : Type} (Q : A -> Prop) (b u : outcome A) : Prop :=
  match b with
  | Ret a => u = Ret a /\ Q a
  | Raise e => e = RecursionError \/ u = Raise e
  | Timeout => u = Timeout
  end.

(** The frames that were there for a tree that a method returned. *)
Definition within (c frames : nat) (r : tree * Parser.obj) : Prop :=
  4 * group_depth (fst r) + c <= frames.

(** The exceptions [compile] can raise on the tree [t] on an unbounded
    stack. *)
Definition compile_raises (t : tree) (e : exn) : Prop :=
  e = AttributeError
  \/ exists ty,
       e = Unknown_node_type ty /\ In ty (tags t)
       /\ tag_in ty compile_tags = false.

(** ** The round trip *)

(** Syntactic closure on the pattern [p] when [frames] frames may be
    pushed: if [tokenize] and [parse] succeed on [p], then [compile]
    succeeds on the tree, and [tokenize] and [parse] succeed on its
    text. *)
Definition roundtrip (frames : nat) (isalnum_non_ascii : char -> bool)
  (p : str) : Prop :=
  forall toks t,
    Limit.tokenize isalnum_non_ascii frames p = Ret toks ->
    Limit.parse frames toks = Ret t ->
    exists out toks' t',
      Limit.compile frames t = Ret out
      /\ Limit.tokenize isalnum_non_ascii frames out = Ret toks'
      /\ Limit.parse frames toks' = Ret t'.

(** * List facts *)

Section ListFacts.

Context {A : Type}.

Lemma skipn_cons_inv (l : list A) : forall p c r,
  skipn p l = c :: r -> nth_error l p = Some c /\ skipn (p + 1) l = r.
Proof.
  induction l as [|x l IH]; intros [|p] c r H; simpl in *; try discriminate.
  - injection H as -> ->. split; reflexivity.
  - apply IH in H. exact H.
Qed.

Lemma nth_error_skipn_cons (l : list A) : forall p c,
  nth_error l p = Some c -> skipn p l = c :: skipn (p + 1) l.
Proof.
  induction l as [|x l IH]; intros [|p] c H; simpl in *; try discriminate.
  - injection H as ->. reflexivity.
  - apply IH. exact H.
Qed.

Lemma nth_error_None_skipn (l : list A) p :
  nth_error l p = None -> skipn p l = [].
Proof.
  intros H. apply nth_error_None in H. apply skipn_all2. exact H.
Qed.

Lemma skipn_nil_nth_error (l : list A) p :
  skipn p l = [] -> nth_error l p = None.
Proof.
  intros H. destruct (nth_error l p) eqn:E; [|reflexivity].
  apply nth_error_skipn_cons in E. congruence.
Qed.

End ListFacts.

(** * The tokenizer *)

Lemma before_from stop l : l = before stop l ++ from stop l.
Proof.
  induction l as [|c r IH]; simpl; [reflexivity|].
  destruct (c =? stop)%N; simpl; [reflexivity | f_equal; exact IH].
Qed.

Lemma before_no_stop stop l : ~ In stop (before stop l).
Proof.
  induction l as [|c r IH]; simpl; [tauto|].
  destruct (N.eqb_spec c stop); simpl; [tauto|]. intros [H|H]; tauto.
Qed.


Lemma skipn_before stop l : skipn (length (before stop l)) l = from stop l.
Proof.
  induction l as [|c r IH]; simpl; [reflexivity|].
  destruct (c =? stop)%N; simpl; [reflexivity | exact IH].
Qed.

Lemma before_app stop body r :
  ~ In stop body -> before stop (body ++ stop :: r) = body.
Proof.
  induction body as [|c body IH]; simpl; intros H.
  - rewrite N.eqb_refl. reflexivity.
  - destruct (N.eqb_spec c stop); [tauto|]. f_equal. apply IH. tauto.
Qed.


Lemma chars_left_cons self c r :
  chars_left self = c :: r ->
  nth_error (Tokenizer.regex self) (Tokenizer.pos self) = Some c
  /\ chars_left (Tokenizer.set_pos self (Tokenizer.pos self + 1)) = r.
Proof. apply skipn_cons_inv. Qed.

Lemma chars_left_nil self :
  chars_left self = [] ->
  nth_error (Tokenizer.regex self) (Tokenizer.pos self) = None.
Proof. apply skipn_nil_nth_error. Qed.

Lemma chars_left_set_pos self n :
  chars_left (Tokenizer.set_pos self (Tokenizer.pos self + n))
  = skipn n (chars_left self).
Proof.
  unfold chars_left; simpl. rewrite skipn_skipn. f_equal. lia.
Qed.

Lemma chars_left_length self :
  length (chars_left self) <= length (Tokenizer.regex self).
Proof. unfold chars_left. rewrite length_skipn. lia. Qed.

Lemma set_pos_same self : Tokenizer.set_pos self (Tokenizer.pos self) = self.
Proof. destruct self; reflexivity. Qed.

(** The scanning loop stops at the first [stop] or at the end of the
    string, and has accumulated what it passed. *)
Lemma scan_until_spec stop : forall fuel self acc,
  length (chars_left self) < fuel ->
  Tokenizer.scan_until stop fuel self acc
  = Ret (acc ++ before stop (chars_left self),
         Tokenizer.set_pos self
           (Tokenizer.pos self + length (before stop (chars_left self)))).
Proof.
  induction fuel as [|fuel IH]; intros self acc Hf; [lia|].
  simpl. destruct (chars_left self) as [|c r] eqn:E.
  - rewrite (chars_left_nil _ E). simpl.
    rewrite app_nil_r, Nat.add_0_r, set_pos_same. reflexivity.
  - destruct (chars_left_cons _ _ _ E) as [Hn Hr]. rewrite Hn. simpl.
    destruct (c =? stop)%N; simpl.
    + rewrite app_nil_r, Nat.add_0_r, set_pos_same. reflexivity.
    + rewrite IH by (rewrite Hr; simpl in Hf; lia).
      rewrite Hr, <- app_assoc. simpl. do 2 f_equal.
      unfold Tokenizer.set_pos; simpl. f_equal. lia.
Qed.

Lemma stopped_at_spec stop self :
  Tokenizer.stopped_at stop self
  = match chars_left self with
    | c :: _ => (c =? stop)%N
    | [] => false
    end.
Proof.
  unfold Tokenizer.stopped_at. destruct (chars_left self) as [|c r] eqn:E.
  - rewrite (chars_left_nil _ E). reflexivity.
  - destruct (chars_left_cons _ _ _ E) as [-> _]. reflexivity.
Qed.

Section TokenizerFacts.

Variable isalnum_non_ascii : char -> bool.

Local Abbreviation get_next_token := (Tokenizer.get_next_token isalnum_non_ascii).
Local Abbreviation tokenize_loop := (Tokenizer.tokenize_loop isalnum_non_ascii).
Local Abbreviation tokenize := (Tokenizer.tokenize isalnum_non_ascii).
Local Abbreviation lexeme_of := (lexeme_of isalnum_non_ascii).
Local Abbreviation lexes := (lexes isalnum_non_ascii).

Local Arguments Tokenizer.scan_until : simpl never.
Local Arguments Tokenizer.stopped_at : simpl never.

Lemma lexeme_of_nonempty tok lx : lexeme_of tok lx -> 0 < length lx.
Proof. intros H; destruct H; simpl; lia. Qed.

(** A scan that starts before [body ++ stop :: r] collects [body] and stops
    on [stop]. *)
Lemma scan_until_body stop self acc body r :
  chars_left self = body ++ stop :: r ->
  ~ In stop body ->
  exists self',
    Tokenizer.scan_until stop (S (length (Tokenizer.regex self))) self acc
    = Ret (acc ++ body, self')
    /\ Tokenizer.stopped_at stop self' = true
    /\ chars_left (Tokenizer.set_pos self' (Tokenizer.pos self' + 1)) = r
    /\ Tokenizer.regex self' = Tokenizer.regex self.
Proof.
  intros E Hb. eexists. split; [|split; [|split]].
  - rewrite scan_until_spec by (pose proof (chars_left_length self); lia).
    rewrite E, before_app by exact Hb. reflexivity.
  - rewrite stopped_at_spec, chars_left_set_pos, E.
    rewrite skipn_app, skipn_all, Nat.sub_diag. simpl.
    apply N.eqb_refl.
  - unfold chars_left in *. simpl.
    replace (Tokenizer.pos self + length body + 1)
      with ((length body + 1) + Tokenizer.pos self) by lia.
    rewrite <- skipn_skipn, E, skipn_app.
    replace (length body + 1 - length body) with 1 by lia.
    rewrite skipn_all2 by lia. reflexivity.
  - reflexivity.
Qed.

(** Reading one lexeme: [get_next_token] returns its token and leaves the
    cursor behind it. *)
Lemma get_next_token_complete tok lx :
  lexeme_of tok lx ->
  forall self r,
    chars_left self = lx ++ r ->
    exists self',
      get_next_token self = Ret (Some tok, self')
      /\ chars_left self' = r
      /\ Tokenizer.regex self' = Tokenizer.regex self.
Proof.
  intros H; destruct H; intros self r E; simpl in E;
    destruct (chars_left_cons _ _ _ E) as [Hn Hr];
    unfold Tokenizer.get_next_token; rewrite Hn.
  - unfold char_branch in H. rewrite H. simpl. eauto.
  - simpl. destruct (chars_left_cons _ _ _ Hr) as [Hn2 Hr2].
    simpl in Hn2. rewrite Hn2. simpl. eauto.
  - simpl. eauto.
  - simpl. eauto.
  - simpl. eauto.
  - simpl. eauto.
  - simpl. rewrite <- app_assoc in Hr.
    destruct (scan_until_body (ord "]") _ [] body r Hr H)
      as (self' & Hs & Hstop & Hleft & Hreg).
    simpl in Hs, Hstop. rewrite Hs. simpl. rewrite Hstop. simpl. eauto.
  - simpl. rewrite <- app_assoc in Hr.
    destruct (scan_until_body (ord "}") _ [ord "{"] body r Hr H)
      as (self' & Hs & Hstop & Hleft & Hreg).
    simpl in Hs, Hstop. rewrite Hs. simpl. rewrite Hstop. simpl. eauto.
  - simpl. eauto.
  - simpl. eauto.
Qed.

Lemma scan_until_result stop self acc :
  exists self',
    Tokenizer.scan_until stop (S (length (Tokenizer.regex self))) self acc
    = Ret (acc ++ before stop (chars_left self), self')
    /\ chars_left self' = from stop (chars_left self)
    /\ Tokenizer.regex self' = Tokenizer.regex self.
Proof.
  eexists. split; [|split].
  - apply scan_until_spec. pose proof (chars_left_length self). lia.
  - rewrite chars_left_set_pos. apply skipn_before.
  - reflexivity.
Qed.

(** Whatever [get_next_token] returns is the token of a lexeme that starts
    at the cursor, and the cursor moves behind that lexeme. *)
Lemma get_next_token_sound self tok self' :
  get_next_token self = Ret (Some tok, self') ->
  exists lx,
    lexeme_of tok lx
    /\ chars_left self = lx ++ chars_left self'
    /\ Tokenizer.regex self' = Tokenizer.regex self.
Proof.
  unfold Tokenizer.get_next_token.
  destruct (nth_error _ _) as [c|] eqn:Hn; [|discriminate].
  apply nth_error_skipn_cons in Hn. fold (chars_left self) in Hn.
  change (skipn (Tokenizer.pos self + 1) (Tokenizer.regex self))
    with (chars_left (Tokenizer.set_pos self (Tokenizer.pos self + 1))) in Hn.
  destruct (_ || _) eqn:Hc.
  { simpl. intros H; injection H as <- <-. exists [c].
    split; [apply lx_CHAR; exact Hc|]. split; [exact Hn | reflexivity]. }
  destruct (N.eqb_spec c (ord "\")) as [->|_].
  { simpl. destruct (nth_error _ _) as [n|] eqn:Hn2; [|discriminate].
    apply nth_error_skipn_cons in Hn2.
    simpl. intros H; injection H as <- <-. exists (py "\" ++ [n]).
    split; [apply lx_ESCAPED_CHAR|]. split; [|reflexivity].
    rewrite Hn. unfold chars_left at 1. simpl. rewrite Hn2. reflexivity. }
  destruct (N.eqb_spec c (ord "*")) as [->|_].
  { simpl. intros H; injection H as <- <-. exists (py "*").
    split; [apply lx_STAR|]. split; [exact Hn | reflexivity]. }
  destruct (N.eqb_spec c (ord "|")) as [->|_].
  { simpl. intros H; injection H as <- <-. exists (py "|").
    split; [apply lx_ALT|]. split; [exact Hn | reflexivity]. }
  destruct (N.eqb_spec c (ord ".")) as [->|_].
  { discriminate Hc. }
  destruct (N.eqb_spec c (ord "^")) as [->|_].
  { simpl. intros H; injection H as <- <-. exists (py "^").
    split; [apply lx_START|]. split; [exact Hn | reflexivity]. }
  destruct (N.eqb_spec c (ord "$")) as [->|_].
  { simpl. intros H; injection H as <- <-. exists (py "$").
    split; [apply lx_END|]. split; [exact Hn | reflexivity]. }
  destruct (N.eqb_spec c (ord "[")) as [->|_].
  { destruct (scan_until_result (ord "]")
                (Tokenizer.set_pos self (Tokenizer.pos self + 1)) [])
      as (s2 & Hs & Hl & Hreg).
    cbv zeta. rewrite Hs. cbn [bind]. rewrite stopped_at_spec, Hl.
    destruct (from _ _) as [|c' r'] eqn:Hf; [discriminate|].
    destruct (N.eqb_spec c' (ord "]")) as [->|_]; [|discriminate].
    cbn [bind app]. intros H; injection H as <- <-.
    eexists. split; [apply lx_CLASS; apply before_no_stop|].
    split; [|exact Hreg].
    rewrite Hn, (chars_left_set_pos s2 1), Hl.
    rewrite (before_from (ord "]") (chars_left _)) at 1. rewrite Hf.
    simpl. rewrite <- app_assoc. reflexivity. }
  destruct (N.eqb_spec c (ord "{")) as [->|_].
  { destruct (scan_until_result (ord "}")
                (Tokenizer.set_pos self (Tokenizer.pos self + 1)) [ord "{"])
      as (s2 & Hs & Hl & Hreg).
    cbv zeta. rewrite Hs. cbn [bind]. rewrite stopped_at_spec, Hl.
    destruct (from _ _) as [|c' r'] eqn:Hf; [discriminate|].
    destruct (N.eqb_spec c' (ord "}")) as [->|_]; [|discriminate].
    cbn [bind]. intros H; injection H as <- <-.
    exists (py "{" ++ before (ord "}") (chars_left
              (Tokenizer.set_pos self (Tokenizer.pos self + 1))) ++ py "}").
    split; [apply lx_QUANT; apply before_no_stop|].
    split; [|exact Hreg].
    rewrite Hn, (chars_left_set_pos s2 1), Hl.
    rewrite (before_from (ord "}") (chars_left _)) at 1. rewrite Hf.
    simpl. rewrite <- app_assoc. reflexivity. }
  destruct (N.eqb_spec c (ord "(")) as [->|_].
  { simpl. intros H; injection H as <- <-. exists (py "(").
    split; [apply lx_LPAREN|]. split; [exact Hn | reflexivity]. }
  destruct (N.eqb_spec c (ord ")")) as [->|_].
  { simpl. intros H; injection H as <- <-. exists (py ")").
    split; [apply lx_RPAREN|]. split; [exact Hn | reflexivity]. }
  discriminate.
Qed.

Lemma get_next_token_None self self' :
  get_next_token self = Ret (None, self') -> chars_left self = [].
Proof.
  unfold Tokenizer.get_next_token.
  destruct (nth_error _ _) as [c|] eqn:Hn.
  - destruct (if _ : bool then _ else _) as [[tok s]| |]; discriminate.
  - intros _. apply nth_error_None_skipn. exact Hn.
Qed.

Lemma get_next_token_no_Timeout self : get_next_token self <> Timeout.
Proof.
  unfold Tokenizer.get_next_token.
  destruct (nth_error _ _) as [c|]; [|discriminate].
  destruct (_ || _); [discriminate|].
  destruct (c =? ord "\")%N.
  { cbv zeta. destruct (nth_error _ _); discriminate. }
  destruct (c =? ord "*")%N; [discriminate|].
  destruct (c =? ord "|")%N; [discriminate|].
  destruct (c =? ord ".")%N; [discriminate|].
  destruct (c =? ord "^")%N; [discriminate|].
  destruct (c =? ord "$")%N; [discriminate|].
  destruct (c =? ord "[")%N.
  { destruct (scan_until_result (ord "]")
                (Tokenizer.set_pos self (Tokenizer.pos self + 1)) [])
      as (s2 & Hs & _).
    cbv zeta. rewrite Hs. cbn [bind].
    destruct (Tokenizer.stopped_at _ _); discriminate. }
  destruct (c =? ord "{")%N.
  { destruct (scan_until_result (ord "}")
                (Tokenizer.set_pos self (Tokenizer.pos self + 1)) [ord "{"])
      as (s2 & Hs & _).
    cbv zeta. rewrite Hs. cbn [bind].
    destruct (Tokenizer.stopped_at _ _); discriminate. }
  destruct (c =? ord "(")%N; [discriminate|].
  destruct (c =? ord ")")%N; discriminate.
Qed.

Lemma in_range_spec self :
  (Tokenizer.pos self <? length (Tokenizer.regex self))%nat
  = match chars_left self with [] => false | _ :: _ => true end.
Proof.
  destruct (chars_left self) as [|c r] eqn:E.
  - apply chars_left_nil, nth_error_None in E. apply Nat.ltb_ge. exact E.
  - apply chars_left_cons in E. destruct E as [E _].
    apply Nat.ltb_lt, nth_error_Some. congruence.
Qed.

Lemma tokenize_loop_complete l ts :
  lexes l ts ->
  forall fuel self acc,
    chars_left self = l -> length l < fuel ->
    tokenize_loop fuel self acc = Ret (acc ++ ts).
Proof.
  induction 1 as [|tok lx r ts Hlx Hr IH]; intros [|fuel] self acc E Hf;
    try (simpl in Hf; lia); simpl; rewrite in_range_spec, E.
  - rewrite app_nil_r. reflexivity.
  - pose proof (lexeme_of_nonempty _ _ Hlx) as Hpos.
    destruct lx as [|c lx]; [simpl in Hpos; lia|]. simpl.
    destruct (get_next_token_complete _ _ Hlx self r E) as (s' & Hg & Hl & _).
    rewrite Hg. simpl. rewrite IH.
    + rewrite <- app_assoc. reflexivity.
    + exact Hl.
    + simpl in Hf. rewrite length_app in Hf. lia.
Qed.

Lemma tokenize_loop_sound : forall fuel self acc toks,
  tokenize_loop fuel self acc = Ret toks ->
  exists ts, toks = acc ++ ts /\ lexes (chars_left self) ts.
Proof.
  induction fuel as [|fuel IH]; intros self acc toks; simpl; [discriminate|].
  rewrite in_range_spec. destruct (chars_left self) as [|c r] eqn:E.
  - intros H; injection H as <-. exists []. rewrite app_nil_r.
    split; [reflexivity | constructor].
  - destruct (get_next_token self) as [[[tok|] s']| |] eqn:Hg;
      simpl; try discriminate.
    + intros H. apply IH in H. destruct H as (ts & -> & Hts).
      destruct (get_next_token_sound _ _ _ Hg) as (lx & Hlx & Hl & _).
      exists (tok :: ts). rewrite <- app_assoc. split; [reflexivity|].
      rewrite <- E, Hl. constructor; assumption.
    + apply get_next_token_None in Hg. congruence.
Qed.

Lemma tokenize_loop_no_Timeout : forall fuel self acc,
  length (chars_left self) < fuel ->
  tokenize_loop fuel self acc <> Timeout.
Proof.
  induction fuel as [|fuel IH]; intros self acc Hf; [lia|]. simpl.
  rewrite in_range_spec. destruct (chars_left self) as [|c r] eqn:E;
    [discriminate|].
  destruct (get_next_token self) as [[[tok|] s']| |] eqn:Hg; simpl;
    try discriminate.
  - apply IH.
    destruct (get_next_token_sound _ _ _ Hg) as (lx & Hlx & Hl & _).
    apply lexeme_of_nonempty in Hlx. rewrite <- E, Hl, length_app in Hf. lia.
  - apply get_next_token_None in Hg. congruence.
  - apply get_next_token_no_Timeout in Hg as [].
Qed.

(** [tokenize] accepts exactly the concatenations of lexemes, and answers
    with their tokens. *)
Lemma tokenize_sound s toks : tokenize s = Ret toks -> lexes s toks.
Proof.
  intros H. apply tokenize_loop_sound in H. destruct H as (ts & -> & H).
  exact H.
Qed.

Lemma tokenize_complete s toks : lexes s toks -> tokenize s = Ret toks.
Proof.
  intros H. unfold Tokenizer.tokenize.
  rewrite (tokenize_loop_complete _ _ H); [reflexivity | reflexivity |].
  simpl. lia.
Qed.

(** The fuel of [tokenize] is never exhausted. *)
Lemma tokenize_no_Timeout s : tokenize s <> Timeout.
Proof.
  apply tokenize_loop_no_Timeout. unfold chars_left. simpl. lia.
Qed.

End TokenizerFacts.

(** * The parser *)

Lemma cursor_ok_init toks : cursor_ok (Parser.init toks).
Proof. destruct toks; reflexivity. Qed.

Lemma tokens_left_init toks : tokens_left (Parser.init toks) = toks.
Proof. reflexivity. Qed.

Lemma cursor_ok_advance self : cursor_ok (Parser.advance self).
Proof.
  unfold cursor_ok, Parser.advance; simpl.
  destruct (Nat.ltb_spec (Parser.pos self + 1) (length (Parser.tokens self)))
    as [H|H]; [reflexivity|].
  symmetry. apply nth_error_None. exact H.
Qed.

Lemma cursor_head self :
  cursor_ok self -> Parser.current_token self = hd_error (tokens_left self).
Proof.
  unfold cursor_ok, tokens_left. intros ->.
  destruct (nth_error _ _) as [tok|] eqn:E.
  - apply nth_error_skipn_cons in E. rewrite E. reflexivity.
  - apply nth_error_None_skipn in E. rewrite E. reflexivity.
Qed.

Lemma tokens_left_advance self :
  tokens_left (Parser.advance self) = tl (tokens_left self).
Proof.
  unfold tokens_left; simpl.
  destruct (skipn (Parser.pos self) (Parser.tokens self)) as [|tok r] eqn:E.
  - apply skipn_nil_nth_error, nth_error_None in E.
    apply skipn_all2. lia.
  - apply skipn_cons_inv in E. apply E.
Qed.

Lemma current_Some self tok :
  cursor_ok self -> Parser.current_token self = Some tok ->
  tokens_left self = tok :: tokens_left (Parser.advance self).
Proof.
  intros Hc H. rewrite (cursor_head _ Hc) in H. rewrite tokens_left_advance.
  destruct (tokens_left self); simpl in *; congruence.
Qed.


Lemma post_weaken self (pre pre' : (Token -> Prop) -> Prop) n n' res :
  post self pre n res ->
  (forall P, Forall P (tokens_left self) -> pre' P -> pre P) -> n' <= n ->
  post self pre' n' res.
Proof.
  destruct res as [[t s']| |]; simpl; auto.
  intros (Hc & (used & Hu & Hn) & Ha) Hp Hle. split; [exact Hc|]. split.
  - exists used. split; [exact Hu | lia].
  - intros P HP Hpre. apply Ha; auto.
Qed.

Lemma post_bind self pre n n2 m (k : tree * Parser.obj -> outcome (tree * Parser.obj)) :
  post self pre n m ->
  (forall t1 s1, m = Ret (t1, s1) -> cursor_ok s1 ->
     post s1 (fun P => pre P /\ ast P t1) n2 (k (t1, s1))) ->
  post self pre (n + n2) (bind m k).
Proof.
  destruct m as [[t1 s1]| |]; simpl; auto.
  intros (Hc & (used & Hu & Hn) & Ha) Hk.
  specialize (Hk t1 s1 eq_refl Hc).
  destruct (k (t1, s1)) as [[t s']| |]; simpl in *; auto.
  destruct Hk as (Hc' & (used' & Hu' & Hn') & Ha').
  split; [exact Hc'|]. split.
  - exists (used ++ used'). rewrite <- app_assoc, <- Hu', length_app.
    split; [exact Hu | lia].
  - intros P HP Hpre. apply Ha'.
    + rewrite Hu in HP. apply Forall_app in HP. apply HP.
    + split; [exact Hpre | apply Ha; assumption].
Qed.

Lemma post_advance self pre n n' tok res :
  cursor_ok self -> Parser.current_token self = Some tok -> n' <= S n ->
  post (Parser.advance self) (fun P => pre P /\ P tok) n res ->
  post self pre n' res.
Proof.
  intros Hc Hcur Hle. apply (current_Some _ _ Hc) in Hcur.
  destruct res as [[t s']| |]; simpl; auto.
  intros (Hc' & (used & Hu & Hn) & Ha). split; [exact Hc'|]. split.
  - exists (tok :: used). simpl. rewrite <- Hu. split; [exact Hcur | lia].
  - intros P HP Hpre. rewrite Hcur in HP. inversion HP; subst.
    apply Ha; auto.
Qed.

Lemma post_Ret self (pre : (Token -> Prop) -> Prop) t :
  cursor_ok self ->
  (forall P, Forall P (tokens_left self) -> pre P -> ast P t) ->
  post self pre 0 (Ret (t, self)).
Proof.
  intros Hc Ha. simpl. split; [exact Hc|]. split; [|exact Ha].
  exists []. split; [reflexivity | simpl; lia].
Qed.

Local Arguments tag_in : simpl never.

Ltac post_loop_exit := apply post_Ret; [assumption | intros P _ H; exact H].

Lemma parser_post : forall fuel,
  (forall self, cursor_ok self ->
     post self (fun _ => True) 1 (Parser.regex fuel self))
  /\ (forall t0 self, cursor_ok self ->
        post self (fun P => ast P t0) 0 (Parser.regex_while fuel t0 self))
  /\ (forall self, cursor_ok self ->
        post self (fun _ => True) 1 (Parser.term fuel self))
  /\ (forall t0 self, cursor_ok self ->
        post self (fun P => ast P t0) 0 (Parser.term_while fuel t0 self))
  /\ (forall self, cursor_ok self ->
        post self (fun _ => True) 1 (Parser.factor fuel self))
  /\ (forall t0 self, cursor_ok self ->
        post self (fun P => ast P t0) 0 (Parser.factor_while fuel t0 self))
  /\ (forall self, cursor_ok self ->
        post self (fun _ => True) 1 (Parser.atom fuel self)).
Proof.
  induction fuel as [|fuel (IHr & IHrw & IHt & IHtw & IHf & IHfw & IHa)];
    [repeat split; intros; exact I|].
  split; [|split; [|split; [|split; [|split; [|split]]]]].
  - (* regex *)
    intros self Hc. simpl. apply (post_bind _ _ 1 0); [apply IHt; exact Hc|].
    intros t1 s1 _ Hc1. simpl.
    eapply post_weaken; [apply IHrw; exact Hc1 | | lia].
    intros P _ [_ H]; exact H.
  - (* regex_while *)
    intros t0 self Hc. simpl. unfold Parser.current_in.
    destruct (Parser.current_token self) as [tok|] eqn:Hcur;
      [|post_loop_exit].
    destruct (tag_in _ _); [|post_loop_exit].
    apply (post_advance _ _ 1 0 tok _ Hc Hcur); [lia|].
    apply (post_bind _ _ 1 0).
    + eapply post_weaken; [apply IHt, cursor_ok_advance | simpl; auto | lia].
    + intros r s2 _ Hc2. simpl.
      eapply post_weaken; [apply IHrw; exact Hc2 | | lia].
      intros P _ [[H0 _] Hr]. constructor; assumption.
  - (* term *)
    intros self Hc. simpl. apply (post_bind _ _ 1 0); [apply IHf; exact Hc|].
    intros t1 s1 _ Hc1. simpl.
    eapply post_weaken; [apply IHtw; exact Hc1 | | lia].
    intros P _ [_ H]; exact H.
  - (* term_while *)
    intros t0 self Hc. simpl. unfold Parser.current_in.
    destruct (Parser.current_token self) as [tok|] eqn:Hcur;
      [|post_loop_exit].
    destruct (tag_in _ _); [|post_loop_exit].
    apply (post_bind _ _ 0 0).
    + eapply post_weaken; [apply IHf; exact Hc | simpl; auto | lia].
    + intros r s2 _ Hc2. simpl.
      eapply post_weaken; [apply IHtw; exact Hc2 | | lia].
      intros P _ [H0 Hr]. constructor; assumption.
  - (* factor *)
    intros self Hc. simpl. apply (post_bind _ _ 1 0); [apply IHa; exact Hc|].
    intros t1 s1 _ Hc1. simpl.
    eapply post_weaken; [apply IHfw; exact Hc1 | | lia].
    intros P _ [_ H]; exact H.
  - (* factor_while *)
    intros t0 self Hc. simpl.
    destruct (Parser.current_token self) as [quant|] eqn:Hcur;
      [|post_loop_exit].
    destruct (tag_in _ _); [|post_loop_exit].
    destruct (type quant =? "STAR") eqn:Hstar.
    { apply (post_advance _ _ 0 0 quant _ Hc Hcur); [lia|].
      eapply post_weaken; [apply IHfw, cursor_ok_advance | | lia].
      intros P _ [H0 _]. constructor; assumption. }
    destruct (type quant =? "QUANT") eqn:Hquant.
    { apply String.eqb_eq in Hquant.
      apply (post_advance _ _ 0 0 quant _ Hc Hcur); [lia|].
      eapply post_weaken; [apply IHfw, cursor_ok_advance | | lia].
      intros P _ [H0 Hq]. constructor; assumption. }
    apply IHfw; exact Hc.
  - (* atom *)
    intros self Hc. simpl.
    destruct (Parser.current_token self) as [tok|] eqn:Hcur; [|exact I].
    destruct (tag_in (type tok) Parser.leaf_tags) eqn:Hleaf.
    { apply (post_advance _ _ 0 1 tok _ Hc Hcur); [lia|]. apply post_Ret.
      - apply cursor_ok_advance.
      - intros P _ [_ HP]. constructor; assumption. }
    destruct (type tok =? "LPAREN"); [|exact I].
    apply (post_advance _ _ 0 1 tok _ Hc Hcur); [lia|].
    apply (post_bind _ _ 0 0).
    + eapply post_weaken; [apply IHr, cursor_ok_advance | simpl; auto | lia].
    + intros node s1 _ Hc1. simpl.
      destruct (Parser.current_token s1) as [tok'|] eqn:Hcur'; [|exact I].
      destruct (negb _); [exact I|].
      apply (post_advance _ _ 0 0 tok' _ Hc1 Hcur'); [lia|].
      apply post_Ret; [apply cursor_ok_advance|].
      intros P _ [[_ Hn] _]. constructor; exact Hn.
Qed.

Lemma post_length self pre n t s' :
  post self pre n (Ret (t, s')) ->
  cursor_ok s' /\ length (tokens_left s') + n <= length (tokens_left self).
Proof.
  intros (Hc & (used & Hu & Hn) & _). split; [exact Hc|].
  rewrite Hu, length_app. lia.
Qed.

Lemma bind_no_Timeout {A B} (m : outcome A) (k : A -> outcome B) :
  m <> Timeout -> (forall a, m = Ret a -> k a <> Timeout) ->
  bind m k <> Timeout.
Proof.
  destruct m; simpl; intros H Hk; [apply Hk; reflexivity | discriminate | congruence].
Qed.

Lemma tag_in_STAR_QUANT ty :
  tag_in ty ["STAR"; "QUANT"] = true -> ty = "STAR" \/ ty = "QUANT".
Proof.
  unfold tag_in; simpl. rewrite orb_false_r. intros H.
  apply orb_true_iff in H. destruct H as [H|H]; apply String.eqb_eq in H; auto.
Qed.

(** The parser never exhausts four units of fuel per token left, plus
    four. *)
Lemma parser_no_Timeout : forall fuel,
  (forall self, cursor_ok self ->
     4 * length (tokens_left self) + 4 <= fuel ->
     Parser.regex fuel self <> Timeout)
  /\ (forall t0 self, cursor_ok self ->
        4 * length (tokens_left self) + 4 <= fuel ->
        Parser.regex_while fuel t0 self <> Timeout)
  /\ (forall self, cursor_ok self ->
        4 * length (tokens_left self) + 3 <= fuel ->
        Parser.term fuel self <> Timeout)
  /\ (forall t0 self, cursor_ok self ->
        4 * length (tokens_left self) + 3 <= fuel ->
        Parser.term_while fuel t0 self <> Timeout)
  /\ (forall self, cursor_ok self ->
        4 * length (tokens_left self) + 2 <= fuel ->
        Parser.factor fuel self <> Timeout)
  /\ (forall t0 self, cursor_ok self ->
        4 * length (tokens_left self) + 1 <= fuel ->
        Parser.factor_while fuel t0 self <> Timeout)
  /\ (forall self, cursor_ok self ->
        4 * length (tokens_left self) + 1 <= fuel ->
        Parser.atom fuel self <> Timeout).
Proof.
  induction fuel as [|fuel (IHr & IHrw & IHt & IHtw & IHf & IHfw & IHa)];
    [repeat split; intros; lia|].
  destruct (parser_post fuel) as (Pr & Prw & Pt & Ptw & Pf & Pfw & Pa).
  split; [|split; [|split; [|split; [|split; [|split]]]]].
  - (* regex *)
    intros self Hc Hf. simpl.
    apply bind_no_Timeout; [apply IHt; [exact Hc | lia]|].
    intros [t1 s1] E. specialize (Pt self Hc). rewrite E in Pt.
    apply post_length in Pt. destruct Pt as [Hc1 Hl].
    apply IHrw; [exact Hc1 | lia].
  - (* regex_while *)
    intros t0 self Hc Hf. simpl. unfold Parser.current_in.
    destruct (Parser.current_token self) as [tok|] eqn:Hcur; [|discriminate].
    destruct (tag_in _ _); [|discriminate].
    pose proof (current_Some _ _ Hc Hcur) as Hl0.
    rewrite Hl0 in Hf. simpl in Hf.
    pose proof (cursor_ok_advance self) as Hca.
    apply bind_no_Timeout; [apply IHt; [exact Hca | lia]|].
    intros [t1 s1] E. specialize (Pt _ Hca). rewrite E in Pt.
    apply post_length in Pt. destruct Pt as [Hc1 Hl].
    apply IHrw; [exact Hc1 | lia].
  - (* term *)
    intros self Hc Hf. simpl.
    apply bind_no_Timeout; [apply IHf; [exact Hc | lia]|].
    intros [t1 s1] E. specialize (Pf self Hc). rewrite E in Pf.
    apply post_length in Pf. destruct Pf as [Hc1 Hl].
    apply IHtw; [exact Hc1 | lia].
  - (* term_while *)
    intros t0 self Hc Hf. simpl. unfold Parser.current_in.
    destruct (Parser.current_token self) as [tok|] eqn:Hcur; [|discriminate].
    destruct (tag_in _ _); [|discriminate].
    apply bind_no_Timeout; [apply IHf; [exact Hc | lia]|].
    intros [t1 s1] E. specialize (Pf self Hc). rewrite E in Pf.
    apply post_length in Pf. destruct Pf as [Hc1 Hl].
    apply IHtw; [exact Hc1 | lia].
  - (* factor *)
    intros self Hc Hf. simpl.
    apply bind_no_Timeout; [apply IHa; [exact Hc | lia]|].
    intros [t1 s1] E. specialize (Pa self Hc). rewrite E in Pa.
    apply post_length in Pa. destruct Pa as [Hc1 Hl].
    apply IHfw; [exact Hc1 | lia].
  - (* factor_while *)
    intros t0 self Hc Hf. simpl.
    destruct (Parser.current_token self) as [quant|] eqn:Hcur; [|discriminate].
    destruct (tag_in _ _) eqn:Htag; [|discriminate].
    pose proof (current_Some _ _ Hc Hcur) as Hl0.
    rewrite Hl0 in Hf. simpl in Hf.
    pose proof (cursor_ok_advance self) as Hca.
    apply tag_in_STAR_QUANT in Htag.
    destruct Htag as [-> | ->]; simpl; (apply IHfw; [exact Hca | lia]).
  - (* atom *)
    intros self Hc Hf. simpl.
    destruct (Parser.current_token self) as [tok|] eqn:Hcur; [|discriminate].
    destruct (tag_in _ _); [discriminate|].
    destruct (type tok =? "LPAREN"); [|discriminate].
    pose proof (current_Some _ _ Hc Hcur) as Hl0.
    rewrite Hl0 in Hf. simpl in Hf.
    pose proof (cursor_ok_advance self) as Hca.
    apply bind_no_Timeout; [apply IHr; [exact Hca | lia]|].
    intros [t1 s1] E.
    destruct (Parser.current_token s1); [|discriminate].
    destruct (negb _); discriminate.
Qed.

(** [parse] always answers: the fuel it starts with is enough. *)
Lemma parse_no_Timeout toks : Parser.parse toks <> Timeout.
Proof.
  unfold Parser.parse, Parser.parse_from.
  apply bind_no_Timeout.
  - apply parser_no_Timeout; [apply cursor_ok_init|].
    rewrite tokens_left_init. lia.
  - intros [t s] _. discriminate.
Qed.

(** A tree that [parse] returns is a tree of the grammar over the tokens it
    was given. *)
Lemma parse_ast (P : Token -> Prop) toks t :
  Parser.parse toks = Ret t -> Forall P toks -> ast P t.
Proof.
  unfold Parser.parse, Parser.parse_from. intros H HP.
  destruct (Parser.regex _ _) as [[t' s']| |] eqn:E; simpl in H;
    try discriminate.
  injection H as ->.
  pose proof (proj1 (parser_post (4 * length toks + 4)) _
                (cursor_ok_init toks)) as Hp.
  rewrite E in Hp. destruct Hp as (_ & _ & Ha). apply Ha; [exact HP | exact I].
Qed.

(** ** The parser reads every sequence of the grammar *)

Lemma tag_in_In ty l : tag_in ty l = true -> In ty l.
Proof.
  unfold tag_in. intros H. apply existsb_exists in H.
  destruct H as (x & Hx & E). apply String.eqb_eq in E. subst. exact Hx.
Qed.

Lemma leaf_is_atom_start ty :
  tag_in ty Parser.leaf_tags = true -> tag_in ty Parser.atom_start = true.
Proof.
  intros H. apply tag_in_In in H. simpl in H.
  repeat (destruct H as [<-|H]; [reflexivity|]). destruct H.
Qed.

Lemma atom_start_not_postfix ty :
  tag_in ty Parser.atom_start = true -> tag_in ty ["STAR"; "QUANT"] = false.
Proof.
  intros H. apply tag_in_In in H. simpl in H.
  repeat (destruct H as [<-|H]; [reflexivity|]). destruct H.
Qed.

Lemma accepts_head lv l :
  accepts lv l ->
  exists tok l', l = tok :: l' /\ tag_in (type tok) Parser.atom_start = true.
Proof.
  induction 1 as [tok Hleaf | lp r rp Hlp Hrp _ _ | a ps _ IH _ | f _ IH
                 | f t _ IH _ _ | t _ IH | t alt r _ IH _ _ _].
  - exists tok, []. split; [reflexivity | apply leaf_is_atom_start, Hleaf].
  - exists lp, (r ++ [rp]). split; [reflexivity | rewrite Hlp; reflexivity].
  - destruct IH as (tok & l' & -> & H). exists tok, (l' ++ ps). auto.
  - exact IH.
  - destruct IH as (tok & l' & -> & H). exists tok, (l' ++ t). auto.
  - exact IH.
  - destruct IH as (tok & l' & -> & H). exists tok, (l' ++ alt :: r). auto.
Qed.

Lemma accepts_length lv l : accepts lv l -> 1 <= length l.
Proof.
  intros H. apply accepts_head in H. destruct H as (tok & l' & -> & _).
  simpl. lia.
Qed.

Lemma left_cons self tok r :
  cursor_ok self -> tokens_left self = tok :: r ->
  Parser.current_token self = Some tok
  /\ tokens_left (Parser.advance self) = r.
Proof.
  intros Hc E. split.
  - rewrite (cursor_head _ Hc), E. reflexivity.
  - rewrite tokens_left_advance, E. reflexivity.
Qed.

Lemma current_in_follows self tags :
  cursor_ok self -> follows tags (tokens_left self) ->
  Parser.current_in self tags = false.
Proof.
  intros Hc H. unfold Parser.current_in. rewrite (cursor_head _ Hc).
  destruct (tokens_left self); simpl in *; auto.
Qed.

Lemma lands_bind m (k : tree * Parser.obj -> outcome (tree * Parser.obj))
  t1 r1 t rest :
  lands m t1 r1 ->
  (forall s1, cursor_ok s1 -> tokens_left s1 = r1 ->
     lands (k (t1, s1)) t rest) ->
  lands (bind m k) t rest.
Proof.
  intros (s1 & -> & Hc & Hl) Hk. simpl. apply Hk; assumption.
Qed.

Lemma lands_Ret t self rest :
  cursor_ok self -> tokens_left self = rest -> lands (Ret (t, self)) t rest.
Proof. intros Hc Hl. exists self. auto. Qed.

(** The loop of [factor] wraps the tree once per postfix token, in the
    order of the tokens. *)
Lemma factor_while_fold ps rest :
  Forall is_postfix ps -> follows ["STAR"; "QUANT"] rest ->
  forall fuel t0 self,
    cursor_ok self -> tokens_left self = ps ++ rest ->
    length ps + 1 <= fuel ->
    lands (Parser.factor_while fuel t0 self) (fold_left wrap ps t0) rest.
Proof.
  intros Hps Hrest. induction Hps as [|q ps [Hq Hty] _ IH];
    intros [|fuel] t0 self Hc Hl Hf; try lia; simpl in *.
  - destruct (Parser.current_token self) as [tok|] eqn:Hcur.
    + apply (current_Some _ _ Hc) in Hcur. rewrite Hl in Hcur.
      rewrite Hcur in Hrest. simpl in Hrest. rewrite Hrest.
      apply lands_Ret; [exact Hc | congruence].
    + apply lands_Ret; assumption.
  - destruct (left_cons _ _ _ Hc Hl) as [Hcur Hl']. rewrite Hcur, Hq.
    unfold wrap at 2.
    destruct Hty as [Hty|Hty]; rewrite Hty; simpl;
      (apply IH; [apply cursor_ok_advance | exact Hl' | lia]).
Qed.


Lemma follows_atom_start lv l rest :
  accepts lv l -> follows ["STAR"; "QUANT"] (l ++ rest).
Proof.
  intros H. apply accepts_head in H. destruct H as (tok & l' & -> & H).
  simpl. apply atom_start_not_postfix, H.
Qed.

Lemma current_in_atom_start lv l rest self :
  accepts lv l -> cursor_ok self -> tokens_left self = l ++ rest ->
  Parser.current_in self Parser.atom_start = true.
Proof.
  intros H Hc Hl. apply accepts_head in H. destruct H as (tok & l' & -> & H).
  unfold Parser.current_in. rewrite (cursor_head _ Hc), Hl. exact H.
Qed.

Lemma ends_term_ALT alt l : type alt = "ALT" -> ends_term (alt :: l).
Proof. intros H. split; simpl; rewrite H; reflexivity. Qed.

Lemma ends_regex_RPAREN rp l : type rp = "RPAREN" -> ends_regex (rp :: l).
Proof. intros H. repeat split; simpl; rewrite H; reflexivity. Qed.

Lemma parser_complete lv l : accepts lv l -> completes lv l.
Proof.
  induction 1 as [tok Hleaf | lp r rp Hlp Hrp Hr (tr & kr & IHr & _)
                 | a ps Ha [ta IHa] Hps
                 | f Hf [tf IHf] | f t Hf [tf IHf] Ht (tt & kt & IHt & IHtw)
                 | t Ht (tt & kt & IHt & IHtw)
                 | t alt r Ht (tt & kt & IHt & _) Halt Hr (tr & kr & IHr & IHrw)];
    simpl completes in *.
  - (* a leaf token *)
    exists (Tok tok).
    intros [|fuel] self rest Hc Hl Hfuel; [simpl in Hfuel; lia|].
    destruct (left_cons _ _ _ Hc Hl) as [Hcur Hl']. simpl.
    rewrite Hcur, Hleaf. apply lands_Ret; [apply cursor_ok_advance | exact Hl'].
  - (* a group *)
    exists (Node "GROUP" tr PyNone).
    intros [|fuel] self rest Hc Hl Hfuel; [simpl in Hfuel; lia|].
    simpl in Hl. rewrite <- app_assoc in Hl.
    destruct (left_cons _ _ _ Hc Hl) as [Hcur Hl']. simpl.
    rewrite Hcur, Hlp. simpl.
    apply (lands_bind _ _ tr ([rp] ++ rest)).
    + apply IHr; [apply cursor_ok_advance | exact Hl'
                 | apply ends_regex_RPAREN, Hrp|].
      simpl in Hfuel. rewrite length_app in Hfuel. simpl in Hfuel. lia.
    + intros s1 Hc1 Hl1. simpl.
      destruct (left_cons _ _ _ Hc1 Hl1) as [Hcur1 Hl1'].
      rewrite Hcur1, Hrp. simpl.
      apply lands_Ret; [apply cursor_ok_advance | exact Hl1'].
  - (* an atom and its postfix operators *)
    exists (fold_left wrap ps ta).
    intros [|fuel] self rest Hc Hl Hrest Hfuel; [lia|].
    rewrite <- app_assoc in Hl. rewrite length_app in Hfuel.
    pose proof (accepts_length _ _ Ha) as Hlen. simpl.
    apply (lands_bind _ _ ta (ps ++ rest)).
    + apply IHa; [exact Hc | exact Hl | lia].
    + intros s1 Hc1 Hl1. simpl.
      apply (factor_while_fold ps rest Hps Hrest); [exact Hc1 | exact Hl1 | lia].
  - (* a term of one factor *)
    exists tf, (fun t0 => Node "CONCAT" t0 tf). split.
    + intros [|fuel] self rest Hc Hl [Hpost Hstart] Hfuel; [lia|]. simpl.
      apply (lands_bind _ _ tf rest).
      * apply IHf; [exact Hc | exact Hl | exact Hpost | lia].
      * intros s1 Hc1 Hl1. simpl.
        destruct fuel as [|fuel]; [lia|]. simpl.
        rewrite current_in_follows by (try rewrite Hl1; assumption).
        apply lands_Ret; assumption.
    + intros [|fuel] t0 self rest Hc Hl [Hpost Hstart] Hfuel; [lia|]. simpl.
      rewrite (current_in_atom_start _ _ _ _ Hf Hc Hl).
      apply (lands_bind _ _ tf rest).
      * apply IHf; [exact Hc | exact Hl | exact Hpost | lia].
      * intros s1 Hc1 Hl1. simpl.
        destruct fuel as [|fuel]; [lia|]. simpl.
        rewrite current_in_follows by (try rewrite Hl1; assumption).
        apply lands_Ret; assumption.
  - (* a term of several factors *)
    exists (kt tf), (fun t0 => kt (Node "CONCAT" t0 tf)).
    rewrite length_app in *. pose proof (accepts_length _ _ Hf) as Hlen.
    split.
    + intros [|fuel] self rest Hc Hl Hrest Hfuel; [lia|]. simpl.
      rewrite <- app_assoc in Hl.
      apply (lands_bind _ _ tf (t ++ rest)).
      * apply IHf; [exact Hc | exact Hl | apply (follows_atom_start _ _ _ Ht) | lia].
      * intros s1 Hc1 Hl1. simpl.
        apply IHtw; [exact Hc1 | exact Hl1 | exact Hrest | lia].
    + intros [|fuel] t0 self rest Hc Hl Hrest Hfuel; [lia|]. simpl.
      rewrite <- app_assoc in Hl.
      rewrite (current_in_atom_start _ _ _ _ Hf Hc Hl).
      apply (lands_bind _ _ tf (t ++ rest)).
      * apply IHf; [exact Hc | exact Hl | apply (follows_atom_start _ _ _ Ht) | lia].
      * intros s1 Hc1 Hl1. simpl.
        apply IHtw; [exact Hc1 | exact Hl1 | exact Hrest | lia].
  - (* a regex of one term *)
    exists tt, (fun t0 => Node "ALT" t0 tt). split.
    + intros [|fuel] self rest Hc Hl [Hterm Halt] Hfuel; [lia|]. simpl.
      apply (lands_bind _ _ tt rest).
      * apply IHt; [exact Hc | exact Hl | exact Hterm | lia].
      * intros s1 Hc1 Hl1. simpl.
        destruct fuel as [|fuel]; [lia|]. simpl.
        rewrite current_in_follows by (try rewrite Hl1; assumption).
        apply lands_Ret; assumption.
    + intros [|fuel] t0 self alt rest Hc Hl Halt [Hterm Hnoalt] Hfuel; [lia|].
      destruct (left_cons _ _ _ Hc Hl) as [Hcur Hl']. simpl.
      unfold Parser.current_in at 1. rewrite Hcur, Halt. simpl.
      apply (lands_bind _ _ tt rest).
      * apply IHt; [apply cursor_ok_advance | exact Hl' | exact Hterm | lia].
      * intros s1 Hc1 Hl1. simpl.
        destruct fuel as [|fuel]; [lia|]. simpl.
        rewrite current_in_follows by (try rewrite Hl1; assumption).
        apply lands_Ret; assumption.
  - (* a regex of several terms *)
    exists (kr tt), (fun t0 => kr (Node "ALT" t0 tt)).
    rewrite length_app in *. simpl length in *.
    split.
    + intros [|fuel] self rest Hc Hl Hrest Hfuel; [lia|]. simpl.
      rewrite <- app_assoc in Hl. simpl in Hl.
      apply (lands_bind _ _ tt (alt :: r ++ rest)).
      * apply IHt; [exact Hc | exact Hl | apply ends_term_ALT, Halt | lia].
      * intros s1 Hc1 Hl1. simpl.
        apply (IHrw _ _ _ alt); [exact Hc1 | exact Hl1 | exact Halt | exact Hrest | lia].
    + intros [|fuel] t0 self alt0 rest Hc Hl Halt0 Hrest Hfuel; [lia|].
      destruct (left_cons _ _ _ Hc Hl) as [Hcur Hl']. simpl.
      unfold Parser.current_in at 1. rewrite Hcur, Halt0. simpl.
      rewrite <- app_assoc in Hl'. simpl in Hl'.
      apply (lands_bind _ _ tt (alt :: r ++ rest)).
      * apply IHt; [apply cursor_ok_advance | exact Hl'
                   | apply ends_term_ALT, Halt | lia].
      * intros s1 Hc1 Hl1. simpl.
        apply (IHrw _ _ _ alt); [exact Hc1 | exact Hl1 | exact Halt | exact Hrest | lia].
Qed.

(** [parse] accepts every sequence the grammar derives, and what follows
    the sequence and cannot extend it does not change the tree. *)
Lemma parse_prefix l :
  accepts Regex l ->
  exists t, forall rest, ends_regex rest -> Parser.parse (l ++ rest) = Ret t.
Proof.
  intros H. apply parser_complete in H. destruct H as (t & _ & H & _).
  exists t. intros rest Hrest.
  destruct (H (4 * length (l ++ rest) + 4) (Parser.init (l ++ rest)) rest)
    as (s & E & _).
  - apply cursor_ok_init.
  - apply tokens_left_init.
  - exact Hrest.
  - rewrite length_app. lia.
  - unfold Parser.parse, Parser.parse_from. rewrite E. reflexivity.
Qed.

Lemma ends_regex_nil : ends_regex [].
Proof. repeat split. Qed.

Lemma parse_complete l :
  accepts Regex l -> exists t, Parser.parse l = Ret t.
Proof.
  intros H. destruct (parse_prefix _ H) as [t Ht]. exists t.
  rewrite <- (app_nil_r l). apply Ht, ends_regex_nil.
Qed.

(** * The serializer *)

Lemma accepts_atom_factor a : accepts Atom a -> accepts Factor a.
Proof.
  intros H. rewrite <- (app_nil_r a). apply acc_factor; [exact H | constructor].
Qed.

Lemma accepts_atom_term a : accepts Atom a -> accepts Term a.
Proof. intros H. apply acc_term_one, accepts_atom_factor, H. Qed.

Lemma accepts_factor_postfix f q :
  accepts Factor f -> is_postfix q -> accepts Factor (f ++ [q]).
Proof.
  intros H Hq. inversion H as [| |a ps Ha Hps| | | |]; subst.
  rewrite <- app_assoc. apply acc_factor; [exact Ha|].
  apply Forall_app. split; [exact Hps | constructor; [exact Hq | constructor]].
Qed.

Lemma accepts_term_postfix l q :
  accepts Term l -> is_postfix q -> accepts Term (l ++ [q]).
Proof.
  intros H Hq. remember Term as lv eqn:E.
  induction H as [| | |f Hf _|f t Hf _ Ht IH| |]; try discriminate.
  - apply acc_term_one, accepts_factor_postfix; assumption.
  - rewrite <- app_assoc. apply acc_term_more; [exact Hf | apply IH; exact E].
Qed.

Lemma accepts_term_app a b :
  accepts Term a -> accepts Term b -> accepts Term (a ++ b).
Proof.
  intros H Hb. remember Term as lv eqn:E.
  induction H as [| | |f Hf _|f t Hf _ Ht IH| |]; try discriminate.
  - apply acc_term_more; assumption.
  - rewrite <- app_assoc. apply acc_term_more; [exact Hf | apply IH; assumption].
Qed.

Lemma accepts_group r :
  accepts Regex r -> accepts Atom (LPAREN_token :: r ++ [RPAREN_token]).
Proof. intros H. apply acc_group; [reflexivity | reflexivity | exact H]. Qed.

Lemma is_postfix_STAR : is_postfix STAR_token.
Proof. split; [reflexivity | left; reflexivity]. Qed.

Lemma is_postfix_QUANT q : type q = "QUANT" -> is_postfix q.
Proof. intros H. split; [rewrite H; reflexivity | right; exact H]. Qed.

(** [compile] is defined on every tree of the parser. *)
Lemma compile_ast_total P t : ast P t -> exists out, compile t = Ret out.
Proof.
  induction 1 as [tok Hleaf _ | x _ [ox IHx] | x _ [ox IHx]
                 | x q _ [ox IHx] Hq _ | l r _ [ol IHl] _ [or IHr]
                 | l r _ [ol IHl] _ [or IHr]].
  - apply tag_in_In in Hleaf. simpl in Hleaf.
    repeat (destruct Hleaf as [E|Hleaf];
            [simpl; rewrite <- E; simpl; eexists; reflexivity|]).
    destruct Hleaf.
  - simpl. rewrite IHx. simpl. eauto.
  - simpl. rewrite IHx. simpl. eauto.
  - simpl. rewrite IHx. simpl. eauto.
  - simpl. rewrite IHl, IHr. simpl. eauto.
  - simpl. rewrite IHl, IHr. simpl. eauto.
Qed.

Section SerializerFacts.

Variable isalnum_non_ascii : char -> bool.

Local Abbreviation lexeme_of := (lexeme_of isalnum_non_ascii).
Local Abbreviation lexes := (lexes isalnum_non_ascii).
Local Abbreviation good_token := (good_token isalnum_non_ascii).

Lemma lexes_one tok lx : lexeme_of tok lx -> lexes lx [tok].
Proof.
  intros H. rewrite <- (app_nil_r lx). constructor; [exact H | constructor].
Qed.

Lemma lexes_app a ta b tb :
  lexes a ta -> lexes b tb -> lexes (a ++ b) (ta ++ tb).
Proof.
  induction 1 as [|tok lx r ts Hlx _ IH]; intros Hb; [exact Hb|].
  rewrite <- app_assoc. simpl. constructor; [exact Hlx | apply IH, Hb].
Qed.

Lemma lexes_good s toks : lexes s toks -> Forall good_token toks.
Proof.
  induction 1 as [|tok lx r ts Hlx _ IH]; constructor;
    [exists lx; exact Hlx | exact IH].
Qed.

Lemma lexes_LPAREN : lexes (py "(") [LPAREN_token].
Proof. apply lexes_one, lx_LPAREN. Qed.

Lemma lexes_RPAREN : lexes (py ")") [RPAREN_token].
Proof. apply lexes_one, lx_RPAREN. Qed.

Lemma lexes_STAR : lexes (py "*") [STAR_token].
Proof. apply lexes_one, lx_STAR. Qed.

Lemma lexes_ALT : lexes (py "|") [ALT_token].
Proof. apply lexes_one, lx_ALT. Qed.

(** What [compile] writes for a leaf is the lexeme of its token. *)
Lemma compile_leaf tok lx :
  tag_in (type tok) Parser.leaf_tags = true -> lexeme_of tok lx ->
  compile (Tok tok) = Ret lx.
Proof.
  intros Hleaf H. destruct H; try discriminate Hleaf; reflexivity.
Qed.

Lemma QUANT_lexeme q lx :
  type q = "QUANT" -> lexeme_of q lx -> lx = value q.
Proof. intros Hq H. destruct H; try discriminate Hq; reflexivity. Qed.

(** The text [compile] writes for a tree of the parser is made of the
    lexemes of [tokens_of], and [tokens_of] is a term of the grammar. *)
Lemma compile_ast t :
  ast good_token t ->
  exists out,
    compile t = Ret out
    /\ lexes out (tokens_of t)
    /\ accepts Term (tokens_of t).
Proof.
  induction 1 as [tok Hleaf [lx Hlx]
                 | x _ (ox & Ex & Lx & Ax) | x _ (ox & Ex & Lx & Ax)
                 | x q _ (ox & Ex & Lx & Ax) Hq [lq Hlq]
                 | l r _ (ol & El & Ll & Al) _ (or & Er & Lr & Ar)
                 | l r _ (ol & El & Ll & Al) _ (or & Er & Lr & Ar)].
  - exists lx. split; [apply compile_leaf; assumption|].
    split; [apply lexes_one, Hlx | apply accepts_atom_term, acc_leaf, Hleaf].
  - exists (py "(" ++ ox ++ py ")"). simpl compile. rewrite Ex.
    split; [reflexivity|]. split.
    + apply (lexes_app _ [_] _ _ lexes_LPAREN).
      apply (lexes_app _ _ _ _ Lx lexes_RPAREN).
    + apply accepts_atom_term, accepts_group, acc_regex_one, Ax.
  - exists (py "(" ++ ox ++ py ")*"). simpl compile. rewrite Ex.
    split; [reflexivity|]. split.
    + apply (lexes_app _ [_] _ _ lexes_LPAREN).
      apply (lexes_app _ _ _ _ Lx).
      apply (lexes_app _ [_] _ _ lexes_RPAREN lexes_STAR).
    + simpl tokens_of.
      change (LPAREN_token :: tokens_of x ++ [RPAREN_token; STAR_token])
        with ((LPAREN_token :: tokens_of x ++ [RPAREN_token] ++ [STAR_token])).
      rewrite app_assoc.
      apply acc_term_one.
      apply (accepts_factor_postfix (LPAREN_token :: _ ++ [RPAREN_token])).
      * apply accepts_atom_factor, accepts_group, acc_regex_one, Ax.
      * apply is_postfix_STAR.
  - exists (ox ++ value q). simpl compile. rewrite Ex.
    split; [reflexivity|]. split.
    + apply (lexes_app _ _ _ _ Lx). simpl.
      rewrite <- (QUANT_lexeme _ _ Hq Hlq). apply lexes_one, Hlq.
    + apply accepts_term_postfix; [exact Ax | apply is_postfix_QUANT, Hq].
  - exists (ol ++ or). simpl compile. rewrite El, Er.
    split; [reflexivity|]. split.
    + apply lexes_app; assumption.
    + apply accepts_term_app; assumption.
  - exists (py "(" ++ ol ++ py "|" ++ or ++ py ")"). simpl compile.
    rewrite El, Er. split; [reflexivity|]. split.
    + apply (lexes_app _ [_] _ _ lexes_LPAREN).
      apply (lexes_app _ _ _ _ Ll).
      apply (lexes_app _ [_] _ _ lexes_ALT).
      apply (lexes_app _ _ _ _ Lr lexes_RPAREN).
    + simpl tokens_of.
      change (LPAREN_token :: tokens_of l ++ ALT_token :: tokens_of r ++ [RPAREN_token])
        with (LPAREN_token :: tokens_of l ++ (ALT_token :: tokens_of r) ++ [RPAREN_token]).
      rewrite app_assoc.
      apply accepts_atom_term, accepts_group, acc_regex_more;
        [exact Al | reflexivity | apply acc_regex_one, Ar].
Qed.

End SerializerFacts.

(** * The pipeline *)

(** ** Defining equations of the parser's methods *)

Lemma regex_S fuel self :
  Parser.regex (S fuel) self
  = bind (Parser.term fuel self)
         (fun '(t, s) => Parser.regex_while fuel t s).
Proof. reflexivity. Qed.

Lemma term_S fuel self :
  Parser.term (S fuel) self
  = bind (Parser.factor fuel self)
         (fun '(t, s) => Parser.term_while fuel t s).
Proof. reflexivity. Qed.

Lemma factor_S fuel self :
  Parser.factor (S fuel) self
  = bind (Parser.atom fuel self)
         (fun '(t, s) => Parser.factor_while fuel t s).
Proof. reflexivity. Qed.

Lemma regex_while_exit fuel t0 self :
  Parser.current_in self ["ALT"] = false ->
  Parser.regex_while (S fuel) t0 self = Ret (t0, self).
Proof. intros H. simpl. rewrite H. reflexivity. Qed.

Lemma term_while_exit fuel t0 self :
  Parser.current_in self Parser.atom_start = false ->
  Parser.term_while (S fuel) t0 self = Ret (t0, self).
Proof. intros H. simpl. rewrite H. reflexivity. Qed.

Lemma atom_leaf fuel self tok :
  Parser.current_token self = Some tok ->
  tag_in (type tok) Parser.leaf_tags = true ->
  Parser.atom (S fuel) self = Ret (Tok tok, Parser.advance self).
Proof. intros H Hleaf. simpl. rewrite H, Hleaf. reflexivity. Qed.

Lemma atom_end_of_input fuel self :
  Parser.current_token self = None ->
  Parser.atom (S fuel) self = Raise AttributeError.
Proof. intros H. simpl. rewrite H. reflexivity. Qed.

(** ** C2 *)

(** C2. When [atom] is entered at the end of the input, the read of
    [self.current_token.type] fails on [None]: [atom] raises
    [AttributeError], whatever the tokens and the position, and so does
    [parse] on the empty token list and on the tokens of "a|". None of the
    parser's [ValueError]s is raised there. *)
Theorem parse_end_of_input_raises_AttributeError :
  (forall fuel tokens pos,
     Parser.atom (S fuel) (Parser.mk tokens pos None) = Raise AttributeError)
  /\ Parser.parse [] = Raise AttributeError
  /\ (forall isalnum_non_ascii,
        Tokenizer.tokenize isalnum_non_ascii (py "a|")
        = Ret [mkToken "CHAR" (py "a"); mkToken "ALT" (py "|")])
  /\ Parser.parse [mkToken "CHAR" (py "a"); mkToken "ALT" (py "|")]
     = Raise AttributeError.
Proof.
  split; [|split; [|split]].
  - intros fuel tokens pos. apply atom_end_of_input. reflexivity.
  - reflexivity.
  - intros ext. reflexivity.
  - reflexivity.
Qed.

(** ** C3 *)

(** C3, as stated, fails: the pattern "[]" is one 'CLASS' token whose text
    is empty. *)
Lemma empty_class_text_counterexample :
  ~ all_texts_nonempty (fun _ => false) (py "[]").
Proof.
  intros H. specialize (H [mkToken "CLASS" []] eq_refl).
  inversion H as [|tok l Hv _]; subst. apply Hv. reflexivity.
Qed.

Section TokenTexts.

Variable isalnum_non_ascii : char -> bool.

Lemma lexeme_of_lexeme tok lx :
  lexeme_of isalnum_non_ascii tok lx -> lx = lexeme tok /\ token_text_ok tok.
Proof.
  intros H; destruct H; (split; [reflexivity|]);
    unfold token_text_ok; simpl;
    repeat split; try discriminate; try congruence; eauto.
Qed.

Lemma lexes_lexemes s toks :
  lexes isalnum_non_ascii s toks ->
  s = concat (map lexeme toks) /\ Forall token_text_ok toks.
Proof.
  induction 1 as [|tok lx r ts Hlx _ [IHs IHf]]; simpl.
  - split; [reflexivity | constructor].
  - apply lexeme_of_lexeme in Hlx. destruct Hlx as [-> Hok].
    rewrite <- IHs. split; [reflexivity | constructor; assumption].
Qed.

End TokenTexts.

(** C3, amended. On every string that [tokenize] accepts, the string is the
    concatenation of the lexemes of the tokens, where the lexeme of a 'CLASS'
    token is its text between '[' and ']' and the text has no ']', the text
    of a 'QUANT' token is its own lexeme, a '{', a body without '}' and a
    '}', and the lexeme of an 'ESCAPED_CHAR' token is a backslash and its
    text; every token that is not a 'CLASS' token has a non-empty text. *)
Theorem token_texts (isalnum_non_ascii : char -> bool) (s : str)
  (toks : list Token) :
  Tokenizer.tokenize isalnum_non_ascii s = Ret toks ->
  s = concat (map lexeme toks) /\ Forall token_text_ok toks.
Proof.
  intros H. apply tokenize_sound in H. apply lexes_lexemes in H. exact H.
Qed.

Lemma token_texts_witness :
  exists toks,
    Tokenizer.tokenize (fun _ => false) (py "[a-z]{2,3}[]") = Ret toks
    /\ py "[a-z]{2,3}[]" = concat (map lexeme toks)
    /\ Forall token_text_ok toks.
Proof.
  eexists. split; [reflexivity|].
  apply (token_texts (fun _ => false) (py "[a-z]{2,3}[]")). reflexivity.
Defined.

(** ** C4 *)

Lemma ast_tags (P : Token -> Prop) ty t :
  (forall tok, P tok -> type tok <> ty) ->
  ~ In ty ["GROUP"; "STAR"; "QUANT"; "CONCAT"; "ALT"] ->
  ast P t -> ~ In ty (tags t).
Proof.
  intros HP Hty. induction 1 as [tok _ Htok | x _ IHx | x _ IHx
                                | x q _ IHx Hq HPq | l r _ IHl _ IHr
                                | l r _ IHl _ IHr]; simpl in *.
  - intros [E|[]]. exact (HP _ Htok E).
  - rewrite app_nil_r. intros [E|H]; [|exact (IHx H)]. apply Hty. auto.
  - rewrite app_nil_r. intros [E|H]; [|exact (IHx H)]. apply Hty. auto.
  - intros [E|H]; [apply Hty; auto 6|].
    apply in_app_or in H. destruct H as [H|[E|[]]]; [exact (IHx H)|].
    exact (HP _ HPq E).
  - intros [E|H]; [apply Hty; auto 6|].
    apply in_app_or in H. destruct H as [H|H]; [exact (IHl H) | exact (IHr H)].
  - intros [E|H]; [apply Hty; auto 6|].
    apply in_app_or in H. destruct H as [H|H]; [exact (IHl H) | exact (IHr H)].
Qed.

Lemma lexes_no_DOT ext s toks :
  lexes ext s toks -> Forall (fun tok => type tok <> "DOT") toks.
Proof.
  induction 1 as [|tok lx r ts Hlx _ IH]; constructor; [|exact IH].
  destruct Hlx; discriminate.
Qed.

(** C4. A '.' under the cursor is returned as a 'CHAR' token; no token of
    any [tokenize] output has the type 'DOT', and no object of a tree
    parsed from such an output has it, so that the 'DOT' case of [compile]
    is not taken on these trees. *)
Theorem dot_is_CHAR_never_DOT (isalnum_non_ascii : char -> bool) (s : str)
  (toks : list Token) :
  Tokenizer.tokenize isalnum_non_ascii s = Ret toks ->
  Forall (fun tok => type tok <> "DOT") toks
  /\ (forall t, Parser.parse toks = Ret t -> ~ In "DOT" (tags t))
  /\ (forall self,
        nth_error (Tokenizer.regex self) (Tokenizer.pos self)
        = Some (ord ".") ->
        Tokenizer.get_next_token isalnum_non_ascii self
        = Ret (Some (mkToken "CHAR" (py ".")),
               Tokenizer.set_pos self (Tokenizer.pos self + 1))).
Proof.
  intros H. apply tokenize_sound in H. apply lexes_no_DOT in H.
  split; [exact H|]. split.
  - intros t Ht.
    apply (ast_tags (fun tok => type tok <> "DOT")).
    + auto.
    + simpl. intros [E|[E|[E|[E|[E|[]]]]]]; discriminate E.
    + apply (parse_ast _ _ _ Ht H).
  - intros self Hn. unfold Tokenizer.get_next_token. rewrite Hn. reflexivity.
Qed.

Lemma dot_is_CHAR_never_DOT_witness :
  Tokenizer.tokenize (fun _ => false) (py "a.b")
  = Ret [mkToken "CHAR" (py "a"); mkToken "CHAR" (py ".");
         mkToken "CHAR" (py "b")]
  /\ Forall (fun tok => type tok <> "DOT")
       [mkToken "CHAR" (py "a"); mkToken "CHAR" (py ".");
        mkToken "CHAR" (py "b")].
Proof.
  split; [reflexivity|].
  apply (dot_is_CHAR_never_DOT (fun _ => false) (py "a.b")). reflexivity.
Defined.

(** ** C5 *)

(** The failure branch of [compile] exists: it is taken on a node of a
    foreign type, and on a token that is not a leaf of the grammar. *)
Fact compile_unknown_node_type :
  compile (Node "PLUS" PyNone PyNone) = Raise (Unknown_node_type "PLUS")
  /\ compile (Tok (mkToken "LPAREN" (py "(")))
     = Raise (Unknown_node_type "LPAREN").
Proof. split; reflexivity. Qed.

(** C5. On the tree of a successful parse of a [tokenize] output, [compile]
    returns a string: it does not raise "Unknown node type" (nor anything
    else). *)
Theorem compile_never_unknown_node_type (isalnum_non_ascii : char -> bool)
  (s : str) (toks : list Token) (t : tree) :
  Tokenizer.tokenize isalnum_non_ascii s = Ret toks ->
  Parser.parse toks = Ret t ->
  (exists out, compile t = Ret out)
  /\ forall ty, compile t <> Raise (Unknown_node_type ty).
Proof.
  intros _ Ht.
  assert (Hast : ast (fun _ => True) t).
  { apply (parse_ast _ _ _ Ht). apply Forall_forall. auto. }
  destruct (compile_ast_total _ _ Hast) as [out Hout].
  split; [exists out; exact Hout|]. intros ty. rewrite Hout. discriminate.
Qed.

Lemma compile_never_unknown_node_type_witness :
  exists toks t,
    Tokenizer.tokenize (fun _ => false) (py "(a|[bc])*\.{2}^$") = Ret toks
    /\ Parser.parse toks = Ret t
    /\ (exists out, compile t = Ret out)
    /\ forall ty, compile t <> Raise (Unknown_node_type ty).
Proof.
  eexists. eexists. split; [reflexivity|]. split; [reflexivity|].
  eapply (compile_never_unknown_node_type (fun _ => false)
            (py "(a|[bc])*\.{2}^$")); reflexivity.
Defined.

(** ** C6 *)

(** C6. The four error cases: "a[" is refused by the tokenizer with
    "Unclosed character class" (UnterminatedClass), a trailing backslash
    with "Backslash at end of regex" (UnterminatedEscape); the tokens of
    "(a" are refused by the parser with "Unclosed parenthesis"
    (UnclosedGroup) and those of "*a" with "Unexpected token", on the
    'STAR' token (UnexpectedToken). *)
Theorem error_cases (isalnum_non_ascii : char -> bool) :
  Tokenizer.tokenize isalnum_non_ascii (py "a[") = Raise Unclosed_character_class
  /\ Tokenizer.tokenize isalnum_non_ascii (py "a\") = Raise Backslash_at_end_of_regex
  /\ Tokenizer.tokenize isalnum_non_ascii (py "(a")
     = Ret [mkToken "LPAREN" (py "("); mkToken "CHAR" (py "a")]
  /\ Parser.parse [mkToken "LPAREN" (py "("); mkToken "CHAR" (py "a")]
     = Raise Unclosed_parenthesis
  /\ Tokenizer.tokenize isalnum_non_ascii (py "*a")
     = Ret [mkToken "STAR" (py "*"); mkToken "CHAR" (py "a")]
  /\ Parser.parse [mkToken "STAR" (py "*"); mkToken "CHAR" (py "a")]
     = Raise (Unexpected_token (mkToken "STAR" (py "*"))).
Proof. repeat split; reflexivity. Qed.

(** ** C7 *)

(** C7. For every body without '}', numeric or not, the pattern "a{body}"
    is the tokens 'CHAR' a and 'QUANT' "{body}", it parses to the 'QUANT'
    node over the leaf a that carries the 'QUANT' token, and that tree is
    written back as "a{body}"; [compile] writes a 'QUANT' node as the text
    of its operand followed by the text of its token, without
    parentheses. With the body "2,3" this is the pattern "a{2,3}". *)
Theorem quantifier_pass_through (isalnum_non_ascii : char -> bool)
  (body : str) :
  ~ In (ord "}") body ->
  let a := mkToken "CHAR" (py "a") in
  let q := mkToken "QUANT" (py "{" ++ body ++ py "}") in
  Tokenizer.tokenize isalnum_non_ascii (py "a" ++ py "{" ++ body ++ py "}")
  = Ret [a; q]
  /\ Parser.parse [a; q] = Ret (Node "QUANT" (Tok a) (Tok q))
  /\ compile (Node "QUANT" (Tok a) (Tok q))
     = Ret (py "a" ++ py "{" ++ body ++ py "}")
  /\ (forall x q',
        compile (Node "QUANT" x (Tok q'))
        = (l <- compile x ;; Ret (l ++ value q'))).
Proof.
  intros Hbody a q. split; [|split; [|split]].
  - apply tokenize_complete.
    apply (lexes_cons _ a (py "a") _ [q]); [apply lx_CHAR; reflexivity|].
    apply lexes_one, lx_QUANT, Hbody.
  - reflexivity.
  - reflexivity.
  - intros x q'. reflexivity.
Qed.

Lemma quantifier_pass_through_witness :
  let a := mkToken "CHAR" (py "a") in
  let q := mkToken "QUANT" (py "{2,3}") in
  ~ In (ord "}") (py "2,3")
  /\ Tokenizer.tokenize (fun _ => false) (py "a{2,3}") = Ret [a; q]
  /\ Parser.parse [a; q] = Ret (Node "QUANT" (Tok a) (Tok q))
  /\ compile (Node "QUANT" (Tok a) (Tok q)) = Ret (py "a{2,3}").
Proof.
  assert (H : ~ In (ord "}") (py "2,3")).
  { simpl. intros [E|[E|[E|[]]]]; discriminate E. }
  intros a q. split; [exact H|].
  destruct (quantifier_pass_through (fun _ => false) (py "2,3") H)
    as (H1 & H2 & H3 & _).
  split; [exact H1|]. split; [exact H2 | exact H3].
Defined.

(** ** C8 *)

(** C8. A leaf token followed by postfix tokens only parses to the leaf
    wrapped once per postfix token, from the first to the last: the tree is
    the left fold of [wrap] over the postfix tokens. "a**" gives
    STAR(STAR(a)) and "a{2}{3}" gives QUANT(QUANT(a,{2}),{3}). *)
Theorem postfix_left_associative (tok : Token) (ps : list Token) :
  tag_in (type tok) Parser.leaf_tags = true ->
  Forall is_postfix ps ->
  Parser.parse (tok :: ps) = Ret (fold_left wrap ps (Tok tok))
  /\ (forall isalnum_non_ascii,
        let a := mkToken "CHAR" (py "a") in
        let star := mkToken "STAR" (py "*") in
        let q2 := mkToken "QUANT" (py "{2}") in
        let q3 := mkToken "QUANT" (py "{3}") in
        Tokenizer.tokenize isalnum_non_ascii (py "a**") = Ret [a; star; star]
        /\ Parser.parse [a; star; star]
           = Ret (Node "STAR" (Node "STAR" (Tok a) PyNone) PyNone)
        /\ Tokenizer.tokenize isalnum_non_ascii (py "a{2}{3}") = Ret [a; q2; q3]
        /\ Parser.parse [a; q2; q3]
           = Ret (Node "QUANT" (Node "QUANT" (Tok a) (Tok q2)) (Tok q3))).
Proof.
  intros Hleaf Hps. split; [|intros ext a star q2 q3; repeat split; reflexivity].
  unfold Parser.parse, Parser.parse_from.
  replace (4 * length (tok :: ps) + 4)
    with (S (S (S (S (4 * length ps + 4))))) by (simpl; lia).
  remember (4 * length ps + 4) as k eqn:Hk.
  rewrite regex_S, term_S, factor_S.
  rewrite (atom_leaf _ _ tok) by (reflexivity || exact Hleaf).
  cbn [bind].
  destruct (factor_while_fold ps [] Hps I (S k) (Tok tok)
              (Parser.advance (Parser.init (tok :: ps))))
    as (s' & Hfw & Hc' & Hl').
  - apply cursor_ok_advance.
  - rewrite tokens_left_advance, tokens_left_init, app_nil_r. reflexivity.
  - lia.
  - rewrite Hfw. cbn [bind].
    rewrite term_while_exit
      by (apply current_in_follows; [exact Hc' | rewrite Hl'; exact I]).
    cbn [bind].
    rewrite regex_while_exit
      by (apply current_in_follows; [exact Hc' | rewrite Hl'; exact I]).
    reflexivity.
Qed.

Lemma postfix_left_associative_witness :
  let a := mkToken "CHAR" (py "a") in
  let star := mkToken "STAR" (py "*") in
  Parser.parse [a; star; star]
  = Ret (Node "STAR" (Node "STAR" (Tok a) PyNone) PyNone).
Proof.
  intros a star.
  refine (proj1 (postfix_left_associative a [star; star] eq_refl _)).
  repeat constructor.
Defined.

(** ** C9 *)

(** C9. [compile] writes a 'STAR' node as its operand between parentheses
    followed by '*', and an 'ALT' node as its two operands between
    parentheses, separated by '|', whatever the operands: "a|b" comes back
    as "(a|b)" and "a*" as "(a)*". *)
Theorem star_and_alt_parenthesized (isalnum_non_ascii : char -> bool) :
  pipeline isalnum_non_ascii (py "a|b") = Ret (py "(a|b)")
  /\ pipeline isalnum_non_ascii (py "a*") = Ret (py "(a)*")
  /\ (forall x r,
        compile (Node "STAR" x r)
        = (l <- compile x ;; Ret (py "(" ++ l ++ py ")*")))
  /\ (forall x y,
        compile (Node "ALT" x y)
        = (l <- compile x ;; r <- compile y ;;
           Ret (py "(" ++ l ++ py "|" ++ r ++ py ")"))).
Proof. repeat split; reflexivity. Qed.

(** ** C10 *)

(** C10. [parse] does not ask that the tokens be used up: a sequence of the
    grammar followed by tokens that cannot extend it (the first of them is
    not a postfix operator, not the start of an atom and not 'ALT') is
    parsed without error, to the tree of the sequence alone. The tokens of
    "a)" and of "a)b" both parse to the leaf a. *)
Theorem parse_ignores_trailing_tokens (l rest : list Token) :
  accepts Regex l -> ends_regex rest ->
  (exists t, Parser.parse l = Ret t /\ Parser.parse (l ++ rest) = Ret t)
  /\ (forall isalnum_non_ascii,
        let a := mkToken "CHAR" (py "a") in
        let b := mkToken "CHAR" (py "b") in
        let rp := mkToken "RPAREN" (py ")") in
        Tokenizer.tokenize isalnum_non_ascii (py "a)") = Ret [a; rp]
        /\ Parser.parse [a; rp] = Ret (Tok a)
        /\ Tokenizer.tokenize isalnum_non_ascii (py "a)b") = Ret [a; rp; b]
        /\ Parser.parse [a; rp; b] = Ret (Tok a)).
Proof.
  intros H Hrest. split.
  - destruct (parse_prefix _ H) as [t Ht]. exists t. split.
    + rewrite <- (app_nil_r l). apply Ht, ends_regex_nil.
    + apply Ht, Hrest.
  - intros ext a b rp. repeat split; reflexivity.
Qed.

Lemma parse_ignores_trailing_tokens_witness :
  let a := mkToken "CHAR" (py "a") in
  let b := mkToken "CHAR" (py "b") in
  let rp := mkToken "RPAREN" (py ")") in
  exists t, Parser.parse [a] = Ret t /\ Parser.parse ([a] ++ [rp; b]) = Ret t.
Proof.
  intros a b rp.
  refine (proj1 (parse_ignores_trailing_tokens [a] [rp; b] _ _)).
  - apply acc_regex_one, accepts_atom_term, acc_leaf. reflexivity.
  - repeat split.
Defined.

(** * More on the tokenizer *)

Lemma before_all stop l : ~ In stop l -> before stop l = l /\ from stop l = [].
Proof.
  induction l as [|c r IH]; simpl; intros H; [split; reflexivity|].
  destruct (N.eqb_spec c stop); [tauto|].
  destruct IH as [-> ->]; [tauto|]. split; reflexivity.
Qed.

Lemma from_head stop l : from stop l = [] \/ exists r, from stop l = stop :: r.
Proof.
  induction l as [|c r IH]; simpl; [left; reflexivity|].
  destruct (N.eqb_spec c stop); [right; subst; eauto | exact IH].
Qed.

Lemma from_nil stop l : from stop l = [] -> ~ In stop l.
Proof.
  intros H. rewrite (before_from stop l), H, app_nil_r.
  apply before_no_stop.
Qed.

Section TokenizerErrors.

Variable isalnum_non_ascii : char -> bool.

Local Abbreviation get_next_token := (Tokenizer.get_next_token isalnum_non_ascii).
Local Abbreviation tokenize_loop := (Tokenizer.tokenize_loop isalnum_non_ascii).
Local Abbreviation tokenize := (Tokenizer.tokenize isalnum_non_ascii).
Local Abbreviation lexeme_of := (lexeme_of isalnum_non_ascii).
Local Abbreviation lexes := (lexes isalnum_non_ascii).
Local Abbreviation supported := (supported isalnum_non_ascii).
Local Abbreviation fails_on := (fails_on isalnum_non_ascii).

Local Arguments Tokenizer.scan_until : simpl never.
Local Arguments Tokenizer.stopped_at : simpl never.

Lemma supported_false c :
  supported c = false ->
  char_branch isalnum_non_ascii c = false
  /\ (c =? ord "\")%N = false /\ (c =? ord "*")%N = false
  /\ (c =? ord "|")%N = false /\ (c =? ord ".")%N = false
  /\ (c =? ord "^")%N = false /\ (c =? ord "$")%N = false
  /\ (c =? ord "[")%N = false /\ (c =? ord "{")%N = false
  /\ (c =? ord "(")%N = false /\ (c =? ord ")")%N = false.
Proof.
  unfold supported, char_in. cbn [existsb]. intros H.
  repeat (apply orb_false_iff in H; destruct H as [? H]).
  repeat (split; [assumption|]).
  split.
  - match goal with Hc : char_branch _ c = false |- _ =>
      unfold char_branch, char_in in Hc; cbn [existsb] in Hc;
      repeat (apply orb_false_iff in Hc; destruct Hc as [? Hc]) end.
    assumption.
  - repeat (split; [assumption|]). assumption.
Qed.

Lemma get_next_token_fails self l e :
  fails_on l e -> chars_left self = l -> get_next_token self = Raise e.
Proof.
  intros H; destruct H as [|body Hb|body Hb|c r Hc]; intros E; simpl in E;
    destruct (chars_left_cons _ _ _ E) as [Hn Hr];
    unfold Tokenizer.get_next_token; rewrite Hn.
  - simpl. pose proof (chars_left_nil _ Hr) as Hn2. simpl in Hn2.
    rewrite Hn2. reflexivity.
  - simpl.
    destruct (scan_until_result (ord "]")
                (Tokenizer.set_pos self (Tokenizer.pos self + 1)) [])
      as (s2 & Hs & Hl & _).
    simpl in Hs. rewrite Hs. simpl.
    rewrite stopped_at_spec. simpl in Hl. rewrite Hl, Hr.
    destruct (before_all _ _ Hb) as [_ Hf]. simpl in Hf. rewrite Hf.
    reflexivity.
  - simpl.
    destruct (scan_until_result (ord "}")
                (Tokenizer.set_pos self (Tokenizer.pos self + 1)) [ord "{"])
      as (s2 & Hs & Hl & _).
    simpl in Hs. rewrite Hs. simpl.
    rewrite stopped_at_spec. simpl in Hl. rewrite Hl, Hr.
    destruct (before_all _ _ Hb) as [_ Hf]. simpl in Hf. rewrite Hf.
    reflexivity.
  - destruct (supported_false _ Hc)
      as (H0 & H1 & H2 & H3 & H4 & H5 & H6 & H7 & H8 & H9 & H10).
    unfold char_branch in H0.
    rewrite H0, H1, H2, H3, H4, H5, H6, H7, H8, H9, H10. reflexivity.
Qed.


Lemma get_next_token_Raise self e :
  get_next_token self = Raise e -> fails_on (chars_left self) e.
Proof.
  unfold Tokenizer.get_next_token.
  destruct (nth_error _ _) as [c|] eqn:Hn; [|discriminate].
  apply nth_error_skipn_cons in Hn. fold (chars_left self) in Hn.
  change (skipn (Tokenizer.pos self + 1) (Tokenizer.regex self))
    with (chars_left (Tokenizer.set_pos self (Tokenizer.pos self + 1))) in Hn.
  rewrite Hn.
  destruct (_ || _) eqn:Hc; [discriminate|].
  destruct (N.eqb_spec c (ord "\")) as [->|N1].
  { cbv zeta. destruct (nth_error _ _) as [n|] eqn:Hn2; [discriminate|].
    apply nth_error_None_skipn in Hn2.
    cbn [bind]. intros H; injection H as <-.
    unfold chars_left at 1. simpl. simpl in Hn2. rewrite Hn2.
    apply fails_backslash. }
  destruct (N.eqb_spec c (ord "*")) as [->|N2]; [discriminate|].
  destruct (N.eqb_spec c (ord "|")) as [->|N3]; [discriminate|].
  destruct (N.eqb_spec c (ord ".")) as [->|N4]; [discriminate|].
  destruct (N.eqb_spec c (ord "^")) as [->|N5]; [discriminate|].
  destruct (N.eqb_spec c (ord "$")) as [->|N6]; [discriminate|].
  destruct (N.eqb_spec c (ord "[")) as [->|N7].
  { cbv zeta.
    destruct (scan_until_result (ord "]")
                (Tokenizer.set_pos self (Tokenizer.pos self + 1)) [])
      as (s2 & Hs & Hl & _).
    rewrite Hs. cbn [bind]. rewrite stopped_at_spec, Hl.
    destruct (from_head (ord "]")
                (chars_left (Tokenizer.set_pos self (Tokenizer.pos self + 1))))
      as [Hf|[r Hf]]; rewrite Hf.
    - cbn [bind]. intros H; injection H as <-.
      apply (fails_class _ _ (from_nil _ _ Hf)).
    - rewrite N.eqb_refl. discriminate. }
  destruct (N.eqb_spec c (ord "{")) as [->|N8].
  { cbv zeta.
    destruct (scan_until_result (ord "}")
                (Tokenizer.set_pos self (Tokenizer.pos self + 1)) [ord "{"])
      as (s2 & Hs & Hl & _).
    rewrite Hs. cbn [bind]. rewrite stopped_at_spec, Hl.
    destruct (from_head (ord "}")
                (chars_left (Tokenizer.set_pos self (Tokenizer.pos self + 1))))
      as [Hf|[r Hf]]; rewrite Hf.
    - cbn [bind]. intros H; injection H as <-.
      apply (fails_quant _ _ (from_nil _ _ Hf)).
    - rewrite N.eqb_refl. discriminate. }
  destruct (N.eqb_spec c (ord "(")) as [->|N9]; [discriminate|].
  destruct (N.eqb_spec c (ord ")")) as [->|N10]; [discriminate|].
  cbn [bind]. intros H; injection H as <-. apply fails_unknown.
  unfold supported, char_branch. rewrite Hc.
  unfold char_in. cbn [existsb orb].
  repeat match goal with
         | H : ?a <> ?b |- context [(?a =? ?b)%N] =>
             rewrite (proj2 (N.eqb_neq a b) H)
         end.
  reflexivity.
Qed.

(** [get_next_token] depends on what is left of the string only. *)
Lemma get_next_token_ext self1 self2 :
  chars_left self1 = chars_left self2 ->
  chars_left self1 <> [] ->
  match get_next_token self1, get_next_token self2 with
  | Ret (t1, s1), Ret (t2, s2) => t1 = t2 /\ chars_left s1 = chars_left s2
  | Raise e1, Raise e2 => e1 = e2
  | _, _ => False
  end.
Proof.
  intros E Hne. destruct (get_next_token self1) as [[[tok|] s1]|e|] eqn:H1.
  - destruct (get_next_token_sound _ _ _ _ H1) as (lx & Hlx & Hl & _).
    rewrite E in Hl.
    destruct (get_next_token_complete _ _ _ Hlx _ _ Hl) as (s2 & -> & Hl2 & _).
    split; [reflexivity | congruence].
  - apply get_next_token_None in H1. contradiction.
  - apply get_next_token_Raise in H1. rewrite E in H1.
    rewrite (get_next_token_fails _ _ _ H1 eq_refl). reflexivity.
  - apply get_next_token_no_Timeout in H1 as [].
Qed.

(** The loop of [tokenize] depends on what is left of the string only, once
    it has fuel for it. *)
Lemma tokenize_loop_ext : forall fuel1 fuel2 self1 self2 acc,
  chars_left self1 = chars_left self2 ->
  length (chars_left self1) < fuel1 ->
  length (chars_left self1) < fuel2 ->
  tokenize_loop fuel1 self1 acc = tokenize_loop fuel2 self2 acc.
Proof.
  induction fuel1 as [|fuel1 IH]; intros [|fuel2] self1 self2 acc E H1 H2;
    try lia.
  simpl. rewrite !in_range_spec, <- E.
  destruct (chars_left self1) as [|c r] eqn:El; [reflexivity|].
  assert (Hne : chars_left self1 <> []) by (rewrite El; discriminate).
  assert (E' : chars_left self1 = chars_left self2) by congruence.
  pose proof (get_next_token_ext self1 self2 E' Hne) as Hx.
  destruct (get_next_token self1) as [[tok1 s1]|e1|] eqn:G1;
    destruct (get_next_token self2) as [[tok2 s2]|e2|] eqn:G2;
    try contradiction; simpl.
  - destruct Hx as [<- Hl]. destruct tok1 as [tok|].
    + destruct (get_next_token_sound _ _ _ _ G1) as (lx & Hlx & Hl1 & _).
      apply lexeme_of_nonempty in Hlx.
      rewrite El in Hl1. apply (f_equal (@length char)) in Hl1.
      rewrite length_app in Hl1. simpl in Hl1, H1, H2.
      apply IH; [exact Hl | lia | lia].
    + apply get_next_token_None in G1. congruence.
  - congruence.
Qed.

(** The tokens already collected are only passed along. *)
Lemma tokenize_loop_acc : forall fuel self acc,
  tokenize_loop fuel self acc
  = (ts <- tokenize_loop fuel self [] ;; Ret (acc ++ ts)).
Proof.
  induction fuel as [|fuel IH]; intros self acc; simpl; [reflexivity|].
  destruct (_ <? _)%nat; simpl; [|rewrite app_nil_r; reflexivity].
  destruct (get_next_token self) as [[tok s']| |]; simpl; try reflexivity.
  destruct tok as [tok|]; [|apply IH].
  rewrite (IH s' (acc ++ [tok])), (IH s' [tok]).
  destruct (tokenize_loop fuel s' []); simpl; try reflexivity.
  rewrite <- app_assoc. reflexivity.
Qed.

Lemma tokenize_loop_app a ta b :
  lexes a ta ->
  forall fuel self acc,
    chars_left self = a ++ b -> length (a ++ b) < fuel ->
    tokenize_loop fuel self acc
    = (tb <- tokenize b ;; Ret (acc ++ ta ++ tb)).
Proof.
  induction 1 as [|tok lx r ts Hlx Hr IH]; intros [|fuel] self acc E Hf;
    try lia.
  - simpl app in *. rewrite tokenize_loop_acc. unfold Tokenizer.tokenize.
    rewrite (tokenize_loop_ext (S fuel) (S (length b)) self
               (Tokenizer.mk b 0) []); [reflexivity | exact E | |];
      rewrite E; lia.
  - rewrite <- app_assoc in E. simpl Tokenizer.tokenize_loop.
    rewrite in_range_spec, E.
    pose proof (lexeme_of_nonempty _ _ _ Hlx) as Hpos.
    destruct lx as [|c lx]; [simpl in Hpos; lia|]. simpl app at 1.
    destruct (get_next_token_complete _ _ _ Hlx self (r ++ b) E)
      as (s' & Hg & Hl & _).
    rewrite Hg. simpl bind. rewrite IH.
    + destruct (tokenize b); simpl; try reflexivity.
      rewrite <- !app_assoc. reflexivity.
    + exact Hl.
    + rewrite !length_app in *. simpl in Hf. lia.
Qed.

Lemma fails_on_nonempty l e : fails_on l e -> l <> [].
Proof. intros H; destruct H; discriminate. Qed.

Lemma tokenize_loop_S fuel self acc :
  tokenize_loop (S fuel) self acc
  = if (Tokenizer.pos self <? length (Tokenizer.regex self))%nat then
      '(token, self') <- get_next_token self ;;
      tokenize_loop fuel self'
        (match token with
         | Some tok => acc ++ [tok]
         | None => acc
         end)
    else Ret acc.
Proof. reflexivity. Qed.

Lemma tokenize_fails l e : fails_on l e -> tokenize l = Raise e.
Proof.
  intros H. unfold Tokenizer.tokenize.
  rewrite tokenize_loop_S, in_range_spec.
  pose proof (fails_on_nonempty _ _ H) as Hne.
  change (chars_left (Tokenizer.mk l 0)) with l.
  destruct l as [|c r]; [contradiction|].
  rewrite (get_next_token_fails (Tokenizer.mk (c :: r) 0) _ _ H eq_refl).
  reflexivity.
Qed.

Lemma tokenize_loop_Raise : forall fuel self acc e,
  tokenize_loop fuel self acc = Raise e ->
  exists pre r toks,
    chars_left self = pre ++ r /\ lexes pre toks /\ fails_on r e.
Proof.
  induction fuel as [|fuel IH]; intros self acc e; [discriminate|].
  rewrite tokenize_loop_S, in_range_spec.
  destruct (chars_left self) as [|c l] eqn:El; [discriminate|].
  destruct (get_next_token self) as [[[tok|] s']|e'|] eqn:Hg; simpl;
    try discriminate.
  - intros H. apply IH in H. destruct H as (pre & r & toks & Hl & Hpre & Hr).
    destruct (get_next_token_sound _ _ _ _ Hg) as (lx & Hlx & Hl' & _).
    exists (lx ++ pre), r, (tok :: toks). rewrite <- app_assoc, <- Hl.
    split; [congruence|]. split; [constructor; assumption | exact Hr].
  - apply get_next_token_None in Hg. congruence.
  - intros H; injection H as ->. apply get_next_token_Raise in Hg.
    exists [], (c :: l), []. rewrite <- El.
    split; [reflexivity|]. split; [constructor | exact Hg].
Qed.

End TokenizerErrors.

Lemma tokenize_concat (isalnum_non_ascii : char -> bool) (a b : str)
  (ta : list Token) :
  Tokenizer.tokenize isalnum_non_ascii a = Ret ta ->
  Tokenizer.tokenize isalnum_non_ascii (a ++ b)
  = (tb <- Tokenizer.tokenize isalnum_non_ascii b ;; Ret (ta ++ tb)).
Proof.
  intros H. apply tokenize_sound in H. unfold Tokenizer.tokenize at 1.
  rewrite (tokenize_loop_app _ _ _ b H); [reflexivity | reflexivity | lia].
Qed.

(** ** X1 *)

(** X1. [tokenize] returns the tokens [toks] on [s] exactly when [s] is the
    concatenation of lexemes whose tokens are [toks]: a character of the
    first branch, a backslash and any character, one of the characters
    [* | ^ $ ( )], a bracketed body without ']', a braced body without
    '}'. *)
Theorem tokenize_iff_lexes (isalnum_non_ascii : char -> bool) (s : str)
  (toks : list Token) :
  Tokenizer.tokenize isalnum_non_ascii s = Ret toks
  <-> lexes isalnum_non_ascii s toks.
Proof. split; [apply tokenize_sound | apply tokenize_complete]. Qed.

(** ** X2 *)

(** X2. [tokenize] raises [e] on [s] exactly when [s] is a string it
    accepts followed by a rest on which [get_next_token] fails with [e]: a
    lone backslash at the end, a '[' with no ']' after it, a '{' with no '}'
    after it, or a character that no branch takes. No other exception is
    raised, and the first failure is the one reported. *)
Theorem tokenize_raises_iff (isalnum_non_ascii : char -> bool) (s : str)
  (e : exn) :
  Tokenizer.tokenize isalnum_non_ascii s = Raise e
  <-> exists pre r toks,
        s = pre ++ r
        /\ Tokenizer.tokenize isalnum_non_ascii pre = Ret toks
        /\ fails_on isalnum_non_ascii r e.
Proof.
  split.
  - intros H. apply tokenize_loop_Raise in H.
    destruct H as (pre & r & toks & Hl & Hpre & Hr).
    exists pre, r, toks. split; [exact Hl|].
    split; [apply tokenize_complete, Hpre | exact Hr].
  - intros (pre & r & toks & -> & Hpre & Hr).
    apply tokenize_sound in Hpre. unfold Tokenizer.tokenize.
    rewrite (tokenize_loop_app _ _ _ r Hpre);
      [|reflexivity | lia].
    rewrite (tokenize_fails _ _ _ Hr). reflexivity.
Qed.

(** ** X3 *)

(** X3. Tokenizing a concatenation: when [tokenize] accepts [a], the
    outcome on [a ++ b] is the outcome on [b], with the tokens of [a] put
    in front of its tokens, or with its exception. *)
Theorem tokenize_app (isalnum_non_ascii : char -> bool) (a b : str)
  (ta : list Token) :
  Tokenizer.tokenize isalnum_non_ascii a = Ret ta ->
  Tokenizer.tokenize isalnum_non_ascii (a ++ b)
  = (tb <- Tokenizer.tokenize isalnum_non_ascii b ;; Ret (ta ++ tb)).
Proof. apply tokenize_concat. Qed.

Lemma tokenize_app_witness :
  Tokenizer.tokenize (fun _ => false) (py "a[" ++ py "b]c")
  = Ret [mkToken "CHAR" (py "a"); mkToken "CLASS" (py "b");
         mkToken "CHAR" (py "c")]
  /\ Tokenizer.tokenize (fun _ => false) (py "\(" ++ py "[b")
     = (tb <- Tokenizer.tokenize (fun _ => false) (py "[b") ;;
        Ret ([mkToken "ESCAPED_CHAR" (py "(")] ++ tb)).
Proof.
  split; [reflexivity|].
  apply (tokenize_app (fun _ => false) (py "\(") (py "[b")). reflexivity.
Defined.

(** ** X4 *)

(** X4. After a part that [tokenize] accepts, a character that no branch
    takes stops the tokenizer with "Unknown character" on that character,
    whatever follows it. The closing delimiters ']' and '}' are such
    characters, and so is the space. *)
Theorem unknown_character (isalnum_non_ascii : char -> bool)
  (pre rest : str) (toks : list Token) (c : char) :
  Tokenizer.tokenize isalnum_non_ascii pre = Ret toks ->
  supported isalnum_non_ascii c = false ->
  Tokenizer.tokenize isalnum_non_ascii (pre ++ c :: rest)
  = Raise (Unknown_character c)
  /\ supported isalnum_non_ascii (ord "]") = false
  /\ supported isalnum_non_ascii (ord "}") = false
  /\ supported isalnum_non_ascii (ord " ") = false.
Proof.
  intros Hpre Hc. split; [|repeat split; reflexivity].
  rewrite (tokenize_concat _ _ _ _ Hpre).
  rewrite (tokenize_fails _ _ _ (fails_unknown _ c rest Hc)). reflexivity.
Qed.

Lemma unknown_character_witness :
  Tokenizer.tokenize (fun _ => false) (py "[a]" ++ ord "]" :: py "*[")
  = Raise (Unknown_character (ord "]")).
Proof.
  refine (proj1 (unknown_character (fun _ => false) (py "[a]") (py "*[")
                   _ (ord "]") eq_refl eq_refl)).
Defined.

(** ** X5 *)

(** X5. After a part that [tokenize] accepts, a '[' that no ']' follows
    stops the tokenizer with "Unclosed character class", a '{' that no '}'
    follows with "Unclosed quantifier", and a backslash that ends the
    string with "Backslash at end of regex". Inside the brackets or braces
    nothing else is looked at: the body may hold backslashes, parentheses
    or characters that no branch takes. *)
Theorem unterminated_forms (isalnum_non_ascii : char -> bool)
  (pre : str) (toks : list Token) :
  Tokenizer.tokenize isalnum_non_ascii pre = Ret toks ->
  (forall body, ~ In (ord "]") body ->
     Tokenizer.tokenize isalnum_non_ascii (pre ++ py "[" ++ body)
     = Raise Unclosed_character_class)
  /\ (forall body, ~ In (ord "}") body ->
       Tokenizer.tokenize isalnum_non_ascii (pre ++ py "{" ++ body)
       = Raise Unclosed_quantifier)
  /\ Tokenizer.tokenize isalnum_non_ascii (pre ++ py "\")
     = Raise Backslash_at_end_of_regex.
Proof.
  intros Hpre. split; [|split].
  - intros body Hb. rewrite (tokenize_concat _ _ _ _ Hpre).
    rewrite (tokenize_fails _ _ _ (fails_class _ body Hb)). reflexivity.
  - intros body Hb. rewrite (tokenize_concat _ _ _ _ Hpre).
    rewrite (tokenize_fails _ _ _ (fails_quant _ body Hb)). reflexivity.
  - rewrite (tokenize_concat _ _ _ _ Hpre).
    rewrite (tokenize_fails _ _ _ (fails_backslash isalnum_non_ascii)). reflexivity.
Qed.

Lemma unterminated_forms_witness :
  Tokenizer.tokenize (fun _ => false) (py "a*" ++ py "\")
  = Raise Backslash_at_end_of_regex.
Proof.
  refine (proj2 (proj2 (unterminated_forms (fun _ => false) (py "a*") _
                          eq_refl))).
Defined.

(** * The parser and the grammar *)

Lemma yields_head ph l t :
  yields ph l t ->
  match ph with
  | P_term_loop _ =>
      l = [] \/ exists tok l',
                  l = tok :: l' /\ tag_in (type tok) Parser.atom_start = true
  | P_regex_loop _ =>
      l = [] \/ exists alt l', l = alt :: l' /\ type alt = "ALT"
  | _ =>
      exists tok l',
        l = tok :: l' /\ tag_in (type tok) Parser.atom_start = true
  end.
Proof.
  induction 1 as [tok Hleaf | lp r rp t Hlp Hrp _ _ | a ps t _ IH _
                 | f l tf t _ IH _ _ | t0 | t0 f l tf t _ IH _ _
                 | tm l tt t _ IH _ _ | t0 | t0 alt tm l tt t Halt _ _ _ _].
  - exists tok, []. split; [reflexivity | apply leaf_is_atom_start, Hleaf].
  - exists lp, (r ++ [rp]). split; [reflexivity | rewrite Hlp; reflexivity].
  - destruct IH as (tok & l' & -> & H). exists tok, (l' ++ ps). auto.
  - destruct IH as (tok & l' & -> & H). exists tok, (l' ++ l). auto.
  - left; reflexivity.
  - right. destruct IH as (tok & l' & -> & H). exists tok, (l' ++ l). auto.
  - destruct IH as (tok & l' & -> & H). exists tok, (l' ++ l). auto.
  - left; reflexivity.
  - right. exists alt, (tm ++ l). auto.
Qed.

Lemma yields_factor_length f t : yields P_factor f t -> 1 <= length f.
Proof.
  intros H. apply yields_head in H. destruct H as (tok & l' & -> & _).
  simpl. lia.
Qed.

Lemma yields_term_length l t : yields P_term l t -> 1 <= length l.
Proof.
  intros H. apply yields_head in H. destruct H as (tok & l' & -> & _).
  simpl. lia.
Qed.

Lemma yields_atom_length l t : yields P_atom l t -> 1 <= length l.
Proof.
  intros H. apply yields_head in H. destruct H as (tok & l' & -> & _).
  simpl. lia.
Qed.

Lemma term_loop_follows t0 l t rest :
  yields (P_term_loop t0) l t -> ends_term rest ->
  follows ["STAR"; "QUANT"] (l ++ rest).
Proof.
  intros H [Hp _]. apply yields_head in H.
  destruct H as [->|(tok & l' & -> & H)]; [exact Hp|].
  simpl. apply atom_start_not_postfix, H.
Qed.

Lemma regex_loop_follows t0 l t rest :
  yields (P_regex_loop t0) l t -> ends_regex rest -> ends_term (l ++ rest).
Proof.
  intros H [Ht _]. apply yields_head in H.
  destruct H as [->|(alt & l' & -> & H)]; [exact Ht|].
  simpl. apply ends_term_ALT, H.
Qed.

Lemma current_in_head self tok l tags :
  cursor_ok self -> tokens_left self = tok :: l ->
  Parser.current_in self tags = tag_in (type tok) tags.
Proof.
  intros Hc Hl. unfold Parser.current_in.
  rewrite (cursor_head _ Hc), Hl. reflexivity.
Qed.

(** The parser reads every phrase of the grammar and builds its tree. *)
Lemma parser_yields ph l t :
  yields ph l t ->
  forall fuel self rest,
    cursor_ok self -> tokens_left self = l ++ rest ->
    follow ph rest -> enough ph (length l) <= fuel ->
    lands (call ph fuel self) t rest.
Proof.
  induction 1 as [tok Hleaf | lp r rp t Hlp Hrp Hr IHr | a ps t Ha IHa Hps
                 | f l tf t Hf IHf Hl IHl | t0
                 | t0 f l tf t Hf IHf Hl IHl
                 | tm l tt t Htm IHtm Hl IHl | t0
                 | t0 alt tm l tt t Halt Htm IHtm Hl IHl];
    intros [|fuel] self rest Hc Hleft Hfollow Hfuel;
    cbn [call follow enough] in *; simpl length in Hfuel;
    try rewrite !length_app in Hfuel; simpl length in Hfuel; try lia.
  - (* a leaf *)
    destruct (left_cons _ _ _ Hc Hleft) as [Hcur Hl']. simpl.
    rewrite Hcur, Hleaf. apply lands_Ret; [apply cursor_ok_advance | exact Hl'].
  - (* a group *)
    simpl in Hleft. rewrite <- app_assoc in Hleft.
    destruct (left_cons _ _ _ Hc Hleft) as [Hcur Hl']. simpl.
    rewrite Hcur, Hlp. simpl.
    apply (lands_bind _ _ t ([rp] ++ rest)).
    + apply IHr; [apply cursor_ok_advance | exact Hl'
                 | apply ends_regex_RPAREN, Hrp | lia].
    + intros s1 Hc1 Hl1. simpl.
      destruct (left_cons _ _ _ Hc1 Hl1) as [Hcur1 Hl1'].
      rewrite Hcur1, Hrp. simpl.
      apply lands_Ret; [apply cursor_ok_advance | exact Hl1'].
  - (* a factor *)
    rewrite <- app_assoc in Hleft.
    pose proof (yields_atom_length _ _ Ha) as Hlen. rewrite factor_S.
    apply (lands_bind _ _ t (ps ++ rest)).
    + apply IHa; [exact Hc | exact Hleft | exact I | lia].
    + intros s1 Hc1 Hl1. simpl.
      apply (factor_while_fold ps rest Hps Hfollow); [exact Hc1 | exact Hl1 | lia].
  - (* a term *)
    rewrite <- app_assoc in Hleft.
    pose proof (yields_factor_length _ _ Hf) as Hlen. rewrite term_S.
    apply (lands_bind _ _ tf (l ++ rest)).
    + apply IHf; [exact Hc | exact Hleft
                 | apply (term_loop_follows _ _ _ _ Hl Hfollow) | lia].
    + intros s1 Hc1 Hl1. simpl.
      apply IHl; [exact Hc1 | exact Hl1 | exact Hfollow | lia].
  - (* the loop of term stops *)
    rewrite term_while_exit;
      [apply lands_Ret; assumption|].
    apply current_in_follows; [exact Hc | rewrite Hleft; apply Hfollow].
  - (* the loop of term goes on *)
    rewrite <- app_assoc in Hleft.
    pose proof (yields_factor_length _ _ Hf) as Hlen.
    destruct (yields_head _ _ _ Hf) as (tok & f' & -> & Hstart).
    simpl. rewrite (current_in_head _ tok _ _ Hc Hleft), Hstart.
    apply (lands_bind _ _ tf (l ++ rest)).
    + apply IHf; [exact Hc | exact Hleft
                 | apply (term_loop_follows _ _ _ _ Hl Hfollow)
                 | simpl in *; lia].
    + intros s1 Hc1 Hl1. simpl.
      apply IHl; [exact Hc1 | exact Hl1 | exact Hfollow | simpl in *; lia].
  - (* a regex *)
    rewrite <- app_assoc in Hleft.
    pose proof (yields_term_length _ _ Htm) as Hlen. rewrite regex_S.
    apply (lands_bind _ _ tt (l ++ rest)).
    + apply IHtm; [exact Hc | exact Hleft
                  | apply (regex_loop_follows _ _ _ _ Hl Hfollow) | lia].
    + intros s1 Hc1 Hl1. simpl.
      apply IHl; [exact Hc1 | exact Hl1 | exact Hfollow | lia].
  - (* the loop of regex stops *)
    rewrite regex_while_exit;
      [apply lands_Ret; assumption|].
    apply current_in_follows; [exact Hc | rewrite Hleft; apply Hfollow].
  - (* the loop of regex goes on *)
    simpl in Hleft. rewrite <- app_assoc in Hleft.
    destruct (left_cons _ _ _ Hc Hleft) as [Hcur Hl'].
    simpl. unfold Parser.current_in at 1. rewrite Hcur, Halt. simpl.
    apply (lands_bind _ _ tt (l ++ rest)).
    + apply IHtm; [apply cursor_ok_advance | exact Hl'
                  | apply (regex_loop_follows _ _ _ _ Hl Hfollow) | lia].
    + intros s1 Hc1 Hl1. simpl.
      apply IHl; [exact Hc1 | exact Hl1 | exact Hfollow | lia].
Qed.

Lemma current_None self :
  cursor_ok self -> Parser.current_token self = None -> tokens_left self = [].
Proof.
  intros Hc H. rewrite (cursor_head _ Hc) in H.
  destruct (tokens_left self); simpl in *; congruence.
Qed.

Lemma tag_in_one ty tag : tag_in ty [tag] = true -> ty = tag.
Proof.
  unfold tag_in; simpl. rewrite orb_false_r. apply String.eqb_eq.
Qed.

Lemma follows_current self tags :
  cursor_ok self ->
  match Parser.current_token self with
  | Some tok => tag_in (type tok) tags = false
  | None => True
  end ->
  follows tags (tokens_left self).
Proof.
  intros Hc H. rewrite (cursor_head _ Hc) in H.
  destruct (tokens_left self); simpl in *; exact H.
Qed.

Ltac use_derived IH E :=
  rewrite E in IH; cbn [derived] in IH;
  let Hc := fresh "Hc" in
  let used := fresh "used" in
  let Hl := fresh "Hl" in
  let Hy := fresh "Hy" in
  let Hfol := fresh "Hfol" in
  destruct IH as (Hc & used & Hl & Hy & Hfol).

(** Every result of the parser is the tree of a phrase of the grammar. *)
Lemma parser_derived : forall fuel,
  (forall self, cursor_ok self ->
     derived P_regex self (Parser.regex fuel self))
  /\ (forall t0 self, cursor_ok self -> ends_term (tokens_left self) ->
        derived (P_regex_loop t0) self (Parser.regex_while fuel t0 self))
  /\ (forall self, cursor_ok self ->
        derived P_term self (Parser.term fuel self))
  /\ (forall t0 self, cursor_ok self ->
        follows ["STAR"; "QUANT"] (tokens_left self) ->
        derived (P_term_loop t0) self (Parser.term_while fuel t0 self))
  /\ (forall self, cursor_ok self ->
        derived P_factor self (Parser.factor fuel self))
  /\ (forall t0 self, cursor_ok self ->
        match Parser.factor_while fuel t0 self with
        | Ret (t, self') =>
            cursor_ok self'
            /\ exists ps,
                 tokens_left self = ps ++ tokens_left self'
                 /\ Forall is_postfix ps
                 /\ t = fold_left wrap ps t0
                 /\ follows ["STAR"; "QUANT"] (tokens_left self')
        | _ => True
        end)
  /\ (forall self, cursor_ok self ->
        derived P_atom self (Parser.atom fuel self)).
Proof.
  induction fuel as [|fuel (IHr & IHrw & IHt & IHtw & IHf & IHfw & IHa)];
    [repeat split; intros; exact I|].
  split; [|split; [|split; [|split; [|split; [|split]]]]].
  - (* regex *)
    intros self Hc. rewrite regex_S.
    destruct (Parser.term fuel self) as [[t1 s1]| |] eqn:E1; simpl; trivial.
    specialize (IHt self Hc). use_derived IHt E1.
    destruct (Parser.regex_while fuel t1 s1) as [[t2 s2]| |] eqn:E2;
      simpl; trivial.
    specialize (IHrw t1 s1 Hc0 Hfol). use_derived IHrw E2.
    split; [assumption|]. exists (used ++ used0).
    rewrite <- app_assoc, <- Hl0. split; [exact Hl|].
    split; [apply (y_regex _ _ t1); assumption | exact Hfol0].
  - (* regex_while *)
    intros t0 self Hc Hpre. simpl. unfold Parser.current_in.
    destruct (Parser.current_token self) as [tok|] eqn:Hcur.
    + destruct (tag_in (type tok) ["ALT"]) eqn:Htag.
      * apply tag_in_one in Htag.
        pose proof (current_Some _ _ Hc Hcur) as Hl0.
        destruct (Parser.term fuel (Parser.advance self))
          as [[t1 s1]| |] eqn:E1; simpl; trivial.
        specialize (IHt _ (cursor_ok_advance self)). use_derived IHt E1.
        destruct (Parser.regex_while fuel (Node "ALT" t0 t1) s1)
          as [[t2 s2]| |] eqn:E2; simpl; trivial.
        specialize (IHrw (Node "ALT" t0 t1) s1 Hc0 Hfol).
        use_derived IHrw E2.
        split; [assumption|]. exists (tok :: used ++ used0).
        simpl. rewrite <- app_assoc, <- Hl1, <- Hl. split; [exact Hl0|].
        split; [apply (y_regex_more _ _ _ _ t1); assumption | exact Hfol0].
      * simpl. split; [exact Hc|]. exists []. split; [reflexivity|].
        split; [constructor|]. split; [exact Hpre|].
        apply follows_current; [exact Hc | rewrite Hcur; exact Htag].
    + simpl. split; [exact Hc|]. exists []. split; [reflexivity|].
      split; [constructor|]. split; [exact Hpre|].
      apply follows_current; [exact Hc | rewrite Hcur; exact I].
  - (* term *)
    intros self Hc. rewrite term_S.
    destruct (Parser.factor fuel self) as [[t1 s1]| |] eqn:E1; simpl; trivial.
    specialize (IHf self Hc). use_derived IHf E1.
    destruct (Parser.term_while fuel t1 s1) as [[t2 s2]| |] eqn:E2;
      simpl; trivial.
    specialize (IHtw t1 s1 Hc0 Hfol). use_derived IHtw E2.
    split; [assumption|]. exists (used ++ used0).
    rewrite <- app_assoc, <- Hl0. split; [exact Hl|].
    split; [apply (y_term _ _ t1); assumption | exact Hfol0].
  - (* term_while *)
    intros t0 self Hc Hpre. simpl. unfold Parser.current_in.
    destruct (Parser.current_token self) as [tok|] eqn:Hcur.
    + destruct (tag_in (type tok) Parser.atom_start) eqn:Htag.
      * destruct (Parser.factor fuel self) as [[t1 s1]| |] eqn:E1;
          simpl; trivial.
        specialize (IHf self Hc). use_derived IHf E1.
        destruct (Parser.term_while fuel (Node "CONCAT" t0 t1) s1)
          as [[t2 s2]| |] eqn:E2; simpl; trivial.
        specialize (IHtw (Node "CONCAT" t0 t1) s1 Hc0 Hfol).
        use_derived IHtw E2.
        split; [assumption|]. exists (used ++ used0).
        rewrite <- app_assoc, <- Hl0. split; [exact Hl|].
        split; [apply (y_term_more _ _ _ t1); assumption | exact Hfol0].
      * simpl. split; [exact Hc|]. exists []. split; [reflexivity|].
        split; [constructor|]. split; [exact Hpre|].
        apply follows_current; [exact Hc | rewrite Hcur; exact Htag].
    + simpl. split; [exact Hc|]. exists []. split; [reflexivity|].
      split; [constructor|]. split; [exact Hpre|].
      apply follows_current; [exact Hc | rewrite Hcur; exact I].
  - (* factor *)
    intros self Hc. rewrite factor_S.
    destruct (Parser.atom fuel self) as [[t1 s1]| |] eqn:E1; simpl; trivial.
    specialize (IHa self Hc). use_derived IHa E1.
    specialize (IHfw t1 s1 Hc0).
    destruct (Parser.factor_while fuel t1 s1) as [[t2 s2]| |];
      simpl; trivial.
    destruct IHfw as (Hc2 & ps & Hl2 & Hps & -> & Hfol2).
    split; [assumption|]. exists (used ++ ps).
    rewrite <- app_assoc, <- Hl2. split; [exact Hl|].
    split; [apply y_factor; assumption | exact Hfol2].
  - (* factor_while *)
    intros t0 self Hc. simpl.
    destruct (Parser.current_token self) as [quant|] eqn:Hcur.
    + destruct (tag_in (type quant) ["STAR"; "QUANT"]) eqn:Htag.
      * pose proof (current_Some _ _ Hc Hcur) as Hl0.
        assert (Hq : is_postfix quant)
          by (split; [exact Htag | apply tag_in_STAR_QUANT, Htag]).
        destruct (type quant =? "STAR") eqn:Hstar.
        { specialize (IHfw (Node "STAR" t0 PyNone) _
                        (cursor_ok_advance self)).
          destruct (Parser.factor_while fuel _ _) as [[t2 s2]| |]; trivial.
          destruct IHfw as (Hc2 & ps & Hl2 & Hps & -> & Hfol2).
          split; [assumption|]. exists (quant :: ps).
          simpl. rewrite <- Hl2. split; [exact Hl0|].
          split; [constructor; assumption|].
          split; [|exact Hfol2].
          cbn [fold_left]. f_equal. unfold wrap. rewrite Hstar. reflexivity. }
        destruct (type quant =? "QUANT") eqn:Hquant.
        { specialize (IHfw (Node "QUANT" t0 (Tok quant)) _
                        (cursor_ok_advance self)).
          destruct (Parser.factor_while fuel _ _) as [[t2 s2]| |]; trivial.
          destruct IHfw as (Hc2 & ps & Hl2 & Hps & -> & Hfol2).
          split; [assumption|]. exists (quant :: ps).
          simpl. rewrite <- Hl2. split; [exact Hl0|].
          split; [constructor; assumption|].
          split; [|exact Hfol2].
          cbn [fold_left]. f_equal. unfold wrap. rewrite Hstar. reflexivity. }
        destruct Hq as [_ [Hq|Hq]]; rewrite Hq in *; discriminate.
      * split; [exact Hc|]. exists []. split; [reflexivity|].
        split; [constructor|]. split; [reflexivity|].
        apply follows_current; [exact Hc | rewrite Hcur; exact Htag].
    + split; [exact Hc|]. exists []. split; [reflexivity|].
      split; [constructor|]. split; [reflexivity|].
      apply follows_current; [exact Hc | rewrite Hcur; exact I].
  - (* atom *)
    intros self Hc. simpl.
    destruct (Parser.current_token self) as [tok|] eqn:Hcur; [|exact I].
    pose proof (current_Some _ _ Hc Hcur) as Hl0.
    destruct (tag_in (type tok) Parser.leaf_tags) eqn:Hleaf.
    { simpl. split; [apply cursor_ok_advance|]. exists [tok].
      split; [exact Hl0|]. split; [apply y_leaf, Hleaf | exact I]. }
    destruct (type tok =? "LPAREN") eqn:Hlp; [|exact I].
    apply String.eqb_eq in Hlp.
    destruct (Parser.regex fuel (Parser.advance self))
      as [[t1 s1]| |] eqn:E1; simpl; trivial.
    specialize (IHr _ (cursor_ok_advance self)). use_derived IHr E1.
    destruct (Parser.current_token s1) as [tok'|] eqn:Hcur'; [|exact I].
    destruct (type tok' =? "RPAREN") eqn:Hrp; simpl; [|exact I].
    apply String.eqb_eq in Hrp.
    pose proof (current_Some _ _ Hc0 Hcur') as Hl1.
    split; [apply cursor_ok_advance|]. exists (tok :: used ++ [tok']).
    simpl. rewrite <- app_assoc. simpl. rewrite <- Hl1, <- Hl.
    split; [exact Hl0|]. split; [apply y_group; assumption | exact I].
Qed.

Lemma parse_of_yields l rest t :
  yields P_regex l t -> ends_regex rest -> Parser.parse (l ++ rest) = Ret t.
Proof.
  intros Hy Hrest.
  destruct (parser_yields _ _ _ Hy (4 * length (l ++ rest) + 4)
              (Parser.init (l ++ rest)) rest) as (s & E & _).
  - apply cursor_ok_init.
  - apply tokens_left_init.
  - exact Hrest.
  - cbn [enough]. rewrite length_app. lia.
  - unfold Parser.parse, Parser.parse_from. cbn [call] in E. rewrite E.
    reflexivity.
Qed.

Lemma parse_yields_inv toks t :
  Parser.parse toks = Ret t ->
  exists l rest, toks = l ++ rest /\ yields P_regex l t /\ ends_regex rest.
Proof.
  unfold Parser.parse, Parser.parse_from. intros H.
  destruct (Parser.regex _ _) as [[t' s']| |] eqn:E; simpl in H;
    try discriminate.
  injection H as ->.
  pose proof (proj1 (parser_derived (4 * length toks + 4)) _
                (cursor_ok_init toks)) as Hd.
  use_derived Hd E. rewrite tokens_left_init in Hl.
  exists used, (tokens_left s'). auto.
Qed.

(** ** The exceptions of the parser *)

Lemma parser_raises_app l1 l2 e :
  parser_raises l2 e -> parser_raises (l1 ++ l2) e.
Proof.
  intros [H|[H|(tok & H & Hin & Htag)]]; [left; exact H | right; left; exact H|].
  right; right. exists tok. split; [exact H|].
  split; [apply in_or_app; right; exact Hin | exact Htag].
Qed.

Lemma not_atom_start ty :
  tag_in ty Parser.leaf_tags = false -> (ty =? "LPAREN") = false ->
  tag_in ty Parser.atom_start = false.
Proof.
  unfold tag_in, Parser.leaf_tags, Parser.atom_start. simpl. intros H ->.
  repeat (apply orb_false_iff in H; destruct H as [-> H]). reflexivity.
Qed.

Lemma atom_start_split ty :
  tag_in ty Parser.atom_start = false ->
  tag_in ty Parser.leaf_tags = false /\ (ty =? "LPAREN") = false.
Proof.
  unfold tag_in, Parser.leaf_tags, Parser.atom_start. simpl. intros H.
  repeat (apply orb_false_iff in H; destruct H as [-> H]).
  split; reflexivity.
Qed.

Ltac use_post P E :=
  rewrite E in P; cbn [post] in P;
  let Hc := fresh "Hc" in
  let used := fresh "used" in
  let Hu := fresh "Hu" in
  destruct P as (Hc & (used & Hu & _) & _).

Lemma parser_raises_only : forall fuel,
  (forall self e, cursor_ok self -> Parser.regex fuel self = Raise e ->
     parser_raises (tokens_left self) e)
  /\ (forall t0 self e, cursor_ok self ->
        Parser.regex_while fuel t0 self = Raise e ->
        parser_raises (tokens_left self) e)
  /\ (forall self e, cursor_ok self -> Parser.term fuel self = Raise e ->
        parser_raises (tokens_left self) e)
  /\ (forall t0 self e, cursor_ok self ->
        Parser.term_while fuel t0 self = Raise e ->
        parser_raises (tokens_left self) e)
  /\ (forall self e, cursor_ok self -> Parser.factor fuel self = Raise e ->
        parser_raises (tokens_left self) e)
  /\ (forall t0 self e, cursor_ok self ->
        Parser.factor_while fuel t0 self = Raise e ->
        parser_raises (tokens_left self) e)
  /\ (forall self e, cursor_ok self -> Parser.atom fuel self = Raise e ->
        parser_raises (tokens_left self) e).
Proof.
  induction fuel as [|fuel (IHr & IHrw & IHt & IHtw & IHf & IHfw & IHa)];
    [repeat split; intros; discriminate|].
  destruct (parser_post fuel) as (Pr & Prw & Pt & Ptw & Pf & Pfw & Pa).
  split; [|split; [|split; [|split; [|split; [|split]]]]].
  - (* regex *)
    intros self e Hc. rewrite regex_S.
    destruct (Parser.term fuel self) as [[t1 s1]|e1|] eqn:E1; simpl;
      try discriminate.
    + specialize (Pt self Hc). use_post Pt E1. intros H.
      rewrite Hu. apply parser_raises_app. apply (IHrw _ _ _ Hc0 H).
    + intros H; injection H as <-. apply (IHt _ _ Hc E1).
  - (* regex_while *)
    intros t0 self e Hc. simpl. unfold Parser.current_in.
    destruct (Parser.current_token self) as [tok|] eqn:Hcur; [|discriminate].
    destruct (tag_in _ _); [|discriminate].
    rewrite (current_Some _ _ Hc Hcur).
    pose proof (cursor_ok_advance self) as Hca.
    destruct (Parser.term fuel (Parser.advance self))
      as [[t1 s1]|e1|] eqn:E1; simpl; try discriminate.
    + specialize (Pt _ Hca). use_post Pt E1. intros H.
      rewrite Hu. apply (parser_raises_app (tok :: used)).
      apply (IHrw _ _ _ Hc0 H).
    + intros H; injection H as <-.
      apply (parser_raises_app [tok]). apply (IHt _ _ Hca E1).
  - (* term *)
    intros self e Hc. rewrite term_S.
    destruct (Parser.factor fuel self) as [[t1 s1]|e1|] eqn:E1; simpl;
      try discriminate.
    + specialize (Pf self Hc). use_post Pf E1. intros H.
      rewrite Hu. apply parser_raises_app. apply (IHtw _ _ _ Hc0 H).
    + intros H; injection H as <-. apply (IHf _ _ Hc E1).
  - (* term_while *)
    intros t0 self e Hc. simpl. unfold Parser.current_in.
    destruct (Parser.current_token self) as [tok|] eqn:Hcur; [|discriminate].
    destruct (tag_in _ _); [|discriminate].
    destruct (Parser.factor fuel self) as [[t1 s1]|e1|] eqn:E1; simpl;
      try discriminate.
    + specialize (Pf self Hc). use_post Pf E1. intros H.
      rewrite Hu. apply parser_raises_app. apply (IHtw _ _ _ Hc0 H).
    + intros H; injection H as <-. apply (IHf _ _ Hc E1).
  - (* factor *)
    intros self e Hc. rewrite factor_S.
    destruct (Parser.atom fuel self) as [[t1 s1]|e1|] eqn:E1; simpl;
      try discriminate.
    + specialize (Pa self Hc). use_post Pa E1. intros H.
      rewrite Hu. apply parser_raises_app. apply (IHfw _ _ _ Hc0 H).
    + intros H; injection H as <-. apply (IHa _ _ Hc E1).
  - (* factor_while *)
    intros t0 self e Hc. simpl.
    destruct (Parser.current_token self) as [quant|] eqn:Hcur; [|discriminate].
    destruct (tag_in _ _); [|discriminate].
    rewrite (current_Some _ _ Hc Hcur).
    pose proof (cursor_ok_advance self) as Hca.
    destruct (type quant =? "STAR");
      [intros H; apply (parser_raises_app [quant]), (IHfw _ _ _ Hca H)|].
    destruct (type quant =? "QUANT");
      [intros H; apply (parser_raises_app [quant]), (IHfw _ _ _ Hca H)|].
    intros H. rewrite <- (current_Some _ _ Hc Hcur). apply (IHfw _ _ _ Hc H).
  - (* atom *)
    intros self e Hc. simpl.
    destruct (Parser.current_token self) as [tok|] eqn:Hcur;
      [|intros H; injection H as <-; left; reflexivity].
    pose proof (current_Some _ _ Hc Hcur) as Hl0.
    destruct (tag_in (type tok) Parser.leaf_tags) eqn:Hleaf; [discriminate|].
    destruct (type tok =? "LPAREN") eqn:Hlp.
    + pose proof (cursor_ok_advance self) as Hca.
      destruct (Parser.regex fuel (Parser.advance self))
        as [[t1 s1]|e1|] eqn:E1; simpl; try discriminate.
      * intros H. right; left.
        destruct (Parser.current_token s1); [|congruence].
        destruct (negb _); [congruence | discriminate].
      * intros H; injection H as <-. rewrite Hl0.
        apply (parser_raises_app [tok]), (IHr _ _ Hca E1).
    + intros H; injection H as <-. right; right. exists tok.
      split; [reflexivity|]. split; [rewrite Hl0; left; reflexivity|].
      apply not_atom_start; assumption.
Qed.

(** ** X8 *)

Lemma atom_unexpected fuel self tok :
  Parser.current_token self = Some tok ->
  tag_in (type tok) Parser.atom_start = false ->
  Parser.atom (S fuel) self = Raise (Unexpected_token tok).
Proof.
  intros H Htag. destruct (atom_start_split _ Htag) as [Hleaf Hlp].
  simpl. rewrite H, Hleaf, Hlp. reflexivity.
Qed.

Lemma atom_group fuel self lp :
  Parser.current_token self = Some lp -> type lp = "LPAREN" ->
  Parser.atom (S fuel) self
  = bind (Parser.regex fuel (Parser.advance self))
      (fun '(node, self) =>
         match Parser.current_token self with
         | None => Raise Unclosed_parenthesis
         | Some tok' =>
             if negb (type tok' =? "RPAREN") then Raise Unclosed_parenthesis
             else Ret (Node "GROUP" node PyNone, Parser.advance self)
         end).
Proof. intros H Hlp. simpl. rewrite H, Hlp. reflexivity. Qed.

(** Where an atom is required: what [regex] does in front of a token that
    cannot start one, and at the end of the input. *)
Lemma regex_unexpected fuel self tok :
  Parser.current_token self = Some tok ->
  tag_in (type tok) Parser.atom_start = false ->
  Parser.regex (S (S (S (S fuel)))) self = Raise (Unexpected_token tok).
Proof.
  intros H Htag. rewrite regex_S, term_S, factor_S.
  rewrite (atom_unexpected _ _ _ H Htag). reflexivity.
Qed.

Lemma regex_end_of_input fuel self :
  Parser.current_token self = None ->
  Parser.regex (S (S (S (S fuel)))) self = Raise AttributeError.
Proof.
  intros H. rewrite regex_S, term_S, factor_S.
  rewrite (atom_end_of_input _ _ H). reflexivity.
Qed.

Lemma parse_unfold toks :
  Parser.parse toks
  = ('(tree, _) <- Parser.regex (S (S (S (S (4 * length toks)))))
                     (Parser.init toks) ;;
     Ret tree).
Proof.
  unfold Parser.parse, Parser.parse_from.
  replace (4 * length toks + 4) with (S (S (S (S (4 * length toks)))))
    by lia.
  reflexivity.
Qed.

(** X8. A token that cannot start an atom (a postfix operator, 'ALT',
    'RPAREN') is refused with "Unexpected token" on that token when it is
    the first token, and when it comes right after an opening
    parenthesis that starts the input: "*a", "|a", ")", "()" and "(*a)"
    all fail this way. *)
Theorem unexpected_token_where_atom_required (tok : Token)
  (rest : list Token) :
  tag_in (type tok) Parser.atom_start = false ->
  Parser.parse (tok :: rest) = Raise (Unexpected_token tok)
  /\ (forall lp, type lp = "LPAREN" ->
        Parser.parse (lp :: tok :: rest) = Raise (Unexpected_token tok)).
Proof.
  intros Htag. split.
  - rewrite parse_unfold.
    rewrite (regex_unexpected _ _ tok) by (reflexivity || exact Htag).
    reflexivity.
  - intros lp Hlp. rewrite parse_unfold, regex_S, term_S, factor_S.
    rewrite (atom_group _ _ lp) by (reflexivity || exact Hlp).
    simpl length.
    replace (4 * S (S (length rest)))
      with (S (S (S (S (4 * length rest + 4))))) by lia.
    rewrite (regex_unexpected _ _ tok) by (reflexivity || exact Htag).
    reflexivity.
Qed.

Lemma unexpected_token_where_atom_required_witness :
  let rp := mkToken "RPAREN" (py ")") in
  Parser.parse [mkToken "LPAREN" (py "("); rp] = Raise (Unexpected_token rp).
Proof.
  intros rp.
  refine (proj2 (unexpected_token_where_atom_required rp [] eq_refl)
            (mkToken "LPAREN" (py "(")) eq_refl).
Defined.

(** ** Phrases and what follows them *)

Lemma regex_loop_follows_term t0 l t rest :
  yields (P_regex_loop t0) l t -> ends_term rest -> ends_term (l ++ rest).
Proof.
  intros H Ht. apply yields_head in H.
  destruct H as [->|(alt & l' & -> & H)]; [exact Ht|].
  simpl. apply ends_term_ALT, H.
Qed.

Lemma yields_one_leaf tok :
  tag_in (type tok) Parser.leaf_tags = true -> yields P_regex [tok] (Tok tok).
Proof.
  intros H. apply (y_regex [tok] [] (Tok tok)); [|apply y_regex_stop].
  apply (y_term [tok] [] (Tok tok)); [|apply y_term_stop].
  apply (y_factor [tok] [] (Tok tok)); [apply y_leaf, H | constructor].
Qed.

(** ** X12 *)

Lemma yields_leaf_factor tok :
  tag_in (type tok) Parser.leaf_tags = true ->
  yields P_factor [tok] (Tok tok).
Proof.
  intros H. apply (y_factor [tok] [] (Tok tok)); [apply y_leaf, H | constructor].
Qed.

Lemma yields_chain_loop xs : forall t0,
  Forall (fun tok => tag_in (type tok) Parser.leaf_tags = true) xs ->
  yields (P_term_loop t0) xs
    (fold_left (fun acc tok => Node "CONCAT" acc (Tok tok)) xs t0).
Proof.
  induction xs as [|x xs IH]; intros t0 H; [apply y_term_stop|].
  inversion H as [|? ? Hx Hxs]; subst.
  apply (y_term_more t0 [x] xs (Tok x));
    [apply yields_leaf_factor, Hx | apply IH, Hxs].
Qed.

Lemma yields_chain x xs :
  Forall (fun tok => tag_in (type tok) Parser.leaf_tags = true) (x :: xs) ->
  yields P_term (x :: xs) (chain x xs).
Proof.
  intros H. inversion H as [|? ? Hx Hxs]; subst.
  apply (y_term [x] xs (Tok x));
    [apply yields_leaf_factor, Hx | apply yields_chain_loop, Hxs].
Qed.

(** X12. Precedence and associativity on leaves: a sequence of leaf tokens
    parses to the left-nested 'CONCAT' of its leaves, and sequences of
    leaves separated by 'ALT' tokens parse to the left-nested 'ALT' of
    their concatenations. "ab|cd|e" is ALT(ALT(CONCAT(a,b),CONCAT(c,d)),e);
    without 'ALT', "abc" is CONCAT(CONCAT(a,b),c). *)
Theorem concat_and_alt_left_associative (x : Token) (xs : list Token)
  (alts : list (Token * Token * list Token)) :
  Forall (fun tok => tag_in (type tok) Parser.leaf_tags = true) (x :: xs) ->
  Forall (fun '(alt, y, ys) =>
            type alt = "ALT"
            /\ Forall (fun tok => tag_in (type tok) Parser.leaf_tags = true)
                 (y :: ys)) alts ->
  Parser.parse
    (x :: xs ++ flat_map (fun '(alt, y, ys) => alt :: y :: ys) alts)
  = Ret (fold_left (fun acc '(alt, y, ys) => Node "ALT" acc (chain y ys))
           alts (chain x xs)).
Proof.
  intros Hx Halts.
  rewrite <- (app_nil_r (flat_map _ alts)), app_assoc.
  apply (parse_of_yields (x :: xs ++ flat_map _ alts) []); [|repeat split].
  apply (y_regex (x :: xs) _ (chain x xs)); [apply yields_chain, Hx|].
  generalize (chain x xs) as t0.
  induction Halts as [|[[alt y] ys] alts [Halt Hy] _ IH]; intros t0;
    [apply y_regex_stop|].
  apply (y_regex_more t0 alt (y :: ys) _ (chain y ys));
    [exact Halt | apply yields_chain, Hy | apply IH].
Qed.

Lemma concat_and_alt_left_associative_witness :
  let c := fun s => mkToken "CHAR" (py s) in
  let alt := mkToken "ALT" (py "|") in
  Parser.parse [c "a"; c "b"; alt; c "c"; c "d"; alt; c "e"]
  = Ret (Node "ALT"
           (Node "ALT" (Node "CONCAT" (Tok (c "a")) (Tok (c "b")))
                       (Node "CONCAT" (Tok (c "c")) (Tok (c "d"))))
           (Tok (c "e"))).
Proof.
  intros c alt.
  refine (concat_and_alt_left_associative (c "a") [c "b"]
            [(alt, c "c", [c "d"]); (alt, c "e", [])] _ _).
  - repeat constructor.
  - repeat constructor.
Defined.

(** * The serializer and the tokens it was given *)

Lemma no_parens_app l1 l2 : no_parens (l1 ++ l2) = no_parens l1 ++ no_parens l2.
Proof. apply filter_app. Qed.

Lemma tokens_of_STAR t r :
  tokens_of (Node "STAR" t r)
  = [LPAREN_token] ++ tokens_of t ++ [RPAREN_token] ++ [STAR_token].
Proof. reflexivity. Qed.

Lemma tokens_of_QUANT t q :
  tokens_of (Node "QUANT" t (Tok q)) = tokens_of t ++ [q].
Proof. reflexivity. Qed.

Lemma tokens_of_CONCAT l r :
  tokens_of (Node "CONCAT" l r) = tokens_of l ++ tokens_of r.
Proof. reflexivity. Qed.

Lemma tokens_of_ALT l r :
  tokens_of (Node "ALT" l r)
  = [LPAREN_token] ++ tokens_of l ++ [ALT_token] ++ tokens_of r
    ++ [RPAREN_token].
Proof. reflexivity. Qed.

Lemma tokens_of_GROUP t r :
  tokens_of (Node "GROUP" t r)
  = [LPAREN_token] ++ tokens_of t ++ [RPAREN_token].
Proof. reflexivity. Qed.

Lemma wrap_STAR t q : type q = "STAR" -> wrap t q = Node "STAR" t PyNone.
Proof. intros H. unfold wrap. rewrite H. reflexivity. Qed.

Lemma wrap_QUANT t q : type q = "QUANT" -> wrap t q = Node "QUANT" t (Tok q).
Proof. intros H. unfold wrap. rewrite H. reflexivity. Qed.

Lemma no_parens_paren tok :
  tag_in (type tok) ["LPAREN"; "RPAREN"] = true -> no_parens [tok] = [].
Proof. intros H. unfold no_parens. simpl. rewrite H. reflexivity. Qed.

Lemma no_parens_one tok :
  tag_in (type tok) ["LPAREN"; "RPAREN"] = false -> no_parens [tok] = [tok].
Proof. intros H. unfold no_parens. simpl. rewrite H. reflexivity. Qed.

Local Arguments no_parens : simpl never.

Section SerializerTokens.

Variable isalnum_non_ascii : char -> bool.

Local Abbreviation good_token := (good_token isalnum_non_ascii).

Lemma good_STAR q : good_token q -> type q = "STAR" -> q = STAR_token.
Proof. intros [lx H] Hq. destruct H; try discriminate Hq; reflexivity. Qed.

Lemma good_ALT q : good_token q -> type q = "ALT" -> q = ALT_token.
Proof. intros [lx H] Hq. destruct H; try discriminate Hq; reflexivity. Qed.

Lemma good_LPAREN q : good_token q -> type q = "LPAREN" -> q = LPAREN_token.
Proof. intros [lx H] Hq. destruct H; try discriminate Hq; reflexivity. Qed.

Lemma good_RPAREN q : good_token q -> type q = "RPAREN" -> q = RPAREN_token.
Proof. intros [lx H] Hq. destruct H; try discriminate Hq; reflexivity. Qed.

Lemma postfix_not_paren q :
  is_postfix q -> tag_in (type q) ["LPAREN"; "RPAREN"] = false.
Proof. intros [_ [H|H]]; rewrite H; reflexivity. Qed.

Lemma wrap_no_parens ps : forall t,
  Forall good_token ps -> Forall is_postfix ps ->
  no_parens (tokens_of (fold_left wrap ps t))
  = no_parens (tokens_of t) ++ no_parens ps.
Proof.
  induction ps as [|q ps IH]; intros t Hg Hp; cbn [fold_left].
  - rewrite app_nil_r. reflexivity.
  - inversion Hg as [|? ? Hgq Hgps]; inversion Hp as [|? ? Hq Hps]; subst.
    rewrite (IH _ Hgps Hps).
    change (q :: ps) with ([q] ++ ps).
    rewrite no_parens_app, app_assoc. f_equal.
    rewrite (no_parens_one q (postfix_not_paren _ Hq)).
    destruct Hq as [_ [Hq|Hq]].
    + rewrite (wrap_STAR _ _ Hq), tokens_of_STAR, !no_parens_app.
      rewrite (good_STAR _ Hgq Hq).
      rewrite (no_parens_paren LPAREN_token), (no_parens_paren RPAREN_token),
        (no_parens_one STAR_token) by reflexivity.
      reflexivity.
    + rewrite (wrap_QUANT _ _ Hq), tokens_of_QUANT, no_parens_app.
      rewrite (no_parens_one q) by (rewrite Hq; reflexivity).
      reflexivity.
Qed.

(** Apart from parentheses, the tokens [compile] writes for the tree of a
    phrase are the tokens of the phrase, in their order. *)
Lemma yields_no_parens ph l t :
  yields ph l t -> Forall good_token l ->
  no_parens (tokens_of t)
  = match ph with
    | P_term_loop t0 | P_regex_loop t0 => no_parens (tokens_of t0)
    | _ => []
    end ++ no_parens l.
Proof.
  induction 1 as [tok Hleaf | lp r rp t Hlp Hrp _ IH | a ps t _ IH Hps
                 | f l tf t _ IHf _ IHl | t0
                 | t0 f l tf t _ IHf _ IHl
                 | tm l tt t _ IHtm _ IHl | t0
                 | t0 alt tm l tt t Halt _ IHtm _ IHl];
    intros Hg; cbn [app] in *.
  - reflexivity.
  - inversion Hg as [|? ? _ Hg']; subst.
    apply Forall_app in Hg'. destruct Hg' as [Hgr _].
    change (lp :: r ++ [rp]) with ([lp] ++ r ++ [rp]).
    rewrite tokens_of_GROUP, !no_parens_app, (IH Hgr).
    rewrite (no_parens_paren LPAREN_token), (no_parens_paren RPAREN_token)
      by reflexivity.
    rewrite (no_parens_paren lp), (no_parens_paren rp)
      by (rewrite ?Hlp, ?Hrp; reflexivity).
    reflexivity.
  - apply Forall_app in Hg. destruct Hg as [Hga Hgps].
    rewrite (wrap_no_parens _ _ Hgps Hps), (IH Hga), no_parens_app.
    reflexivity.
  - apply Forall_app in Hg. destruct Hg as [Hgf Hgl].
    rewrite (IHl Hgl), (IHf Hgf), no_parens_app. reflexivity.
  - rewrite app_nil_r. reflexivity.
  - apply Forall_app in Hg. destruct Hg as [Hgf Hgl].
    rewrite (IHl Hgl), tokens_of_CONCAT.
    rewrite !no_parens_app, (IHf Hgf), app_assoc. reflexivity.
  - apply Forall_app in Hg. destruct Hg as [Hgt Hgl].
    rewrite (IHl Hgl), (IHtm Hgt), no_parens_app. reflexivity.
  - rewrite app_nil_r. reflexivity.
  - inversion Hg as [|? ? Hgalt Hg']; subst.
    apply Forall_app in Hg'. destruct Hg' as [Hgt Hgl].
    rewrite (IHl Hgl), tokens_of_ALT.
    change (alt :: tm ++ l) with ([alt] ++ tm ++ l).
    rewrite !no_parens_app, (IHtm Hgt).
    rewrite (good_ALT _ Hgalt Halt).
    rewrite (no_parens_paren LPAREN_token), (no_parens_paren RPAREN_token)
      by reflexivity.
    cbn [app]. rewrite app_nil_r, <- !app_assoc. reflexivity.
Qed.

End SerializerTokens.

Section SerializerIdentity.

Variable isalnum_non_ascii : char -> bool.

Local Abbreviation tokenize := (Tokenizer.tokenize isalnum_non_ascii).
Local Abbreviation good_token := (good_token isalnum_non_ascii).

Lemma wrap_tokens ps : forall t,
  Forall is_postfix ps ->
  Forall (fun tok => tag_in (type tok) ["STAR"; "ALT"] = false) ps ->
  tokens_of (fold_left wrap ps t) = tokens_of t ++ ps.
Proof.
  induction ps as [|q ps IH]; intros t Hp Hn; cbn [fold_left].
  - rewrite app_nil_r. reflexivity.
  - inversion Hp as [|? ? Hq Hps]; inversion Hn as [|? ? Hnq Hnps]; subst.
    rewrite (IH _ Hps Hnps).
    destruct Hq as [_ [Hq|Hq]]; [rewrite Hq in Hnq; discriminate|].
    rewrite (wrap_QUANT _ _ Hq), tokens_of_QUANT, <- app_assoc. reflexivity.
Qed.

(** Without 'STAR' and 'ALT' tokens, the tokens [compile] writes for the
    tree of a phrase are the tokens of the phrase. *)
Lemma yields_same_tokens ph l t :
  yields ph l t -> Forall good_token l ->
  Forall (fun tok => tag_in (type tok) ["STAR"; "ALT"] = false) l ->
  tokens_of t
  = match ph with
    | P_term_loop t0 | P_regex_loop t0 => tokens_of t0
    | _ => []
    end ++ l.
Proof.
  induction 1 as [tok Hleaf | lp r rp t Hlp Hrp _ IH | a ps t _ IH Hps
                 | f l tf t _ IHf _ IHl | t0
                 | t0 f l tf t _ IHf _ IHl
                 | tm l tt t _ IHtm _ IHl | t0
                 | t0 alt tm l tt t Halt _ IHtm _ IHl];
    intros Hg Hn; cbn [app] in *.
  - reflexivity.
  - inversion Hg as [|? ? Hglp Hg']; inversion Hn as [|? ? _ Hn']; subst.
    apply Forall_app in Hg'. destruct Hg' as [Hgr Hgrp].
    apply Forall_app in Hn'. destruct Hn' as [Hnr _].
    inversion Hgrp as [|? ? Hgrp' _]; subst.
    rewrite tokens_of_GROUP, (IH Hgr Hnr).
    rewrite (good_LPAREN _ _ Hglp Hlp), (good_RPAREN _ _ Hgrp' Hrp).
    reflexivity.
  - apply Forall_app in Hg. destruct Hg as [Hga _].
    apply Forall_app in Hn. destruct Hn as [Hna Hnps].
    rewrite (wrap_tokens _ _ Hps Hnps), (IH Hga Hna). reflexivity.
  - apply Forall_app in Hg. destruct Hg as [Hgf Hgl].
    apply Forall_app in Hn. destruct Hn as [Hnf Hnl].
    rewrite (IHl Hgl Hnl), (IHf Hgf Hnf). reflexivity.
  - rewrite app_nil_r. reflexivity.
  - apply Forall_app in Hg. destruct Hg as [Hgf Hgl].
    apply Forall_app in Hn. destruct Hn as [Hnf Hnl].
    rewrite (IHl Hgl Hnl), tokens_of_CONCAT, (IHf Hgf Hnf), app_assoc.
    reflexivity.
  - apply Forall_app in Hg. destruct Hg as [Hgt Hgl].
    apply Forall_app in Hn. destruct Hn as [Hnt Hnl].
    rewrite (IHl Hgl Hnl), (IHtm Hgt Hnt). reflexivity.
  - rewrite app_nil_r. reflexivity.
  - inversion Hn as [|? ? Hnalt _]; subst.
    rewrite Halt in Hnalt. discriminate.
Qed.

End SerializerIdentity.

(** ** Type tags without a case *)

Lemma unknown_tag ty :
  (ty =? "CHAR") = false -> (ty =? "STAR") = false ->
  (ty =? "CONCAT") = false -> (ty =? "ALT") = false ->
  (ty =? "CLASS") = false -> (ty =? "DOT") = false ->
  (ty =? "START") = false -> (ty =? "END") = false ->
  (ty =? "ESCAPED_CHAR") = false -> (ty =? "QUANT") = false ->
  (ty =? "GROUP") = false ->
  tag_in ty compile_tags = false.
Proof.
  intros. unfold tag_in, compile_tags. cbn [existsb].
  repeat match goal with H : (_ =? _) = false |- _ => rewrite H; clear H end.
  reflexivity.
Qed.

Lemma raised_in_left ty l r e :
  (e = AttributeError
   \/ exists ty', e = Unknown_node_type ty' /\ In ty' (tags l)
                  /\ tag_in ty' compile_tags = false) ->
  e = AttributeError
  \/ exists ty', e = Unknown_node_type ty' /\ In ty' (tags (Node ty l r))
                 /\ tag_in ty' compile_tags = false.
Proof.
  intros [->|(ty' & -> & Hin & Htag)]; [left; reflexivity|].
  right. exists ty'. split; [reflexivity|]. split; [|exact Htag].
  simpl. right. apply in_or_app. left. exact Hin.
Qed.

Lemma raised_in_right ty l r e :
  (e = AttributeError
   \/ exists ty', e = Unknown_node_type ty' /\ In ty' (tags r)
                  /\ tag_in ty' compile_tags = false) ->
  e = AttributeError
  \/ exists ty', e = Unknown_node_type ty' /\ In ty' (tags (Node ty l r))
                 /\ tag_in ty' compile_tags = false.
Proof.
  intros [->|(ty' & -> & Hin & Htag)]; [left; reflexivity|].
  right. exists ty'. split; [reflexivity|]. split; [|exact Htag].
  simpl. right. apply in_or_app. right. exact Hin.
Qed.

(** * The program under the recursion limit *)

(** ** Runs that the limit may stop *)

Lemma simulates_bind {A B} (Q1 : A -> Prop) (Q : B -> Prop) b1 u1
  (kb ku : A -> outcome B) :
  simulates Q1 b1 u1 ->
  (forall a, Q1 a -> simulates Q (kb a) (ku a)) ->
  simulates Q (bind b1 kb) (bind u1 ku).
Proof.
  intros H1 Hk. destruct b1 as [a|e|]; cbn [simulates bind] in *.
  - destruct H1 as [-> Ha]. cbn [bind]. apply Hk, Ha.
  - destruct H1 as [->| ->]; [left; reflexivity | right; reflexivity].
  - rewrite H1. reflexivity.
Qed.

Lemma simulates_invoke {A} (Q : A -> Prop) frames body (u : outcome A) :
  (forall d, frames = S d -> simulates Q (body d) u) ->
  simulates Q (invoke frames body) u.
Proof.
  intros H. destruct frames as [|d]; [left; reflexivity|].
  apply H. reflexivity.
Qed.

Lemma simulates_weaken {A} (Q Q' : A -> Prop) b u :
  simulates Q b u -> (forall a, Q a -> Q' a) -> simulates Q' b u.
Proof.
  intros H HQ. destruct b as [a|e|]; cbn [simulates] in *; auto.
  destruct H as [-> Ha]. auto.
Qed.

Lemma simulates_Ret {A} (Q : A -> Prop) a : Q a -> simulates Q (Ret a) (Ret a).
Proof. intros H. split; [reflexivity | exact H]. Qed.

Lemma simulates_Raise {A} (Q : A -> Prop) e : simulates Q (Raise e) (Raise e).
Proof. right. reflexivity. Qed.

(** ** The tokenizer *)

Section LimitTokenizer.

Variable isalnum_non_ascii : char -> bool.

Local Abbreviation any := (fun _ => True).

Lemma get_next_token_enough d self :
  Limit.get_next_token isalnum_non_ascii (S d) self
  = Tokenizer.get_next_token isalnum_non_ascii self.
Proof.
  unfold Limit.get_next_token, Tokenizer.get_next_token, Limit.new_Token.
  cbn [invoke].
  destruct (nth_error _ _) as [c|]; [|reflexivity].
  repeat match goal with
         | |- context [if ?b then _ else _] => destruct b
         end; reflexivity.
Qed.

Lemma get_next_token_simulates frames self :
  simulates any (Limit.get_next_token isalnum_non_ascii frames self)
    (Tokenizer.get_next_token isalnum_non_ascii self).
Proof.
  destruct frames as [|d].
  - unfold Limit.get_next_token, Tokenizer.get_next_token, Limit.new_Token.
    cbn [invoke].
    destruct (nth_error _ _) as [c|]; [|apply simulates_Ret; exact I].
    repeat match goal with
           | |- context [if ?b then _ else _] => destruct b
           end; cbn [bind];
      try (left; reflexivity); try (right; reflexivity).
    + destruct (Tokenizer.scan_until _ _ _ _) as [[cls s]| |]; cbn [bind];
        try (right; reflexivity); try reflexivity.
      destruct (Tokenizer.stopped_at _ _); cbn [bind];
        [left; reflexivity | right; reflexivity].
    + destruct (Tokenizer.scan_until _ _ _ _) as [[q s]| |]; cbn [bind];
        try (right; reflexivity); try reflexivity.
      destruct (Tokenizer.stopped_at _ _); cbn [bind];
        [left; reflexivity | right; reflexivity].
  - rewrite get_next_token_enough.
    destruct (Tokenizer.get_next_token _ _) as [a|e|]; cbn [simulates];
      auto.
Qed.

Lemma tokenize_loop_enough fuel : forall d self tokens,
  Limit.tokenize_loop isalnum_non_ascii fuel (S (S d)) self tokens
  = Tokenizer.tokenize_loop isalnum_non_ascii fuel self tokens.
Proof.
  induction fuel as [|fuel IH]; intros d self tokens; [reflexivity|].
  cbn [Limit.tokenize_loop Tokenizer.tokenize_loop invoke].
  destruct (_ <? _)%nat; [|reflexivity].
  rewrite get_next_token_enough.
  destruct (Tokenizer.get_next_token _ _) as [[tok s]| |]; cbn [bind];
    try reflexivity.
  apply IH.
Qed.

Lemma tokenize_loop_simulates fuel : forall frames self tokens,
  simulates any (Limit.tokenize_loop isalnum_non_ascii fuel frames self tokens)
    (Tokenizer.tokenize_loop isalnum_non_ascii fuel self tokens).
Proof.
  induction fuel as [|fuel IH]; intros frames self tokens; [reflexivity|].
  cbn [Limit.tokenize_loop Tokenizer.tokenize_loop].
  destruct (_ <? _)%nat; [|apply simulates_Ret; exact I].
  apply (simulates_bind any).
  - apply simulates_invoke. intros d _. apply get_next_token_simulates.
  - intros [tok s] _. apply IH.
Qed.

(** Three frames are enough for [tokenize], whatever the pattern: its
    calls nest three deep, [tokenize], [get_next_token] and
    [Token.__init__]. *)
Lemma tokenize_enough frames s :
  3 <= frames ->
  Limit.tokenize isalnum_non_ascii frames s
  = Tokenizer.tokenize isalnum_non_ascii s.
Proof.
  intros H. destruct frames as [|[|[|d]]]; try lia.
  unfold Limit.tokenize, Tokenizer.tokenize. cbn [invoke bind].
  apply tokenize_loop_enough.
Qed.

Lemma tokenize_simulates frames s :
  simulates any (Limit.tokenize isalnum_non_ascii frames s)
    (Tokenizer.tokenize isalnum_non_ascii s).
Proof.
  unfold Limit.tokenize, Tokenizer.tokenize.
  destruct frames as [|d]; [left; reflexivity|]. cbn [invoke bind].
  apply tokenize_loop_simulates.
Qed.

Lemma tokenize_limit_Ret frames s toks :
  Limit.tokenize isalnum_non_ascii frames s = Ret toks ->
  Tokenizer.tokenize isalnum_non_ascii s = Ret toks.
Proof.
  intros H. pose proof (tokenize_simulates frames s) as Hs.
  rewrite H in Hs. exact (proj1 Hs).
Qed.

End LimitTokenizer.

(** ** The parser *)

(** A call that returns at once: [advance], [Node.__init__],
    [Token.__repr__], [Parser.__init__]. *)
Lemma simulates_step {A B} (Q : B -> Prop) frames (a : A)
  (kb : A -> outcome B) u :
  (1 <= frames -> simulates Q (kb a) u) ->
  simulates Q (bind (invoke frames (fun _ => Ret a)) kb) u.
Proof.
  intros H. destruct frames as [|d]; [left; reflexivity|].
  apply H. lia.
Qed.

Lemma group_depth_GROUP t r :
  group_depth (Node "GROUP" t r) = S (Nat.max (group_depth t) (group_depth r)).
Proof. reflexivity. Qed.

Lemma group_depth_ALT l r :
  group_depth (Node "ALT" l r) = Nat.max (group_depth l) (group_depth r).
Proof. reflexivity. Qed.

Lemma group_depth_CONCAT l r :
  group_depth (Node "CONCAT" l r) = Nat.max (group_depth l) (group_depth r).
Proof. reflexivity. Qed.

Lemma group_depth_STAR t :
  group_depth (Node "STAR" t PyNone) = group_depth t.
Proof. cbn [group_depth String.eqb Ascii.eqb Bool.eqb]. lia. Qed.

Lemma group_depth_QUANT t q :
  group_depth (Node "QUANT" t (Tok q)) = group_depth t.
Proof. cbn [group_depth String.eqb Ascii.eqb Bool.eqb]. lia. Qed.

Local Arguments group_depth : simpl never.

Ltac step_call :=
  unfold Limit.advance, Limit.new_Node, Limit.repr;
  apply simulates_step; intros ?.

(** Under the limit the methods of the parser follow their runs on the
    unbounded stack, and a tree they return had the frames it needs: four
    for each level of groups, and those of the method. *)
Lemma limit_simulates : forall fuel,
  (forall d self,
     simulates (within 4 d) (Limit.regex fuel d self)
       (Parser.regex fuel self))
  /\ (forall d t0 self, 4 * group_depth t0 + 4 <= d ->
        simulates (within 4 d) (Limit.regex_while fuel d t0 self)
          (Parser.regex_while fuel t0 self))
  /\ (forall d self,
        simulates (within 3 d) (Limit.term fuel d self)
          (Parser.term fuel self))
  /\ (forall d t0 self, 4 * group_depth t0 + 3 <= d ->
        simulates (within 3 d) (Limit.term_while fuel d t0 self)
          (Parser.term_while fuel t0 self))
  /\ (forall d self,
        simulates (within 2 d) (Limit.factor fuel d self)
          (Parser.factor fuel self))
  /\ (forall d t0 self, 4 * group_depth t0 + 2 <= d ->
        simulates (within 2 d) (Limit.factor_while fuel d t0 self)
          (Parser.factor_while fuel t0 self))
  /\ (forall d self,
        simulates (within 1 d) (Limit.atom fuel d self)
          (Parser.atom fuel self)).
Proof.
  induction fuel as [|fuel (IHr & IHrw & IHt & IHtw & IHf & IHfw & IHa)];
    [repeat split; intros; reflexivity|].
  split; [|split; [|split; [|split; [|split; [|split]]]]].
  - (* regex *)
    intros d self. cbn [Limit.regex Parser.regex].
    apply (simulates_bind (within 4 d)).
    + apply simulates_invoke. intros d' ->.
      apply (simulates_weaken _ _ _ _ (IHt d' self)).
      intros [t s]. unfold within. cbn [fst]. lia.
    + intros [t s] Hw. apply IHrw, Hw.
  - (* regex_while *)
    intros d t0 self H0. cbn [Limit.regex_while Parser.regex_while].
    destruct (Parser.current_in self ["ALT"]);
      [|apply simulates_Ret; exact H0].
    step_call.
    apply (simulates_bind (within 4 d)).
    + apply simulates_invoke. intros d' ->.
      apply (simulates_weaken _ _ _ _ (IHt d' _)).
      intros [t s]. unfold within. cbn [fst]. lia.
    + intros [t s] Hw. step_call. apply IHrw.
      unfold within in Hw. cbn [fst] in Hw. rewrite group_depth_ALT. lia.
  - (* term *)
    intros d self. cbn [Limit.term Parser.term].
    apply (simulates_bind (within 3 d)).
    + apply simulates_invoke. intros d' ->.
      apply (simulates_weaken _ _ _ _ (IHf d' self)).
      intros [t s]. unfold within. cbn [fst]. lia.
    + intros [t s] Hw. apply IHtw, Hw.
  - (* term_while *)
    intros d t0 self H0. cbn [Limit.term_while Parser.term_while].
    destruct (Parser.current_in self Parser.atom_start);
      [|apply simulates_Ret; exact H0].
    apply (simulates_bind (within 3 d)).
    + apply simulates_invoke. intros d' ->.
      apply (simulates_weaken _ _ _ _ (IHf d' _)).
      intros [t s]. unfold within. cbn [fst]. lia.
    + intros [t s] Hw. step_call. apply IHtw.
      unfold within in Hw. cbn [fst] in Hw. rewrite group_depth_CONCAT. lia.
  - (* factor *)
    intros d self. cbn [Limit.factor Parser.factor].
    apply (simulates_bind (within 2 d)).
    + apply simulates_invoke. intros d' ->.
      apply (simulates_weaken _ _ _ _ (IHa d' self)).
      intros [t s]. unfold within. cbn [fst]. lia.
    + intros [t s] Hw. apply IHfw, Hw.
  - (* factor_while *)
    intros d t0 self H0. cbn [Limit.factor_while Parser.factor_while].
    destruct (Parser.current_token self) as [quant|];
      [|apply simulates_Ret; exact H0].
    destruct (tag_in (type quant) ["STAR"; "QUANT"]);
      [|apply simulates_Ret; exact H0].
    destruct (type quant =? "STAR").
    { step_call. step_call. apply IHfw. rewrite group_depth_STAR. exact H0. }
    destruct (type quant =? "QUANT").
    { step_call. step_call. apply IHfw. rewrite group_depth_QUANT. exact H0. }
    apply IHfw, H0.
  - (* atom *)
    intros d self. cbn [Limit.atom Parser.atom].
    destruct (Parser.current_token self) as [tok|];
      [|apply simulates_Raise].
    destruct (tag_in (type tok) Parser.leaf_tags).
    { step_call. apply simulates_Ret. unfold within. cbn [fst].
      change (group_depth (Tok tok)) with 0. lia. }
    destruct (type tok =? "LPAREN").
    + step_call.
      apply (simulates_bind (within 5 d)).
      * apply simulates_invoke. intros d' ->.
        apply (simulates_weaken _ _ _ _ (IHr d' _)).
        intros [t s]. unfold within. cbn [fst]. lia.
      * intros [t s] Hw.
        destruct (Parser.current_token s) as [tok'|];
          [|apply simulates_Raise].
        destruct (negb (type tok' =? "RPAREN")); [apply simulates_Raise|].
        step_call. step_call. apply simulates_Ret.
        unfold within in *. cbn [fst] in *. rewrite group_depth_GROUP.
        change (group_depth PyNone) with 0. lia.
    + step_call. apply simulates_Raise.
Qed.

(** ** The trees of the loops contain the tree they start from *)

Lemma factor_while_contains : forall fuel t0 self t s',
  Parser.factor_while fuel t0 self = Ret (t, s') ->
  group_depth t0 <= group_depth t.
Proof.
  induction fuel as [|fuel IH]; intros t0 self t s'; [discriminate|].
  cbn [Parser.factor_while].
  destruct (Parser.current_token self) as [quant|];
    [|intros H; injection H as <- _; lia].
  destruct (tag_in _ _); [|intros H; injection H as <- _; lia].
  destruct (type quant =? "STAR").
  { intros H. apply IH in H. rewrite group_depth_STAR in H. exact H. }
  destruct (type quant =? "QUANT").
  { intros H. apply IH in H. rewrite group_depth_QUANT in H. exact H. }
  apply IH.
Qed.

Lemma term_while_contains : forall fuel t0 self t s',
  Parser.term_while fuel t0 self = Ret (t, s') ->
  group_depth t0 <= group_depth t.
Proof.
  induction fuel as [|fuel IH]; intros t0 self t s'; [discriminate|].
  cbn [Parser.term_while].
  destruct (Parser.current_in _ _); [|intros H; injection H as <- _; lia].
  destruct (Parser.factor fuel self) as [[r s]| |]; cbn [bind];
    try discriminate.
  intros H. apply IH in H. rewrite group_depth_CONCAT in H. lia.
Qed.

Lemma regex_while_contains : forall fuel t0 self t s',
  Parser.regex_while fuel t0 self = Ret (t, s') ->
  group_depth t0 <= group_depth t.
Proof.
  induction fuel as [|fuel IH]; intros t0 self t s'; [discriminate|].
  cbn [Parser.regex_while].
  destruct (Parser.current_in _ _); [|intros H; injection H as <- _; lia].
  destruct (Parser.term fuel _) as [[r s]| |]; cbn [bind];
    try discriminate.
  intros H. apply IH in H. rewrite group_depth_ALT in H. lia.
Qed.

(** ** Enough frames *)

(** With the frames its tree needs, a method returns under the limit what
    it returns on the unbounded stack. *)
Lemma limit_enough : forall fuel,
  (forall d self t s',
     Parser.regex fuel self = Ret (t, s') -> 4 * group_depth t + 4 <= d ->
     Limit.regex fuel d self = Ret (t, s'))
  /\ (forall d t0 self t s',
        Parser.regex_while fuel t0 self = Ret (t, s') ->
        4 * group_depth t + 4 <= d ->
        Limit.regex_while fuel d t0 self = Ret (t, s'))
  /\ (forall d self t s',
        Parser.term fuel self = Ret (t, s') -> 4 * group_depth t + 3 <= d ->
        Limit.term fuel d self = Ret (t, s'))
  /\ (forall d t0 self t s',
        Parser.term_while fuel t0 self = Ret (t, s') ->
        4 * group_depth t + 3 <= d ->
        Limit.term_while fuel d t0 self = Ret (t, s'))
  /\ (forall d self t s',
        Parser.factor fuel self = Ret (t, s') -> 4 * group_depth t + 2 <= d ->
        Limit.factor fuel d self = Ret (t, s'))
  /\ (forall d t0 self t s',
        Parser.factor_while fuel t0 self = Ret (t, s') ->
        4 * group_depth t + 2 <= d ->
        Limit.factor_while fuel d t0 self = Ret (t, s'))
  /\ (forall d self t s',
        Parser.atom fuel self = Ret (t, s') -> 4 * group_depth t + 1 <= d ->
        Limit.atom fuel d self = Ret (t, s')).
Proof.
  induction fuel as [|fuel (IHr & IHrw & IHt & IHtw & IHf & IHfw & IHa)];
    [repeat split; intros; discriminate|].
  split; [|split; [|split; [|split; [|split; [|split]]]]].
  - (* regex *)
    intros d self t s'. cbn [Limit.regex Parser.regex].
    destruct (Parser.term fuel self) as [[t1 s1]| |] eqn:E1; cbn [bind];
      try discriminate.
    intros H Hd. pose proof (regex_while_contains _ _ _ _ _ H) as Hc.
    destruct d as [|d]; [lia|]. cbn [invoke bind].
    rewrite (IHt d _ _ _ E1) by lia. cbn [bind].
    apply IHrw; assumption.
  - (* regex_while *)
    intros d t0 self t s'. cbn [Limit.regex_while Parser.regex_while].
    destruct (Parser.current_in self ["ALT"]); [|auto].
    destruct (Parser.term fuel _) as [[t1 s1]| |] eqn:E1; cbn [bind];
      try discriminate.
    intros H Hd. pose proof (regex_while_contains _ _ _ _ _ H) as Hc.
    rewrite group_depth_ALT in Hc.
    destruct d as [|d]; [lia|].
    unfold Limit.advance, Limit.new_Node. cbn [invoke bind].
    rewrite (IHt d _ _ _ E1) by lia. cbn [bind].
    apply IHrw; assumption.
  - (* term *)
    intros d self t s'. cbn [Limit.term Parser.term].
    destruct (Parser.factor fuel self) as [[t1 s1]| |] eqn:E1; cbn [bind];
      try discriminate.
    intros H Hd. pose proof (term_while_contains _ _ _ _ _ H) as Hc.
    destruct d as [|d]; [lia|]. cbn [invoke bind].
    rewrite (IHf d _ _ _ E1) by lia. cbn [bind].
    apply IHtw; assumption.
  - (* term_while *)
    intros d t0 self t s'. cbn [Limit.term_while Parser.term_while].
    destruct (Parser.current_in self Parser.atom_start); [|auto].
    destruct (Parser.factor fuel _) as [[t1 s1]| |] eqn:E1; cbn [bind];
      try discriminate.
    intros H Hd. pose proof (term_while_contains _ _ _ _ _ H) as Hc.
    rewrite group_depth_CONCAT in Hc.
    destruct d as [|d]; [lia|].
    unfold Limit.new_Node. cbn [invoke bind].
    rewrite (IHf d _ _ _ E1) by lia. cbn [bind].
    apply IHtw; assumption.
  - (* factor *)
    intros d self t s'. cbn [Limit.factor Parser.factor].
    destruct (Parser.atom fuel self) as [[t1 s1]| |] eqn:E1; cbn [bind];
      try discriminate.
    intros H Hd. pose proof (factor_while_contains _ _ _ _ _ H) as Hc.
    destruct d as [|d]; [lia|]. cbn [invoke bind].
    rewrite (IHa d _ _ _ E1) by lia. cbn [bind].
    apply IHfw; assumption.
  - (* factor_while *)
    intros d t0 self t s'. cbn [Limit.factor_while Parser.factor_while].
    destruct (Parser.current_token self) as [quant|]; [|auto].
    destruct (tag_in _ _); [|auto].
    intros H Hd. destruct d as [|d]; [lia|].
    unfold Limit.advance, Limit.new_Node. cbn [invoke bind].
    destruct (type quant =? "STAR"); [apply IHfw; assumption|].
    destruct (type quant =? "QUANT"); apply IHfw; assumption.
  - (* atom *)
    intros d self t s'. cbn [Limit.atom Parser.atom].
    destruct (Parser.current_token self) as [tok|]; [|discriminate].
    intros H Hd. destruct d as [|d]; [lia|].
    unfold Limit.advance, Limit.new_Node, Limit.repr.
    cbn [invoke bind].
    destruct (tag_in (type tok) Parser.leaf_tags); [exact H|].
    destruct (type tok =? "LPAREN"); [|discriminate].
    destruct (Parser.regex fuel _) as [[t1 s1]| |] eqn:E1; cbn [bind] in *;
      try discriminate.
    destruct (Parser.current_token s1) as [tok'|] eqn:E2;
      [|discriminate].
    destruct (negb _) eqn:E3; [discriminate|].
    injection H as <- <-. rewrite group_depth_GROUP in Hd.
    rewrite (IHr d _ _ _ E1) by lia. cbn [bind]. rewrite E2, E3.
    reflexivity.
Qed.

(** ** [parse] under the limit *)

Lemma parse_simulates frames toks :
  simulates (fun t => 4 * group_depth t + 6 <= frames)
    (Limit.parse frames toks) (Parser.parse toks).
Proof.
  unfold Limit.parse, Parser.parse, Limit.parse_from, Parser.parse_from.
  apply simulates_step. intros _.
  apply simulates_invoke. intros d ->.
  apply (simulates_bind (within 5 d)).
  - apply simulates_invoke. intros d' ->.
    apply (simulates_weaken _ _ _ _
             (proj1 (limit_simulates _) d' (Parser.init toks))).
    intros [t s]. unfold within. cbn [fst]. lia.
  - intros [t s] Hw. apply simulates_Ret. unfold within in Hw.
    cbn [fst] in Hw. lia.
Qed.

Lemma parse_enough frames toks t :
  Parser.parse toks = Ret t -> 4 * group_depth t + 6 <= frames ->
  Limit.parse frames toks = Ret t.
Proof.
  unfold Limit.parse, Parser.parse, Limit.parse_from, Parser.parse_from.
  intros H Hd.
  destruct (Parser.regex _ _) as [[t1 s1]| |] eqn:E; cbn [bind] in H;
    try discriminate.
  injection H as ->.
  destruct frames as [|[|d]]; try lia. cbn [invoke bind].
  cbn [invoke bind].
  rewrite (proj1 (limit_enough _) d _ _ _ E) by lia. reflexivity.
Qed.

(** [parse] returns a tree under the limit exactly when it returns it on
    the unbounded stack and there are six frames, and four more for each
    level of groups in the tree. *)
Lemma parse_limit_iff frames toks t :
  Limit.parse frames toks = Ret t
  <-> Parser.parse toks = Ret t /\ 4 * group_depth t + 6 <= frames.
Proof.
  split.
  - intros H. pose proof (parse_simulates frames toks) as Hs.
    rewrite H in Hs. exact Hs.
  - intros [H Hd]. apply parse_enough; assumption.
Qed.

(** ** [compile] under the limit *)

Lemma height_pos t : 1 <= height t.
Proof. destruct t; simpl; lia. Qed.

Lemma limit_compile_S d t :
  Limit.compile (S d) t
  = (ty <- get_type t ;;
     if ty =? "CHAR" then get_value t
     else if ty =? "STAR" then
       match t with
       | Node _ left_ _ =>
           l <- Limit.compile d left_ ;; Ret (py "(" ++ l ++ py ")*")
       | _ => Raise AttributeError
       end
     else if ty =? "CONCAT" then
       match t with
       | Node _ left_ right_ =>
           l <- Limit.compile d left_ ;; r <- Limit.compile d right_ ;;
           Ret (l ++ r)
       | _ => Raise AttributeError
       end
     else if ty =? "ALT" then
       match t with
       | Node _ left_ right_ =>
           l <- Limit.compile d left_ ;; r <- Limit.compile d right_ ;;
           Ret (py "(" ++ l ++ py "|" ++ r ++ py ")")
       | _ => Raise AttributeError
       end
     else if ty =? "CLASS" then
       v <- get_value t ;; Ret (py "[" ++ v ++ py "]")
     else if ty =? "DOT" then Ret (py ".")
     else if ty =? "START" then Ret (py "^")
     else if ty =? "END" then Ret (py "$")
     else if ty =? "ESCAPED_CHAR" then
       v <- get_value t ;; Ret (py "\" ++ v)
     else if ty =? "QUANT" then
       match t with
       | Node _ left_ right_ =>
           l <- Limit.compile d left_ ;; q <- get_value right_ ;; Ret (l ++ q)
       | _ => Raise AttributeError
       end
     else if ty =? "GROUP" then
       match t with
       | Node _ left_ _ =>
           l <- Limit.compile d left_ ;; Ret (py "(" ++ l ++ py ")")
       | _ => Raise AttributeError
       end
     else Raise (Unknown_node_type ty)).
Proof. destruct t; reflexivity. Qed.

Lemma compile_eq t :
  compile t
  = (ty <- get_type t ;;
     if ty =? "CHAR" then get_value t
     else if ty =? "STAR" then
       match t with
       | Node _ left_ _ => l <- compile left_ ;; Ret (py "(" ++ l ++ py ")*")
       | _ => Raise AttributeError
       end
     else if ty =? "CONCAT" then
       match t with
       | Node _ left_ right_ =>
           l <- compile left_ ;; r <- compile right_ ;; Ret (l ++ r)
       | _ => Raise AttributeError
       end
     else if ty =? "ALT" then
       match t with
       | Node _ left_ right_ =>
           l <- compile left_ ;; r <- compile right_ ;;
           Ret (py "(" ++ l ++ py "|" ++ r ++ py ")")
       | _ => Raise AttributeError
       end
     else if ty =? "CLASS" then
       v <- get_value t ;; Ret (py "[" ++ v ++ py "]")
     else if ty =? "DOT" then Ret (py ".")
     else if ty =? "START" then Ret (py "^")
     else if ty =? "END" then Ret (py "$")
     else if ty =? "ESCAPED_CHAR" then
       v <- get_value t ;; Ret (py "\" ++ v)
     else if ty =? "QUANT" then
       match t with
       | Node _ left_ right_ =>
           l <- compile left_ ;; q <- get_value right_ ;; Ret (l ++ q)
       | _ => Raise AttributeError
       end
     else if ty =? "GROUP" then
       match t with
       | Node _ left_ _ => l <- compile left_ ;; Ret (py "(" ++ l ++ py ")")
       | _ => Raise AttributeError
       end
     else Raise (Unknown_node_type ty)).
Proof. destruct t; reflexivity. Qed.

(** With a frame for each level of the tree, [compile] does under the
    limit what it does on the unbounded stack. *)
Lemma compile_enough t : forall frames,
  height t <= frames -> Limit.compile frames t = compile t.
Proof.
  induction t as [|tok|ty l IHl r IHr]; intros [|d] H;
    try (pose proof (height_pos PyNone); simpl in H; lia);
    try reflexivity.
  cbn [height] in H.
  rewrite limit_compile_S, compile_eq.
  rewrite (IHl d) by lia. rewrite (IHr d) by lia. reflexivity.
Qed.

Lemma compile_simulates t : forall frames,
  simulates (fun _ => True) (Limit.compile frames t) (compile t).
Proof.
  induction t as [|tok|ty l IHl r IHr]; intros [|d];
    try (left; reflexivity).
  - right. reflexivity.
  - rewrite limit_compile_S, compile_eq.
    destruct (bind _ _) as [a|e|]; cbn [simulates]; auto.
  - rewrite limit_compile_S, compile_eq. cbn [get_type bind].
    repeat match goal with
           | |- context [if (?a =? ?b) then _ else _] =>
               destruct (a =? b)
           end;
      try (apply simulates_Raise); try (apply simulates_Ret; exact I);
      try (apply (simulates_bind (fun _ => True));
           [apply IHl | intros ol _];
           try (apply simulates_Ret; exact I);
           try (apply (simulates_bind (fun _ => True));
                [apply IHr | intros or _; apply simulates_Ret; exact I])).
    destruct (get_value r) as [a|e|]; cbn [bind simulates]; auto.
Qed.

(** ** The tree of the text [compile] writes *)

Lemma yields_atom_factor a t : yields P_atom a t -> yields P_factor a t.
Proof.
  intros H. rewrite <- (app_nil_r a).
  apply (y_factor a [] t); [exact H | constructor].
Qed.

Lemma yields_factor_term f t : yields P_factor f t -> yields P_term f t.
Proof.
  intros H. rewrite <- (app_nil_r f).
  apply (y_term f [] t t); [exact H | apply y_term_stop].
Qed.

Lemma yields_term_regex tm t : yields P_term tm t -> yields P_regex tm t.
Proof.
  intros H. rewrite <- (app_nil_r tm).
  apply (y_regex tm [] t t); [exact H | apply y_regex_stop].
Qed.

Lemma yields_factor_snoc f t q :
  yields P_factor f t -> is_postfix q -> yields P_factor (f ++ [q]) (wrap t q).
Proof.
  intros H Hq. inversion H as [| |a ps t0 Ha Hps| | | | | |]; subst.
  rewrite <- app_assoc.
  replace (wrap (fold_left wrap ps t0) q) with (fold_left wrap (ps ++ [q]) t0)
    by (rewrite fold_left_app; reflexivity).
  apply y_factor; [exact Ha|].
  apply Forall_app. split; [exact Hps | constructor; [exact Hq | constructor]].
Qed.

Lemma term_loop_snoc ph l t f tf :
  yields ph l t -> yields P_factor f tf ->
  forall t0, ph = P_term_loop t0 ->
  yields (P_term_loop t0) (l ++ f) (Node "CONCAT" t tf).
Proof.
  intros H Hf.
  induction H as [| | | | t1 | t1 f1 l1 tf1 t Hf1 _ Hl1 IH | | |];
    intros acc E; try discriminate; injection E as ->.
  - rewrite <- (app_nil_r ([] ++ f)). cbn [app].
    apply (y_term_more acc f [] tf); [exact Hf | apply y_term_stop].
  - rewrite <- app_assoc.
    apply (y_term_more acc f1 (l1 ++ f) tf1); [exact Hf1|].
    apply IH. reflexivity.
Qed.

Lemma yields_term_snoc a ta f tf :
  yields P_term a ta -> yields P_factor f tf ->
  yields P_term (a ++ f) (Node "CONCAT" ta tf).
Proof.
  intros H Hf. inversion H as [| | |f0 l0 tf0 t Hf0 Hl0| | | | |]; subst.
  rewrite <- app_assoc. apply (y_term f0 (l0 ++ f) tf0); [exact Hf0|].
  apply (term_loop_snoc _ _ _ _ _ Hl0 Hf). reflexivity.
Qed.

Lemma yields_group r t :
  yields P_term r t ->
  yields P_atom (LPAREN_token :: r ++ [RPAREN_token])
    (Node "GROUP" t PyNone).
Proof.
  intros H. apply y_group; [reflexivity | reflexivity|].
  apply yields_term_regex, H.
Qed.

Lemma reparsed_wrap ps : forall t,
  Forall is_postfix ps ->
  yields P_factor (tokens_of t) (reparsed t) ->
  yields P_factor (tokens_of (fold_left wrap ps t))
    (reparsed (fold_left wrap ps t)).
Proof.
  induction ps as [|q ps IH]; intros t Hps Ht; cbn [fold_left]; [exact Ht|].
  inversion Hps as [|? ? Hq Hps']; subst. apply IH; [exact Hps'|].
  destruct Hq as [Htag [Hq|Hq]].
  - rewrite (wrap_STAR _ _ Hq), tokens_of_STAR.
    change (reparsed (Node "STAR" t PyNone))
      with (wrap (Node "GROUP" (reparsed t) PyNone) STAR_token).
    replace ([LPAREN_token] ++ tokens_of t ++ [RPAREN_token] ++ [STAR_token])
      with ((LPAREN_token :: tokens_of t ++ [RPAREN_token]) ++ [STAR_token])
      by (cbn [app]; rewrite <- app_assoc; reflexivity).
    apply yields_factor_snoc; [|split; [reflexivity | left; reflexivity]].
    apply yields_atom_factor, yields_group, yields_factor_term, Ht.
  - rewrite (wrap_QUANT _ _ Hq), tokens_of_QUANT.
    change (reparsed (Node "QUANT" t (Tok q)))
      with (Node "QUANT" (reparsed t) (Tok q)).
    rewrite <- (wrap_QUANT (reparsed t) _ Hq).
    apply yields_factor_snoc; [exact Ht|].
    split; [exact Htag | right; exact Hq].
Qed.

(** The tokens [compile] writes for the tree of a phrase are a term of the
    grammar, and their tree is [reparsed]. *)
Lemma yields_reparsed ph l t :
  yields ph l t ->
  match ph with
  | P_atom => yields P_atom (tokens_of t) (reparsed t)
  | P_factor => yields P_factor (tokens_of t) (reparsed t)
  | P_term | P_regex => yields P_term (tokens_of t) (reparsed t)
  | P_term_loop t0 | P_regex_loop t0 =>
      yields P_term (tokens_of t0) (reparsed t0) ->
      yields P_term (tokens_of t) (reparsed t)
  end.
Proof.
  induction 1 as [tok Hleaf | lp r rp t Hlp Hrp _ IH | a ps t _ IH Hps
                 | f l tf t _ IHf _ IHl | t0
                 | t0 f l tf t _ IHf _ IHl
                 | tm l tt t _ IHtm _ IHl | t0
                 | t0 alt tm l tt t Halt _ IHtm _ IHl].
  - apply y_leaf, Hleaf.
  - apply (yields_group _ _ IH).
  - apply reparsed_wrap; [exact Hps | apply yields_atom_factor, IH].
  - apply IHl, yields_factor_term, IHf.
  - auto.
  - intros H0. apply IHl.
    apply (yields_term_snoc _ _ _ _ H0 IHf).
  - apply IHl, IHtm.
  - auto.
  - intros H0. apply IHl.
    apply yields_factor_term, yields_atom_factor.
    change (tokens_of (Node "ALT" t0 tt))
      with (LPAREN_token
              :: tokens_of t0 ++ ALT_token :: tokens_of tt ++ [RPAREN_token]).
    replace (tokens_of t0 ++ ALT_token :: tokens_of tt ++ [RPAREN_token])
      with ((tokens_of t0 ++ ALT_token :: tokens_of tt ++ [])
              ++ [RPAREN_token])
      by (rewrite app_nil_r, <- app_assoc; reflexivity).
    apply y_group; [reflexivity | reflexivity|].
    apply (y_regex (tokens_of t0) _ (reparsed t0)); [exact H0|].
    apply (y_regex_more (reparsed t0) ALT_token (tokens_of tt) []
             (reparsed tt)); [reflexivity | exact IHtm | apply y_regex_stop].
Qed.

(** ** The round trip under the limit *)

Section LimitPipeline.

Variable isalnum_non_ascii : char -> bool.

Local Abbreviation tokenize := (Tokenizer.tokenize isalnum_non_ascii).

(** What the unbounded stack does with the text of a parsed tree. *)
Lemma second_pass p toks t :
  tokenize p = Ret toks -> Parser.parse toks = Ret t ->
  exists out,
    compile t = Ret out
    /\ tokenize out = Ret (tokens_of t)
    /\ Parser.parse (tokens_of t) = Ret (reparsed t).
Proof.
  intros Htok Hparse.
  apply tokenize_sound in Htok. apply lexes_good in Htok.
  pose proof (parse_ast _ _ _ Hparse Htok) as Hast.
  destruct (compile_ast _ _ Hast) as (out & Hout & Hlex & _).
  exists out. split; [exact Hout|].
  split; [apply tokenize_complete, Hlex|].
  destruct (parse_yields_inv _ _ Hparse) as (l & rest & _ & Hy & _).
  apply yields_reparsed in Hy. cbn beta iota in Hy.
  rewrite <- (app_nil_r (tokens_of t)).
  apply parse_of_yields; [apply yields_term_regex, Hy | apply ends_regex_nil].
Qed.

End LimitPipeline.

(** ** C1 *)

(** C1, as stated, fails under the recursion limit. With a thousand
    frames, the pattern made of "a" and 249 stars is tokenized and parsed
    (the loop of [factor] takes no frame for a star), and [compile] writes
    249 pairs of parentheses around the "a", one for each star, in 250
    nested calls; [parse] needs four frames for each of these groups, and
    raises [RecursionError] on the text. *)
Lemma roundtrip_counterexample :
  ~ roundtrip 1000 (fun _ => false) (py "a" ++ repeat (ord "*") 249).
Proof.
  intros H.
  destruct (H (mkToken "CHAR" (py "a") :: repeat STAR_token 249)
              (Nat.iter 249 (fun x => Node "STAR" x PyNone)
                 (Tok (mkToken "CHAR" (py "a")))))
    as (out & toks' & t' & Hc & Ht & Hp).
  - vm_compute. reflexivity.
  - vm_compute. reflexivity.
  - vm_compute in Hc. injection Hc as <-.
    vm_compute in Ht. injection Ht as <-.
    vm_compute in Hp. discriminate Hp.
Qed.

(** C1, amended. Whenever [tokenize] and [parse] succeed on a pattern
    under the recursion limit, and the limit leaves [compile] a frame for
    each level of the tree, and [parse] six frames and four more for each
    level of groups in the tree of the text, where the parentheses that
    [compile] puts around the operand of every 'STAR' and around every
    'ALT' are groups: then [compile] succeeds on the tree, and [tokenize]
    and [parse] succeed again on the string it wrote; the second tree is
    [reparsed]. *)
Theorem roundtrip_within_limit (frames : nat)
  (isalnum_non_ascii : char -> bool) (p : str) (toks : list Token)
  (t : tree) :
  Limit.tokenize isalnum_non_ascii frames p = Ret toks ->
  Limit.parse frames toks = Ret t ->
  height t <= frames ->
  4 * group_depth (reparsed t) + 6 <= frames ->
  exists out toks',
    Limit.compile frames t = Ret out
    /\ Limit.tokenize isalnum_non_ascii frames out = Ret toks'
    /\ Limit.parse frames toks' = Ret (reparsed t).
Proof.
  intros Htok Hparse Hh Hd.
  apply tokenize_limit_Ret in Htok.
  apply parse_limit_iff in Hparse. destruct Hparse as [Hparse _].
  destruct (second_pass _ _ _ _ Htok Hparse) as (out & Hout & Htok' & Hp').
  exists out, (tokens_of t).
  split; [rewrite (compile_enough _ _ Hh); exact Hout|].
  split; [rewrite tokenize_enough by lia; exact Htok'|].
  apply parse_enough; assumption.
Qed.

Lemma roundtrip_within_limit_witness :
  exists toks t,
    Limit.tokenize (fun _ => false) 20 (py "a|b*") = Ret toks
    /\ Limit.parse 20 toks = Ret t
    /\ exists out toks',
         Limit.compile 20 t = Ret out
         /\ Limit.tokenize (fun _ => false) 20 out = Ret toks'
         /\ Limit.parse 20 toks' = Ret (reparsed t).
Proof.
  eexists. eexists. split; [reflexivity|]. split; [reflexivity|].
  eapply (roundtrip_within_limit 20 (fun _ => false) (py "a|b*"));
    [reflexivity | reflexivity | vm_compute; lia | vm_compute; lia].
Defined.

(** ** X6 *)

(** X6. Under the recursion limit, [parse] returns the tree [t] on the
    tokens [toks] exactly when [toks] starts with a regex of the grammar
    whose tree is [t], what follows it, if anything, starts with a token
    that cannot continue it (not a postfix operator, not the start of an
    atom, not 'ALT'), and there are six frames and four more for each level
    of nested groups of [t]. The grammar is the one of the four methods:
    an atom is a leaf token or a parenthesized regex, a factor is an atom
    wrapped once per postfix token, a term folds 'CONCAT' to the left over
    its factors, a regex folds 'ALT' to the left over its terms. *)
Theorem parse_iff_yields (frames : nat) (toks : list Token) (t : tree) :
  Limit.parse frames toks = Ret t
  <-> (exists l rest,
         toks = l ++ rest /\ yields P_regex l t /\ ends_regex rest)
      /\ 4 * group_depth t + 6 <= frames.
Proof.
  rewrite parse_limit_iff. split.
  - intros [H Hd]. split; [apply parse_yields_inv, H | exact Hd].
  - intros [(l & rest & -> & Hy & Hrest) Hd].
    split; [apply parse_of_yields; assumption | exact Hd].
Qed.

(** ** X7 *)

Lemma parse_raises toks e :
  Parser.parse toks = Raise e -> parser_raises toks e.
Proof.
  unfold Parser.parse, Parser.parse_from. intros E.
  destruct (Parser.regex _ _) as [[t s]|e'|] eqn:Er; simpl in E;
    try discriminate.
  injection E as <-.
  apply (proj1 (parser_raises_only _) _ _ (cursor_ok_init toks)) in Er.
  exact Er.
Qed.

(** X7. Under the recursion limit [parse] always answers: with a tree, or
    with one of four exceptions: [RecursionError], the [AttributeError]
    of [None.type], "Unclosed parenthesis", or "Unexpected token" on a
    token of the input that cannot start an atom. *)
Theorem parse_raises_only (frames : nat) (toks : list Token) :
  (exists t, Limit.parse frames toks = Ret t)
  \/ exists e,
       Limit.parse frames toks = Raise e
       /\ (e = RecursionError \/ parser_raises toks e).
Proof.
  pose proof (parse_simulates frames toks) as Hs.
  destruct (Limit.parse frames toks) as [t|e|]; cbn [simulates] in Hs.
  - left. exists t. reflexivity.
  - right. exists e. split; [reflexivity|].
    destruct Hs as [->|Hs]; [left; reflexivity|].
    right. apply parse_raises, Hs.
  - destruct (parse_no_Timeout _ Hs).
Qed.


(** ** The methods of the parser under the limit, on the phrases of the
    grammar *)

Lemma call_enough ph fuel d self t s' :
  call ph fuel self = Ret (t, s') ->
  4 * group_depth t + frames_of ph <= d ->
  limit_call ph fuel d self = Ret (t, s').
Proof.
  destruct (limit_enough fuel) as (Hr & Hrw & Ht & Htw & Hf & _ & Ha).
  destruct ph; cbn [call limit_call frames_of]; auto.
Qed.

(** With the frames its tree needs, the method of a phrase reads the
    phrase under the limit. *)
Lemma limit_lands ph l t :
  yields ph l t ->
  forall fuel d self rest,
    cursor_ok self -> tokens_left self = l ++ rest ->
    follow ph rest -> enough ph (length l) <= fuel ->
    4 * group_depth t + frames_of ph <= d ->
    lands (limit_call ph fuel d self) t rest.
Proof.
  intros Hy fuel d self rest Hc Hl Hf Hfuel Hd.
  destruct (parser_yields _ _ _ Hy fuel self rest Hc Hl Hf Hfuel)
    as (s' & E & Hc' & Hl').
  exists s'. split; [apply call_enough; assumption | split; assumption].
Qed.

(** The tree of a loop contains the tree it started from. *)
Lemma yields_contains ph l t :
  yields ph l t ->
  match ph with
  | P_term_loop t0 | P_regex_loop t0 => group_depth t0 <= group_depth t
  | _ => True
  end.
Proof.
  induction 1 as [| | | | t0 | t0 f l tf t _ _ _ IH | | t0
                 | t0 alt tm l tt t _ _ _ _ IH]; try exact I.
  - lia.
  - rewrite group_depth_CONCAT in IH. lia.
  - lia.
  - rewrite group_depth_ALT in IH. lia.
Qed.

(** ** Defining equations under the limit *)

Lemma limit_regex_S fuel d self :
  Limit.regex (S fuel) (S d) self
  = bind (Limit.term fuel d self)
         (fun '(t, s) => Limit.regex_while fuel (S d) t s).
Proof. reflexivity. Qed.

Lemma limit_term_S fuel d self :
  Limit.term (S fuel) (S d) self
  = bind (Limit.factor fuel d self)
         (fun '(t, s) => Limit.term_while fuel (S d) t s).
Proof. reflexivity. Qed.

Lemma limit_factor_S fuel d self :
  Limit.factor (S fuel) (S d) self
  = bind (Limit.atom fuel d self)
         (fun '(t, s) => Limit.factor_while fuel (S d) t s).
Proof. reflexivity. Qed.

Lemma limit_regex_while_ALT fuel d t0 self alt :
  Parser.current_token self = Some alt -> type alt = "ALT" ->
  Limit.regex_while (S fuel) (S d) t0 self
  = bind (Limit.term fuel d (Parser.advance self))
      (fun '(r, s) => Limit.regex_while fuel (S d) (Node "ALT" t0 r) s).
Proof.
  intros H Halt. cbn [Limit.regex_while]. unfold Parser.current_in.
  rewrite H, Halt. reflexivity.
Qed.

Lemma limit_atom_group fuel d self lp :
  Parser.current_token self = Some lp -> type lp = "LPAREN" ->
  Limit.atom (S fuel) (S d) self
  = bind (Limit.regex fuel d (Parser.advance self))
      (fun '(node, self) =>
         match Parser.current_token self with
         | None => Raise Unclosed_parenthesis
         | Some tok' =>
             if negb (type tok' =? "RPAREN") then Raise Unclosed_parenthesis
             else Ret (Node "GROUP" node PyNone, Parser.advance self)
         end).
Proof.
  intros H Hlp. cbn [Limit.atom]. rewrite H, Hlp. reflexivity.
Qed.

Lemma limit_atom_unexpected fuel d self tok :
  Parser.current_token self = Some tok ->
  tag_in (type tok) Parser.atom_start = false ->
  Limit.atom (S fuel) (S d) self = Raise (Unexpected_token tok).
Proof.
  intros H Htag. destruct (atom_start_split _ Htag) as [Hleaf Hlp].
  cbn [Limit.atom]. rewrite H, Hleaf, Hlp. reflexivity.
Qed.

Lemma limit_atom_end_of_input fuel d self :
  Parser.current_token self = None ->
  Limit.atom (S fuel) d self = Raise AttributeError.
Proof. intros H. cbn [Limit.atom]. rewrite H. reflexivity. Qed.

Lemma limit_term_unexpected fuel d self tok :
  Parser.current_token self = Some tok ->
  tag_in (type tok) Parser.atom_start = false ->
  Limit.term (S (S (S fuel))) (S (S (S d))) self
  = Raise (Unexpected_token tok).
Proof.
  intros H Htag. rewrite limit_term_S, limit_factor_S.
  rewrite (limit_atom_unexpected _ _ _ _ H Htag). reflexivity.
Qed.

Lemma limit_term_end_of_input fuel d self :
  Parser.current_token self = None ->
  Limit.term (S (S (S fuel))) (S (S (S d))) self = Raise AttributeError.
Proof.
  intros H. rewrite limit_term_S, limit_factor_S.
  rewrite (limit_atom_end_of_input _ _ _ H). reflexivity.
Qed.

Lemma limit_parse_unfold d toks :
  Limit.parse (S (S d)) toks
  = ('(tree, _) <- Limit.regex (S (S (S (S (4 * length toks))))) d
                     (Parser.init toks) ;;
     Ret tree).
Proof.
  unfold Limit.parse, Limit.parse_from. cbn [invoke bind].
  replace (4 * length toks + 4) with (S (S (S (S (4 * length toks)))))
    by lia.
  reflexivity.
Qed.

(** ** X9 *)

(** X9. An opening parenthesis, a regex of the grammar and then the end of
    the input, or a token that is not 'RPAREN' and cannot continue the
    regex, is refused with "Unclosed parenthesis" when the recursion limit
    leaves ten frames and four more for each level of groups of the
    regex: the closing parenthesis is asked for only after the whole inner
    regex is read. *)
Theorem unclosed_group (frames : nat) (lp : Token) (r rest : list Token)
  (t : tree) :
  type lp = "LPAREN" ->
  yields P_regex r t ->
  ends_regex rest -> follows ["RPAREN"] rest ->
  4 * group_depth t + 10 <= frames ->
  Limit.parse frames (lp :: r ++ rest) = Raise Unclosed_parenthesis.
Proof.
  intros Hlp Hy Hrest Hrp Hd.
  destruct frames as [|[|[|[|[|[|d]]]]]]; try lia.
  rewrite limit_parse_unfold, limit_regex_S, limit_term_S, limit_factor_S.
  rewrite (limit_atom_group _ _ _ lp) by (reflexivity || exact Hlp).
  destruct (limit_lands _ _ _ Hy (4 * length (lp :: r ++ rest)) d
              (Parser.advance (Parser.init (lp :: r ++ rest))) rest)
    as (s & E & Hc & Hl).
  - apply cursor_ok_advance.
  - rewrite tokens_left_advance, tokens_left_init. reflexivity.
  - exact Hrest.
  - cbn [enough]. simpl length. rewrite length_app. lia.
  - cbn [frames_of]. lia.
  - cbn [limit_call] in E. rewrite E. cbn [bind].
    rewrite (cursor_head _ Hc), Hl.
    destruct rest as [|tok rest]; [reflexivity|].
    simpl in Hrp. simpl. unfold tag_in in Hrp. simpl in Hrp.
    rewrite orb_false_r in Hrp. rewrite Hrp. reflexivity.
Qed.

Lemma unclosed_group_witness :
  let lp := mkToken "LPAREN" (py "(") in
  let a := mkToken "CHAR" (py "a") in
  let alt := mkToken "ALT" (py "|") in
  let b := mkToken "CHAR" (py "b") in
  Limit.parse 10 (lp :: [a; alt; b] ++ []) = Raise Unclosed_parenthesis.
Proof.
  intros lp a alt b.
  refine (unclosed_group 10 lp [a; alt; b] []
            (Node "ALT" (Tok a) (Tok b)) eq_refl _ _ I _).
  - apply (y_regex [a] [alt; b] (Tok a)).
    + apply (y_term [a] [] (Tok a)); [|apply y_term_stop].
      apply (y_factor [a] [] (Tok a)); [apply y_leaf; reflexivity|constructor].
    + apply (y_regex_more (Tok a) alt [b] [] (Tok b));
        [reflexivity| |apply y_regex_stop].
      apply (y_term [b] [] (Tok b)); [|apply y_term_stop].
      apply (y_factor [b] [] (Tok b)); [apply y_leaf; reflexivity|constructor].
  - repeat split.
  - vm_compute. lia.
Defined.

(** ** X10 *)

(** The loop of [regex] run over the alternatives [l] under the limit: it
    is then the same loop, entered with their tree in front of the rest. *)
Lemma limit_regex_loop_prefix ph l t :
  yields ph l t ->
  forall t0, ph = P_regex_loop t0 ->
  forall fuel d self rest,
    cursor_ok self -> tokens_left self = l ++ rest -> ends_term rest ->
    4 * length l + 3 <= fuel ->
    4 * group_depth t + 4 <= d ->
    exists k self',
      k <= length l /\ cursor_ok self' /\ tokens_left self' = rest
      /\ Limit.regex_while fuel d t0 self
         = Limit.regex_while (fuel - k) d t self'.
Proof.
  induction 1 as [| | | | | | | t1 | t1 alt tm l tt t Halt Htm _ Hl IHl];
    intros acc Eph; try discriminate; injection Eph as ->;
    intros fuel d self rest Hc Hleft Hrest Hfuel Hd.
  - exists 0, self. rewrite Nat.sub_0_r. auto.
  - destruct fuel as [|fuel]; [lia|].
    destruct d as [|d]; [lia|].
    pose proof (yields_contains _ _ _ Hl) as Hin. cbn beta iota in Hin.
    rewrite group_depth_ALT in Hin.
    simpl in Hleft. rewrite <- app_assoc in Hleft.
    simpl length in Hfuel. rewrite length_app in Hfuel.
    destruct (left_cons _ _ _ Hc Hleft) as [Hcur Hl'].
    destruct (limit_lands _ _ _ Htm fuel d (Parser.advance self) (l ++ rest))
      as (s1 & E1 & Hc1 & Hl1).
    + apply cursor_ok_advance.
    + exact Hl'.
    + apply (regex_loop_follows_term _ _ _ _ Hl Hrest).
    + cbn [enough]. lia.
    + cbn [frames_of]. lia.
    + destruct (IHl _ eq_refl fuel (S d) s1 rest Hc1 Hl1 Hrest)
        as (k & s' & Hk & Hc' & Hl'' & E); [lia | lia|].
      exists (S k), s'. split; [simpl; rewrite length_app; lia|].
      split; [exact Hc'|].
      split; [exact Hl''|].
      rewrite (limit_regex_while_ALT _ _ _ _ _ Hcur Halt).
      cbn [limit_call] in E1. rewrite E1. cbn [bind]. rewrite E. reflexivity.
Qed.

(** After a regex of the grammar and an 'ALT' token, [parse] is the call of
    [term] on what follows, when that call fails. *)
Lemma limit_parse_after_ALT frames l t alt X e :
  yields P_regex l t -> type alt = "ALT" ->
  4 * group_depth t + 6 <= frames ->
  (forall fuel d self,
     cursor_ok self -> tokens_left self = X ->
     Limit.term (S (S (S fuel))) (S (S (S d))) self = Raise e) ->
  Limit.parse frames (l ++ alt :: X) = Raise e.
Proof.
  intros Hy Halt Hd Hfail.
  inversion Hy as [| | | | | |tm l' tt t' Htm Hloop| |]; subst.
  pose proof (yields_contains _ _ _ Hloop) as Hin. cbn beta iota in Hin.
  destruct frames as [|[|[|[|[|[|d]]]]]]; try lia.
  rewrite limit_parse_unfold, limit_regex_S.
  set (toks := (tm ++ l') ++ alt :: X).
  assert (Hlen : length toks = length tm + length l' + S (length X))
    by (unfold toks; rewrite !length_app; simpl; lia).
  destruct (limit_lands _ _ _ Htm (S (S (S (4 * length toks))))
              (S (S (S d))) (Parser.init toks) (l' ++ alt :: X))
    as (s1 & E1 & Hc1 & Hl1).
  - apply cursor_ok_init.
  - rewrite tokens_left_init. unfold toks. rewrite <- app_assoc. reflexivity.
  - apply (regex_loop_follows_term _ _ _ _ Hloop).
    apply ends_term_ALT, Halt.
  - cbn [enough]. lia.
  - cbn [frames_of]. lia.
  - cbn [limit_call] in E1. rewrite E1. cbn [bind].
    destruct (limit_regex_loop_prefix _ _ _ Hloop tt eq_refl
                (S (S (S (4 * length toks)))) (S (S (S (S d)))) s1
                (alt :: X) Hc1 Hl1)
      as (k & s' & Hk & Hc' & Hl' & E);
      [apply ends_term_ALT, Halt | lia | lia|].
    rewrite E.
    destruct (S (S (S (4 * length toks))) - k) as [|[|[|[|m]]]] eqn:Em;
      try lia.
    destruct (left_cons _ _ _ Hc' Hl') as [Hcur Hadv].
    rewrite (limit_regex_while_ALT _ _ _ _ _ Hcur Halt).
    rewrite (Hfail m d _ (cursor_ok_advance s') Hadv). reflexivity.
Qed.

(** X10. An alternative cannot be empty: after a regex of the grammar and
    an 'ALT' token, a token that cannot start an atom (another 'ALT', a
    postfix operator, 'RPAREN') is refused with "Unexpected token" on that
    token, as in "a||b", "a|*" and "a|)", when the recursion limit leaves
    six frames and four more for each level of groups of the regex. *)
Theorem empty_alternative (frames : nat) (l : list Token) (t : tree)
  (alt tok : Token) (rest : list Token) :
  yields P_regex l t -> type alt = "ALT" ->
  tag_in (type tok) Parser.atom_start = false ->
  4 * group_depth t + 6 <= frames ->
  Limit.parse frames (l ++ alt :: tok :: rest) = Raise (Unexpected_token tok).
Proof.
  intros Hy Halt Htag Hd. apply (limit_parse_after_ALT _ _ _ _ _ _ Hy Halt Hd).
  intros fuel d self Hc Hl. apply limit_term_unexpected; [|exact Htag].
  rewrite (cursor_head _ Hc), Hl. reflexivity.
Qed.

Lemma empty_alternative_witness :
  let a := mkToken "CHAR" (py "a") in
  let alt := mkToken "ALT" (py "|") in
  let b := mkToken "CHAR" (py "b") in
  Limit.parse 6 ([a] ++ alt :: alt :: [b]) = Raise (Unexpected_token alt).
Proof.
  intros a alt b.
  refine (empty_alternative 6 [a] (Tok a) alt alt [b] _ eq_refl eq_refl _).
  - apply yields_one_leaf. reflexivity.
  - vm_compute. lia.
Defined.

(** ** X11 *)

(** X11. A pattern that ends on an 'ALT' token after a regex of the grammar
    makes [atom] read the type of [None]: [parse] raises [AttributeError]
    for every such input, "a|" being the shortest, when the recursion
    limit leaves six frames and four more for each level of groups of the
    regex. *)
Theorem trailing_ALT (frames : nat) (l : list Token) (t : tree)
  (alt : Token) :
  yields P_regex l t -> type alt = "ALT" ->
  4 * group_depth t + 6 <= frames ->
  Limit.parse frames (l ++ [alt]) = Raise AttributeError.
Proof.
  intros Hy Halt Hd. apply (limit_parse_after_ALT _ _ _ _ _ _ Hy Halt Hd).
  intros fuel d self Hc Hl. apply limit_term_end_of_input.
  rewrite (cursor_head _ Hc), Hl. reflexivity.
Qed.

Lemma trailing_ALT_witness :
  let a := mkToken "CHAR" (py "a") in
  let star := mkToken "STAR" (py "*") in
  let alt := mkToken "ALT" (py "|") in
  Limit.parse 6 ([a; star] ++ [alt]) = Raise AttributeError.
Proof.
  intros a star alt.
  refine (trailing_ALT 6 [a; star] (Node "STAR" (Tok a) PyNone) alt _
            eq_refl _).
  - apply (y_regex [a; star] [] (Node "STAR" (Tok a) PyNone));
      [|apply y_regex_stop].
    apply (y_term [a; star] [] (Node "STAR" (Tok a) PyNone));
      [|apply y_term_stop].
    apply (y_factor [a] [star] (Tok a)); [apply y_leaf; reflexivity|].
    constructor; [|constructor]. split; [reflexivity | left; reflexivity].
  - vm_compute. lia.
Defined.

(** ** X13 *)

(** X13. Serializing loses and reorders nothing: when [tokenize] and
    [parse] succeed on a pattern under the recursion limit, and the limit
    leaves [compile] a frame for each level of the tree, [compile] writes a
    string whose tokens are, parentheses apart, the tokens of the part of
    the pattern that [parse] read, in the same order. *)
Theorem compile_keeps_tokens (frames : nat)
  (isalnum_non_ascii : char -> bool) (p : str) (toks : list Token)
  (t : tree) :
  Limit.tokenize isalnum_non_ascii frames p = Ret toks ->
  Limit.parse frames toks = Ret t ->
  height t <= frames ->
  exists l rest out toks',
    toks = l ++ rest /\ yields P_regex l t /\ ends_regex rest
    /\ Limit.compile frames t = Ret out
    /\ Limit.tokenize isalnum_non_ascii frames out = Ret toks'
    /\ no_parens toks' = no_parens l.
Proof.
  intros Htok Hparse Hh.
  apply tokenize_limit_Ret in Htok.
  apply parse_limit_iff in Hparse. destruct Hparse as [Hparse Hd].
  destruct (second_pass _ _ _ _ Htok Hparse) as (out & Hout & Htok' & _).
  apply tokenize_sound in Htok. apply lexes_good in Htok.
  destruct (parse_yields_inv _ _ Hparse) as (l & rest & -> & Hy & Hrest).
  apply Forall_app in Htok. destruct Htok as [Hgl _].
  exists l, rest, out, (tokens_of t).
  split; [reflexivity|]. split; [exact Hy|]. split; [exact Hrest|].
  split; [rewrite (compile_enough _ _ Hh); exact Hout|].
  split; [rewrite tokenize_enough by lia; exact Htok'|].
  apply (yields_no_parens _ _ _ _ Hy Hgl).
Qed.

Lemma compile_keeps_tokens_witness :
  exists toks t l rest out toks',
    Limit.tokenize (fun _ => false) 20 (py "a|b*)c") = Ret toks
    /\ Limit.parse 20 toks = Ret t
    /\ toks = l ++ rest /\ yields P_regex l t /\ ends_regex rest
    /\ Limit.compile 20 t = Ret out
    /\ Limit.tokenize (fun _ => false) 20 out = Ret toks'
    /\ no_parens toks' = no_parens l.
Proof.
  eexists. eexists.
  destruct (compile_keeps_tokens 20 (fun _ => false) (py "a|b*)c") _ _
              eq_refl eq_refl) as (l & rest & out & toks' & H);
    [vm_compute; lia|].
  exists l, rest, out, toks'.
  split; [reflexivity|]. split; [reflexivity | exact H].
Defined.

(** ** X14 *)

(** X14. A pattern that is wholly a regex of the grammar and has no '*' and
    no '|' comes back unchanged from the pipeline, when the recursion
    limit leaves six frames and four for each level of groups to [parse],
    and a frame for each level of the tree to [compile]: characters,
    escapes, classes, anchors, quantifiers and the parentheses of the
    pattern are written as they were read. *)
Theorem unchanged_without_star_and_alt (frames : nat)
  (isalnum_non_ascii : char -> bool) (p : str) (toks : list Token)
  (t : tree) :
  Limit.tokenize isalnum_non_ascii frames p = Ret toks ->
  yields P_regex toks t ->
  Forall (fun tok => tag_in (type tok) ["STAR"; "ALT"] = false) toks ->
  4 * group_depth t + 6 <= frames ->
  height t <= frames ->
  Limit.pipeline frames isalnum_non_ascii p = Ret p.
Proof.
  intros Htok Hy Hn Hd Hh. unfold Limit.pipeline.
  rewrite Htok. cbn [bind]. apply tokenize_limit_Ret in Htok.
  pose proof (parse_of_yields _ [] _ Hy ends_regex_nil) as Hparse.
  rewrite app_nil_r in Hparse.
  rewrite (parse_enough _ _ _ Hparse Hd). cbn [bind].
  rewrite (compile_enough _ _ Hh).
  apply tokenize_sound in Htok.
  pose proof (lexes_good _ _ _ Htok) as Hg.
  pose proof (parse_ast _ _ _ Hparse Hg) as Hast.
  destruct (compile_ast _ _ Hast) as (out & Hout & Hlex & _).
  rewrite Hout. f_equal.
  rewrite (yields_same_tokens _ _ _ _ Hy Hg Hn) in Hlex. cbn [app] in Hlex.
  apply lexes_lexemes in Hlex. apply lexes_lexemes in Htok.
  destruct Hlex as [-> _]. destruct Htok as [-> _]. reflexivity.
Qed.

Lemma unchanged_without_star_and_alt_witness :
  Limit.pipeline 10 (fun _ => false) (py "(a){2}") = Ret (py "(a){2}").
Proof.
  set (lp := mkToken "LPAREN" (py "(")).
  set (a := mkToken "CHAR" (py "a")).
  set (rp := mkToken "RPAREN" (py ")")).
  set (q := mkToken "QUANT" (py "{2}")).
  refine (unchanged_without_star_and_alt 10 (fun _ => false) (py "(a){2}")
            [lp; a; rp; q]
            (Node "QUANT" (Node "GROUP" (Tok a) PyNone) (Tok q))
            eq_refl _ _ _ _).
  - apply (y_regex [lp; a; rp; q] []
             (Node "QUANT" (Node "GROUP" (Tok a) PyNone) (Tok q)));
      [|apply y_regex_stop].
    apply (y_term [lp; a; rp; q] []
             (Node "QUANT" (Node "GROUP" (Tok a) PyNone) (Tok q)));
      [|apply y_term_stop].
    apply (y_factor [lp; a; rp] [q] (Node "GROUP" (Tok a) PyNone)).
    + apply (y_group lp [a] rp (Tok a)); [reflexivity | reflexivity|].
      apply yields_one_leaf. reflexivity.
    + constructor; [|constructor]. split; [reflexivity | right; reflexivity].
  - repeat constructor.
  - vm_compute. lia.
  - vm_compute. lia.
Defined.

(** ** X15 *)

Lemma compile_answers (t : tree) :
  match compile t with
  | Ret _ => True
  | Raise e => compile_raises t e
  | Timeout => False
  end.
Proof.
  unfold compile_raises.
  induction t as [|tok|ty l IHl r IHr].
  - left. reflexivity.
  - cbn [compile get_type get_value bind].
    repeat match goal with
           | |- context [if (?a =? ?b) then _ else _] =>
               destruct (a =? b) eqn:?
           end; cbn [bind]; try exact I; try (left; reflexivity).
    right. exists (type tok). split; [reflexivity|].
    split; [left; reflexivity | apply unknown_tag; assumption].
  - cbn [compile get_type get_value bind].
    repeat match goal with
           | |- context [if (?a =? ?b) then _ else _] =>
               destruct (a =? b) eqn:?
           end; cbn [bind]; try exact I; try (left; reflexivity);
      try (right; exists ty; split; [reflexivity|];
           split; [left; reflexivity | apply unknown_tag; assumption]);
      (destruct (compile l) as [ol|el|]; cbn [bind];
       [| apply (raised_in_left ty l r), IHl | exact IHl]);
      try exact I;
      try (destruct (compile r) as [or|er|]; cbn [bind];
           [exact I | apply (raised_in_right ty l r), IHr | exact IHr]).
    destruct r; cbn [get_value bind]; try exact I; left; reflexivity.
Qed.

(** X15. On any object, a token, a node or [None], and whatever the
    recursion limit, [compile] answers with a string or with an exception:
    [RecursionError], the [AttributeError] of an attribute the object does
    not have, or "Unknown node type" on the type tag of one of the objects
    of the tree, a tag that is none of the eleven it has a case for. With
    a frame for each level of the tree it is not [RecursionError]: the
    answer is that of the unbounded stack. *)
Theorem compile_outcomes (frames : nat) (t : tree) :
  ((exists out, Limit.compile frames t = Ret out)
   \/ exists e,
        Limit.compile frames t = Raise e
        /\ (e = RecursionError \/ compile_raises t e))
  /\ (height t <= frames -> Limit.compile frames t = compile t).
Proof.
  split; [|apply compile_enough].
  pose proof (compile_simulates t frames) as Hs.
  pose proof (compile_answers t) as Ha.
  destruct (Limit.compile frames t) as [out|e|]; cbn [simulates] in Hs.
  - left. exists out. reflexivity.
  - right. exists e. split; [reflexivity|].
    destruct Hs as [->|Hs]; [left; reflexivity|].
    right. rewrite Hs in Ha. exact Ha.
  - rewrite Hs in Ha. destruct Ha.
Qed.
